(** * booksy: the response pipeline of [services/geminiService.ts]

    A shallow embedding of the retry wrapper, the response parser, the
    chapter reconciliation, the block normalisation, the grading entry
    point and the other entry points of the service, followed by the
    properties established about them.

    Conventions.
    - A JavaScript string is the list of its UTF-16 code units
      ([jsstring := list N]).
    - A JavaScript integer number is a [Z]; IEEE rounding is outside the
      scope of the development.
    - [async] functions are computations over an explicit [World]: the
      number of remote requests issued, the number of identifiers drawn
      and the trace of observable events.  What the remote model answers
      and which identifiers are drawn is fixed by an environment [Env],
      over which every statement is quantified.
    - [console.warn] / [console.error] calls are advisory and omitted. *)

From Stdlib Require Import ZArith NArith Lia List Bool Ascii String Sorted.
From Stdlib Require DecimalN DecimalFacts.
From stdpp Require Import base tactics list option.
Import ListNotations.
Open Scope Z_scope.

Set Default Proof Using "Type".

(* ================================================================== *)
(** * Part I. Definitions                                              *)
(* ================================================================== *)

(** ** JavaScript strings *)

Abbreviation jsstring := (list N).

(** Code unit of an ASCII character, and the code units of an ASCII
    literal. *)
Definition ch (a : ascii) : N := N_of_ascii a.
Definition str (s : string) : jsstring := map N_of_ascii (list_ascii_of_string s).

(** The code units of a literal in which every double quote is written
    as an apostrophe (JSON texts are easier to read that way). *)
Definition qstr (s : string) : jsstring :=
  map (fun c => if N.eqb c 39 then 34%N else c) (str s).

Definition in_range (lo hi c : N) : bool := (N.leb lo c && N.leb c hi)%bool.

(** [WhiteSpace] and [LineTerminator] of ECMAScript: the characters
    removed by [String.prototype.trim] and matched by the class [\s]. *)
Definition is_space (c : N) : bool :=
  (in_range 9 13 c || N.eqb c 32 || N.eqb c 160 || N.eqb c 5760
   || in_range 8192 8202 c || N.eqb c 8232 || N.eqb c 8233
   || N.eqb c 8239 || N.eqb c 8287 || N.eqb c 12288 || N.eqb c 65279)%bool.

(** The class [\w]: ASCII letters, digits and underscore. *)
Definition is_word (c : N) : bool :=
  (in_range 48 57 c || in_range 65 90 c || in_range 97 122 c || N.eqb c 95)%bool.

Definition any_char (_ : N) : bool := true.

Fixpoint drop_while (p : N -> bool) (s : jsstring) : jsstring :=
  match s with
  | c :: s' => if p c then drop_while p s' else s
  | [] => []
  end.

Definition trimStart (s : jsstring) : jsstring := drop_while is_space s.
Definition trimEnd (s : jsstring) : jsstring := rev (drop_while is_space (rev s)).
Definition trim (s : jsstring) : jsstring := trimEnd (trimStart s).

(** [s.indexOf(c)] for a one-character needle: the index of the first
    occurrence, or [-1]. *)
Fixpoint indexOf (c : N) (s : jsstring) : Z :=
  match s with
  | [] => -1
  | d :: s' =>
      if N.eqb d c then 0
      else let i := indexOf c s' in if i =? -1 then -1 else i + 1
  end.

(** [s.lastIndexOf(c)]: the index of the last occurrence, or [-1]. *)
Fixpoint lastIndexOf (c : N) (s : jsstring) : Z :=
  match s with
  | [] => -1
  | d :: s' =>
      let i := lastIndexOf c s' in
      if i =? -1 then (if N.eqb d c then 0 else -1) else i + 1
  end.

(** [s.substring(a, b)]: both indices are clamped to [0 .. length] and
    swapped when [a > b]. *)
Definition clamp_index (s : jsstring) (i : Z) : nat :=
  Z.to_nat (Z.min (Z.max i 0) (Z.of_nat (length s))).

Definition substring (a b : Z) (s : jsstring) : jsstring :=
  let a' := clamp_index s a in
  let b' := clamp_index s b in
  let lo := Nat.min a' b' in
  let hi := Nat.max a' b' in
  take (hi - lo) (drop lo s).

(** [haystack.includes(needle)]. *)
Fixpoint starts_with (needle s : jsstring) : bool :=
  match needle, s with
  | [], _ => true
  | n :: needle', c :: s' => N.eqb n c && starts_with needle' s'
  | _ :: _, [] => false
  end.

Fixpoint includes (needle s : jsstring) : bool :=
  starts_with needle s ||
  match s with
  | [] => false
  | _ :: s' => includes needle s'
  end.

(** [s.endsWith(suffix)]. *)
Definition endsWith (suffix s : jsstring) : bool :=
  starts_with (rev suffix) (rev s).

(** [parts.join(sep)]. *)
Fixpoint join (sep : jsstring) (parts : list jsstring) : jsstring :=
  match parts with
  | [] => []
  | [p] => p
  | p :: rest => p ++ sep ++ join sep rest
  end.

(** [s.indexOf(needle)] for a needle of any length: the index of the
    first occurrence, [None] for [-1]. *)
Fixpoint find_string (needle s : jsstring) : option nat :=
  if starts_with needle s then Some 0%nat
  else
    match s with
    | [] => None
    | _ :: s' => S <$> find_string needle s'
    end.

(** [s.split(sep)] for a non-empty separator: the pieces between the
    occurrences of [sep], found from left to right without overlap.
    There are at most [length s] occurrences, which is the fuel [split]
    supplies. *)
Fixpoint split_fuel (fuel : nat) (sep s : jsstring) : list jsstring :=
  match fuel with
  | O => [s]
  | S fuel' =>
      match find_string sep s with
      | None => [s]
      | Some i => take i s :: split_fuel fuel' sep (drop (i + length sep) s)
      end
  end.

Definition split (sep s : jsstring) : list jsstring := split_fuel (length s) sep s.

(** ** Regular expressions

    A backtracking matcher in continuation-passing style for the
    fragment of ECMAScript regular expressions used by the source.  Every
    starred sub-pattern of the source is a single character class, so the
    two star constructors range over classes. *)

Module Regex.

Inductive regex :=
| Empty
| Char (c : N)                    (* a literal character *)
| Class (p : N -> bool)           (* a character class, [.] with flag s included *)
| Seq (a b : regex)
| Opt (a : regex)                 (* a?  (greedy) *)
| Star (p : N -> bool)            (* [class]*  (greedy) *)
| StarLazy (p : N -> bool)        (* [class]*? (lazy) *)
| Group (n : nat) (a : regex)     (* capture group number n *)
| End.                            (* $ without the m flag *)

Definition captures := list (nat * jsstring).

Definition capture (n : nat) (c : captures) : option jsstring :=
  snd <$> List.find (fun e => Nat.eqb (fst e) n) c.

Definition result : Type := captures * jsstring.
Definition kont := jsstring -> captures -> option result.

(** Greedy star: as many characters of the class as the continuation
    tolerates, longest first. *)
Fixpoint star_greedy (p : N -> bool) (k : jsstring -> option result)
    (s : jsstring) : option result :=
  match s with
  | y :: s' =>
      if p y then
        match star_greedy p k s' with
        | Some r => Some r
        | None => k s
        end
      else k s
  | [] => k s
  end.

(** Lazy star: as few characters as the continuation tolerates. *)
Fixpoint star_lazy (p : N -> bool) (k : jsstring -> option result)
    (s : jsstring) : option result :=
  match k s with
  | Some r => Some r
  | None =>
      match s with
      | y :: s' => if p y then star_lazy p k s' else None
      | [] => None
      end
  end.

(** [run r k s c]: match [r] at the head of [s] with captures [c], then
    continue with [k] on what is left.  In [Opt], an iteration that
    consumed nothing is rejected, as RepeatMatcher prescribes. *)
Fixpoint run (r : regex) (k : kont) (s : jsstring) (c : captures)
    : option result :=
  match r with
  | Empty => k s c
  | Char x =>
      match s with
      | y :: s' => if N.eqb x y then k s' c else None
      | [] => None
      end
  | Class p =>
      match s with
      | y :: s' => if p y then k s' c else None
      | [] => None
      end
  | Seq a b => run a (run b k) s c
  | Opt a =>
      match run a (fun s' c' =>
                     if Nat.eqb (length s') (length s) then None else k s' c') s c with
      | Some r => Some r
      | None => k s c
      end
  | Star p => star_greedy p (fun s' => k s' c) s
  | StarLazy p => star_lazy p (fun s' => k s' c) s
  | Group n a =>
      run a (fun s' c' => k s' ((n, take (length s - length s') s) :: c')) s c
  | End =>
      match s with
      | [] => k s c
      | _ :: _ => None
      end
  end.

Definition accept : kont := fun s c => Some (c, s).

(** One match attempt at the head of [s]: the captures and the text left
    after the match. *)
Definition exec (r : regex) (s : jsstring) : option result :=
  run r accept s [].

Fixpoint seq (rs : list regex) : regex :=
  match rs with
  | [] => Empty
  | [r] => r
  | r :: rs' => Seq r (seq rs')
  end.

(** [s.replace(/r/g, '$1')]: scan from the left; where [r] matches, emit
    capture 1 and resume after the match; elsewhere copy one character.
    [fuel] bounds the scan and [length s] is enough (every match of the
    patterns used here consumes at least one character). *)
Fixpoint replace_all_group1 (r : regex) (fuel : nat) (s : jsstring) : jsstring :=
  match fuel with
  | O => s
  | S fuel' =>
      match s with
      | [] => []
      | y :: s' =>
          match exec r s with
          | Some (c, rest) =>
              default [] (capture 1 c) ++ replace_all_group1 r fuel' rest
          | None => y :: replace_all_group1 r fuel' s'
          end
      end
  end.

End Regex.

(** ** JSON values, [JSON.parse] and [JSON.stringify]

    The two built-ins of the runtime the parser relies on, embedded as
    executable functions over code units. *)

Module JSON.

(** A decoded value.  An object is the list of its properties in
    insertion order (the runtime enumerates the names that are array
    indices first, in numeric order; the model keeps insertion order
    for them as well, which is the same object up to the order of its
    properties).  An integer literal is a [JNum]; a literal with a
    fraction or an exponent denotes a floating-point number and is kept
    as its text ([JFloat]).

    The model of numbers is exact for the integers a JavaScript number
    holds exactly, those of magnitude below 2^53, and nowhere else: the
    runtime rounds a longer integer literal to the nearest double, reads
    [1.0] as the number 1 and [-0] as negative zero, and prints a number
    from 10^21 on with an exponent, none of which the model follows.
    What is stated about the numbers of a value is stated for values
    whose numbers are all in that range ([safe_numbers] below). *)
#[warnings="-register-all"] Inductive json :=
| JNull
| JBool (b : bool)
| JNum (z : Z)
| JFloat (literal : jsstring)
| JStr (s : jsstring)
| JArr (l : list json)
| JObj (l : list (jsstring * json)).

Definition jsstring_eqb (a b : jsstring) : bool :=
  bool_decide (a = b).

(** Own-property lookup and assignment on a property list. *)
Fixpoint obj_get (k : jsstring) (l : list (jsstring * json)) : option json :=
  match l with
  | [] => None
  | (k', v) :: l' => if jsstring_eqb k' k then Some v else obj_get k l'
  end.

(** Assigning an existing key overwrites it in place; a new key is
    appended. *)
Fixpoint obj_set (k : jsstring) (v : json) (l : list (jsstring * json))
    : list (jsstring * json) :=
  match l with
  | [] => [(k, v)]
  | (k', v') :: l' =>
      if jsstring_eqb k' k then (k', v) :: l' else (k', v') :: obj_set k v l'
  end.

(** *** Lexical helpers *)

Definition is_json_space (c : N) : bool :=
  (N.eqb c 9 || N.eqb c 10 || N.eqb c 13 || N.eqb c 32)%bool.

Definition is_digit (c : N) : bool := in_range 48 57 c.

Definition skip_space (s : jsstring) : jsstring := drop_while is_json_space s.

Fixpoint span_digits (s : jsstring) : jsstring * jsstring :=
  match s with
  | c :: s' =>
      if is_digit c then
        let '(ds, rest) := span_digits s' in (c :: ds, rest)
      else ([], s)
  | [] => ([], [])
  end.

Fixpoint strip_prefix (p s : jsstring) : option jsstring :=
  match p, s with
  | [], _ => Some s
  | x :: p', y :: s' => if N.eqb x y then strip_prefix p' s' else None
  | _ :: _, [] => None
  end.

(** Decimal digits, most significant first, through the decimal
    representation of the standard library. *)
Fixpoint uint_of_digits (ds : jsstring) : Decimal.uint :=
  match ds with
  | [] => Decimal.Nil
  | c :: ds' =>
      let u := uint_of_digits ds' in
      match c with
      | 48%N => Decimal.D0 u | 49%N => Decimal.D1 u | 50%N => Decimal.D2 u
      | 51%N => Decimal.D3 u | 52%N => Decimal.D4 u | 53%N => Decimal.D5 u
      | 54%N => Decimal.D6 u | 55%N => Decimal.D7 u | 56%N => Decimal.D8 u
      | _ => Decimal.D9 u
      end
  end.

Fixpoint digits_of_uint (u : Decimal.uint) : jsstring :=
  match u with
  | Decimal.Nil => []
  | Decimal.D0 u' => 48%N :: digits_of_uint u'
  | Decimal.D1 u' => 49%N :: digits_of_uint u'
  | Decimal.D2 u' => 50%N :: digits_of_uint u'
  | Decimal.D3 u' => 51%N :: digits_of_uint u'
  | Decimal.D4 u' => 52%N :: digits_of_uint u'
  | Decimal.D5 u' => 53%N :: digits_of_uint u'
  | Decimal.D6 u' => 54%N :: digits_of_uint u'
  | Decimal.D7 u' => 55%N :: digits_of_uint u'
  | Decimal.D8 u' => 56%N :: digits_of_uint u'
  | Decimal.D9 u' => 57%N :: digits_of_uint u'
  end.

Definition nat_of_digits (ds : jsstring) : N := N.of_uint (uint_of_digits ds).
Definition digits_of_N (n : N) : jsstring := digits_of_uint (N.to_uint n).

(** [String(z)] for an integer [z], which is also how [JSON.stringify]
    prints it: the decimal digits in full.  The runtime does so for the
    integers of magnitude below 10^21, and a number holds an integer
    exactly below 2^53. *)
Definition string_of_Z (z : Z) : jsstring :=
  if z <? 0 then ch "-" :: digits_of_N (Z.to_N (- z)) else digits_of_N (Z.to_N z).

(** *** Numbers: an optional minus sign, an integer part without
    leading zero, an optional fraction and an optional exponent. *)

(** [expect c s]: the text after [c] when [s] starts with [c]. *)
Definition expect (c : N) (s : jsstring) : option jsstring :=
  match s with
  | d :: r => if N.eqb d c then Some r else None
  | [] => None
  end.

Definition some_digits (s : jsstring) : option jsstring :=
  match span_digits s with
  | ([], _) => None
  | (_ :: _, r) => Some r
  end.

(** The fraction, if any: whether there is one, and the text after it. *)
Definition parse_fraction (s : jsstring) : option (bool * jsstring) :=
  match expect 46 s with
  | Some s1 => r ← some_digits s1; Some (true, r)
  | None => Some (false, s)
  end.

(** The exponent, if any. *)
Definition parse_exponent (s : jsstring) : option (bool * jsstring) :=
  match s with
  | c :: s1 =>
      if (N.eqb c 101 || N.eqb c 69)%bool then
        match s1 with
        | sg :: s2 =>
            if (N.eqb sg 43 || N.eqb sg 45)%bool
            then r ← some_digits s2; Some (true, r)
            else r ← some_digits s1; Some (true, r)
        | [] => None
        end
      else Some (false, s)
  | [] => Some (false, s)
  end.

Definition parse_number (s : jsstring) : option (json * jsstring) :=
  let '(neg, s1) :=
    match expect 45 s with
    | Some s' => (true, s')
    | None => (false, s)
    end in
  match span_digits s1 with
  | ([], _) => None
  | (d :: ds, s2) =>
      if (N.eqb d 48 && negb (bool_decide (ds = [])))%bool then None
      else
        '(frac, s3) ← parse_fraction s2;
        '(expo, s4) ← parse_exponent s3;
        if (frac || expo)%bool
        then Some (JFloat (take (length s - length s4) s), s4)
        else
          let n := Z.of_N (nat_of_digits (d :: ds)) in
          Some (JNum (if neg then - n else n), s4)
  end.

(** *** Strings *)

Definition hex_value (c : N) : option N :=
  if in_range 48 57 c then Some (c - 48)%N
  else if in_range 97 102 c then Some (c - 87)%N
  else if in_range 65 70 c then Some (c - 55)%N
  else None.

Definition hex_digit (n : N) : N :=
  if (n <? 10)%N then (48 + n)%N else (87 + n)%N.

(** The escape [\uXXXX] of a code unit, in lower-case hexadecimal. *)
Definition unicode_escape (c : N) : jsstring :=
  [92%N; 117%N; hex_digit ((c / 4096) mod 16); hex_digit ((c / 256) mod 16);
   hex_digit ((c / 16) mod 16); hex_digit (c mod 16)].

(** The character denoted by a backslash followed by [e], for the eight
    two-character escapes: quote, backslash, slash, b, f, n, r, t. *)
Definition simple_escape (e : N) : option N :=
  if N.eqb e 34 then Some 34%N
  else if N.eqb e 92 then Some 92%N
  else if N.eqb e 47 then Some 47%N
  else if N.eqb e 98 then Some 8%N
  else if N.eqb e 102 then Some 12%N
  else if N.eqb e 110 then Some 10%N
  else if N.eqb e 114 then Some 13%N
  else if N.eqb e 116 then Some 9%N
  else None.

(** The characters of a string literal after its opening quote, up to
    and including the closing quote. *)
Fixpoint parse_string_body (s : jsstring) : option (jsstring * jsstring) :=
  match s with
  | [] => None
  | c :: s1 =>
      if N.eqb c 34 then Some ([], s1)
      else if N.eqb c 92 then
        match s1 with
        | [] => None
        | e :: s2 =>
            if N.eqb e 117 then
              match s2 with
              | h1 :: h2 :: h3 :: h4 :: s3 =>
                  a ← hex_value h1; b ← hex_value h2;
                  c' ← hex_value h3; d ← hex_value h4;
                  '(cs, rest) ← parse_string_body s3;
                  Some ((a * 4096 + b * 256 + c' * 16 + d)%N :: cs, rest)
              | _ => None
              end
            else
              x ← simple_escape e;
              '(cs, rest) ← parse_string_body s2;
              Some (x :: cs, rest)
        end
      else if (c <? 32)%N then None
      else
        '(cs, rest) ← parse_string_body s1;
        Some (c :: cs, rest)
  end.

Definition is_high_surrogate (c : N) : bool := in_range 55296 56319 c.
Definition is_low_surrogate (c : N) : bool := in_range 56320 57343 c.

(** The text [JSON.stringify] writes for one code unit that is not a
    surrogate. *)
Definition escape_char (c : N) : jsstring :=
  if N.eqb c 8 then [92; 98]%N
  else if N.eqb c 9 then [92; 116]%N
  else if N.eqb c 10 then [92; 110]%N
  else if N.eqb c 12 then [92; 102]%N
  else if N.eqb c 13 then [92; 114]%N
  else if N.eqb c 34 then [92; 34]%N
  else if N.eqb c 92 then [92; 92]%N
  else if (c <? 32)%N then unicode_escape c
  else [c].

(** QuoteJSONString without the enclosing quotes: a surrogate is copied
    only as part of a well-formed pair, and escaped otherwise. *)
Fixpoint quote_body (s : jsstring) : jsstring :=
  match s with
  | [] => []
  | c :: s1 =>
      if is_high_surrogate c then
        match s1 with
        | d :: s2 =>
            if is_low_surrogate d then c :: d :: quote_body s2
            else unicode_escape c ++ quote_body s1
        | [] => unicode_escape c
        end
      else if is_low_surrogate c then unicode_escape c ++ quote_body s1
      else escape_char c ++ quote_body s1
  end.

Definition quote (s : jsstring) : jsstring := 34%N :: quote_body s ++ [34%N].

(** *** The grammar of values *)

(** The object built from the members in the order of the text; a
    repeated name keeps its first position and takes the last value. *)
Definition build_object (members : list (jsstring * json)) : json :=
  JObj (fold_left (fun o kv => obj_set (fst kv) (snd kv) o) members []).

Fixpoint parse_value (fuel : nat) (s : jsstring) {struct fuel}
    : option (json * jsstring) :=
  match fuel with
  | O => None
  | S fuel' =>
      match skip_space s with
      | [] => None
      | c :: s1 =>
          if N.eqb c 110 then r ← strip_prefix (str "ull") s1; Some (JNull, r)
          else if N.eqb c 116 then r ← strip_prefix (str "rue") s1; Some (JBool true, r)
          else if N.eqb c 102 then r ← strip_prefix (str "alse") s1; Some (JBool false, r)
          else if N.eqb c 34 then
            '(cs, r) ← parse_string_body s1; Some (JStr cs, r)
          else if N.eqb c 91 then
            match expect 93 (skip_space s1) with
            | Some r => Some (JArr [], r)
            | None => '(vs, r) ← parse_elements fuel' s1; Some (JArr vs, r)
            end
          else if N.eqb c 123 then
            match expect 125 (skip_space s1) with
            | Some r => Some (JObj [], r)
            | None => '(ms, r) ← parse_members fuel' s1; Some (build_object ms, r)
            end
          else parse_number (c :: s1)
      end
  end

with parse_elements (fuel : nat) (s : jsstring) {struct fuel}
    : option (list json * jsstring) :=
  match fuel with
  | O => None
  | S fuel' =>
      '(v, r) ← parse_value fuel' s;
      match expect 44 (skip_space r) with
      | Some r' => '(vs, r'') ← parse_elements fuel' r'; Some (v :: vs, r'')
      | None =>
          match expect 93 (skip_space r) with
          | Some r' => Some ([v], r')
          | None => None
          end
      end
  end

with parse_members (fuel : nat) (s : jsstring) {struct fuel}
    : option (list (jsstring * json) * jsstring) :=
  match fuel with
  | O => None
  | S fuel' =>
      s1 ← expect 34 (skip_space s);
      '(k, r0) ← parse_string_body s1;
      r1 ← expect 58 (skip_space r0);
      '(v, r) ← parse_value fuel' r1;
      match expect 44 (skip_space r) with
      | Some r' => '(ms, r'') ← parse_members fuel' r'; Some ((k, v) :: ms, r'')
      | None =>
          match expect 125 (skip_space r) with
          | Some r' => Some ([(k, v)], r')
          | None => None
          end
      end
  end.

(** [JSON.parse]: one value, surrounded by optional white space; [None]
    stands for the [SyntaxError] the built-in raises.  The fuel is never
    the limiting factor: a call consumes two units per character at
    most (lemma [parse_fuel_enough]). *)
Definition parse (s : jsstring) : option json :=
  match parse_value (2 * length s + 2) s with
  | Some (v, r) =>
      match skip_space r with
      | [] => Some v
      | _ :: _ => None
      end
  | None => None
  end.

(** [JSON.stringify(v)] without indentation. *)
Fixpoint stringify (v : json) : jsstring :=
  match v with
  | JNull => str "null"
  | JBool true => str "true"
  | JBool false => str "false"
  | JNum z => string_of_Z z
  | JFloat literal => literal
  | JStr s => quote s
  | JArr l => ch "[" :: join [ch ","] (map stringify l) ++ [ch "]"]
  | JObj l =>
      ch "{" ::
      join [ch ","] (map (fun kv => quote (fst kv) ++ ch ":" :: stringify (snd kv)) l)
      ++ [ch "}"]
  end.

(** ToBoolean on a decoded value: arrays and objects are always truthy. *)
Definition truthy (v : json) : bool :=
  match v with
  | JNull => false
  | JBool b => b
  | JNum z => negb (z =? 0)
  | JFloat _ => true
  | JStr s => negb (bool_decide (s = []))
  | JArr _ | JObj _ => true
  end.

End JSON.

Import JSON.

(** ** Errors, effects and the environment *)

(** A thrown [Error] object.  The source inspects nothing but its
    [message]. *)
Record JsError := { message : jsstring }.

Definition SyntaxError : JsError := {| message := str "Unexpected token in JSON" |}.
Definition TypeError : JsError := {| message := str "not a function or not an object" |}.

Inductive outcome (A : Type) :=
| Ret (a : A)
| Throw (e : JsError).
Arguments Ret {A} a.
Arguments Throw {A} e.

(** What an execution lets the outside observe: the wrapped operation
    being invoked by the retry wrapper, a request sent to the remote
    model, and a pause of [ms] milliseconds ([setTimeout]). *)
Inductive event :=
| Invoke
| Request
| Sleep (ms : Z).

Record World := {
  requests : nat;          (* requests sent so far *)
  ids : nat;               (* identifiers drawn so far *)
  trace : list event       (* events so far, oldest first *)
}.

Definition initial_world : World := {| requests := 0; ids := 0; trace := [] |}.

Definition M (A : Type) : Type := World -> outcome A * World.

Definition ret {A} (a : A) : M A := fun w => (Ret a, w).
Definition throw {A} (e : JsError) : M A := fun w => (Throw e, w).

Definition bind {A B} (m : M A) (f : A -> M B) : M B :=
  fun w =>
    match m w with
    | (Ret a, w') => f a w'
    | (Throw e, w') => (Throw e, w')
    end.

(** [try { body } catch (e) { handler e }]. *)
Definition try_catch {A} (body : M A) (handler : JsError -> M A) : M A :=
  fun w =>
    match body w with
    | (Ret a, w') => (Ret a, w')
    | (Throw e, w') => handler e w'
    end.

Definition lift {A} (o : outcome A) : M A := fun w => (o, w).

Definition emit (ev : event) : M unit :=
  fun w => (Ret tt, {| requests := requests w; ids := ids w; trace := trace w ++ [ev] |}).

Declare Scope js_scope.
Delimit Scope js_scope with js.
Notation "'let*' x ':=' m 'in' k" := (bind m (fun x => k))
  (at level 10, x name, m at level 200, k at level 200) : js_scope.

Fixpoint mapM {A B} (f : A -> M B) (l : list A) : M (list B) :=
  match l with
  | [] => ret []
  | a :: l' => (let* b := f a in let* bs := mapM f l' in ret (b :: bs))%js
  end.

(** Modelled from the spec: the declarations of [types.ts], which is not
    among the sources; the records follow section 3 of the specification
    and the use the service makes of their fields. *)
Record PageText := { pageNumber : Z; text : jsstring }.

(** [Omit<Chapter, 'id'>] as the analyzer expects it from the model. *)
Module Raw.

Record t := { title : jsstring; startPage : Z; endPage : Z }.

Definition set_endPage (c : t) (e : Z) : t :=
  {| title := title c; startPage := startPage c; endPage := e |}.

End Raw.

Record Chapter := { id : jsstring; title : jsstring; startPage : Z; endPage : Z }.

(** An element of [sources] in the result of [searchForMaterials]. *)
Module Source.

Record t := { uri : jsstring; title : jsstring }.

End Source.

(** An element of the argument of [getAiCorrections]. *)
Module Incorrect.

Record t := { questionId : jsstring; question : jsstring; userAnswer : jsstring }.

End Incorrect.

(** An element of the argument of [categorizeBooks]. *)
Module Book.

Record t := { id : jsstring; name : jsstring }.

End Book.

(** The environment of a run.
    - [aiInitializationError] and [ai] are the two module variables set
      when the module is loaded.
    - [remote k] is what the [k]-th call of [models.generateContent]
      yields: the [text] of the response ([None] for [undefined]), or the
      error the call rejects with.
    - [fresh k] is the [k]-th identifier made by [generateUniqueId] (time
      stamp and random suffix).
    - [untyped_chapters v n] stands for what lines 248-257 of the service
      do with a decoded value [v] outside the declared type
      [Omit<Chapter,'id'>[]] when [n] identifiers have been drawn: a
      [TypeError], or some chapter array computed through coercions,
      together with the number of identifiers drawn by then. *)
Record Env := {
  aiInitializationError : option JsError;
  ai : bool;
  remote : nat -> outcome (option jsstring);
  fresh : nat -> jsstring;
  untyped_chapters : json -> nat -> outcome (list Chapter) * nat
}.

(** ** The service *)

Section Service.

Variable env : Env.

Local Open Scope js_scope.

Definition getAi : M unit :=
  match aiInitializationError env with
  | Some e => throw {| message := str "Failed to initialize AI service: " ++ message e |}
  | None =>
      if ai env then ret tt
      else throw {| message := str "AI service is not initialized. Please ensure the API_KEY environment variable is set." |}
  end.

(** [await currentAi.models.generateContent(...)], followed by
    [response.text].  The prompt does not influence the control flow and
    is not represented. *)
Definition generateContent : M (option jsstring) :=
  fun w =>
    (remote env (requests w),
     {| requests := S (requests w); ids := ids w; trace := trace w ++ [Request] |}).

(** [await new Promise(res => setTimeout(res, ms))]. *)
Definition sleep (ms : Z) : M unit := emit (Sleep ms).

Definition generateUniqueId : M jsstring :=
  fun w =>
    (Ret (fresh env (ids w)),
     {| requests := requests w; ids := S (ids w); trace := trace w |}).

(** *** [callApiWithRetry] *)

Definition isServerError (error : JsError) : bool :=
  negb (bool_decide (message error = [])) && includes (str "500 INTERNAL") (message error).

Definition max_retries_error : JsError :=
  {| message := str "API call failed after maximum retries." |}.

(** The [while (attempt < maxRetries)] loop.  [fuel] bounds the number
    of iterations; [callApiWithRetry] supplies as many units as the guard
    can hold, so that the fuel runs out exactly when the guard fails. *)
Fixpoint retry_loop {T} (apiCall : M T) (maxRetries : Z) (fuel : nat) (attempt : Z)
    : M T :=
  match fuel with
  | O => throw max_retries_error
  | S fuel' =>
      if attempt <? maxRetries then
        try_catch
          (let* _ := emit Invoke in apiCall)
          (fun error =>
             let attempt := attempt + 1 in
             if isServerError error && (attempt <? maxRetries) then
               let* _ := sleep (1000 * attempt) in
               retry_loop apiCall maxRetries fuel' attempt
             else throw error)
      else throw max_retries_error
  end.

Definition callApiWithRetry {T} (apiCall : M T) (maxRetries : Z) : M T :=
  retry_loop apiCall maxRetries (Z.to_nat maxRetries) 0.

(** *** [parseJsonResponse] *)

(** The fence pattern [/^```( \w* )?\s*\n?(.*?)\n?\s*```$/s] (the blanks
    around the first group are not part of it). *)
Definition fence_regex : Regex.regex :=
  Regex.seq
    [ Regex.Char (ch "`"); Regex.Char (ch "`"); Regex.Char (ch "`");
      Regex.Opt (Regex.Group 1 (Regex.Star is_word));
      Regex.Star is_space;
      Regex.Opt (Regex.Char 10);
      Regex.Group 2 (Regex.StarLazy any_char);
      Regex.Opt (Regex.Char 10);
      Regex.Star is_space;
      Regex.Char (ch "`"); Regex.Char (ch "`"); Regex.Char (ch "`");
      Regex.End ].

(** [/,\s*([}\]])/g] *)
Definition is_closer (c : N) : bool := N.eqb c (ch "}") || N.eqb c (ch "]").

Definition trailing_comma_regex : Regex.regex :=
  Regex.seq
    [ Regex.Char (ch ","); Regex.Star is_space; Regex.Group 1 (Regex.Class is_closer) ].

(** [jsonStr.match(fence)]: the pattern starts with [^] and has no [m]
    flag, so the only attempt is at index 0. *)
Definition fenceMatch (jsonStr : jsstring) : option Regex.captures :=
  fst <$> Regex.exec fence_regex jsonStr.

(** [jsonStr.replace(/,\s*([}\]])/g, '$1')] *)
Definition remove_trailing_commas (jsonStr : jsstring) : jsstring :=
  Regex.replace_all_group1 trailing_comma_regex (length jsonStr) jsonStr.

(** [JSON.parse], raising [SyntaxError]. *)
Definition JSON_parse (s : jsstring) : outcome json :=
  match JSON.parse s with
  | Some v => Ret v
  | None => Throw SyntaxError
  end.

Definition try_catch_pure {A} (body : outcome A) (handler : JsError -> outcome A)
    : outcome A :=
  match body with
  | Ret a => Ret a
  | Throw e => handler e
  end.

(** The argument is [response.text]: [None] is [undefined].  The result
    [Ret None] is the [null] of the source. *)
Definition parseJsonResponse (text : option jsstring) : outcome (option json) :=
  match text with
  | None | Some [] => Ret None
  | Some text =>
      let jsonStr := trim text in
      let jsonStr :=
        match fenceMatch jsonStr with
        | Some m =>
            match Regex.capture 2 m with
            | Some ((_ :: _) as inner) => trim inner
            | _ => jsonStr
            end
        | None => jsonStr
        end in
      let firstBracket := indexOf (ch "[") jsonStr in
      let firstBrace := indexOf (ch "{") jsonStr in
      let start :=
        if firstBracket =? -1 then firstBrace
        else if firstBrace =? -1 then firstBracket
        else Z.min firstBracket firstBrace in
      if start =? -1 then Ret None
      else
        let lastBracket := lastIndexOf (ch "]") jsonStr in
        let lastBrace := lastIndexOf (ch "}") jsonStr in
        let end_ := Z.max lastBracket lastBrace in
        if end_ =? -1 then Ret None
        else
          let jsonStr := substring start (end_ + 1) jsonStr in
          try_catch_pure
            (let cleanedJsonStr := remove_trailing_commas jsonStr in
             match JSON_parse cleanedJsonStr with
             | Ret v => Ret (Some v)
             | Throw e => Throw e
             end)
            (fun _ => Ret None)
  end.

(** [if (x)] on the result of [parseJsonResponse]. *)
Definition truthy_result (r : option json) : bool :=
  match r with
  | None => false
  | Some v => truthy v
  end.

(** *** [analyzeDocumentStructure] *)

(** The typed view of a decoded value: an array of objects with a string
    [title] and integer [startPage] and [endPage]. *)
Definition as_raw_chapter (v : json) : option Raw.t :=
  match v with
  | JObj l =>
      match obj_get (str "title") l, obj_get (str "startPage") l, obj_get (str "endPage") l with
      | Some (JStr t), Some (JNum s), Some (JNum e) =>
          Some {| Raw.title := t; Raw.startPage := s; Raw.endPage := e |}
      | _, _, _ => None
      end
  | _ => None
  end.

Fixpoint as_raw_chapters (l : list json) : option (list Raw.t) :=
  match l with
  | [] => Some []
  | v :: l' =>
      match as_raw_chapter v, as_raw_chapters l' with
      | Some c, Some cs => Some (c :: cs)
      | _, _ => None
      end
  end.

(** The loop [for (let i = 0; i < rawChapters.length - 1; i++)], which
    updates [rawChapters[i].endPage] in place. *)
Fixpoint clamp_loop (fuel : nat) (i : nat) (rawChapters : list Raw.t) : list Raw.t :=
  match fuel with
  | O => rawChapters
  | S fuel' =>
      if Z.of_nat i <? Z.of_nat (length rawChapters) - 1 then
        match rawChapters !! i, rawChapters !! S i with
        | Some ci, Some cj =>
            let rawChapters :=
              if Raw.endPage ci >=? Raw.startPage cj
              then <[i := Raw.set_endPage ci (Raw.startPage cj - 1)]> rawChapters
              else rawChapters in
            clamp_loop fuel' (S i) rawChapters
        | _, _ => rawChapters
        end
      else rawChapters
  end.

(** [rawChapters[rawChapters.length - 1].endPage = totalPages] *)
Definition set_last_endPage (totalPages : Z) (rawChapters : list Raw.t) : list Raw.t :=
  let i := (length rawChapters - 1)%nat in
  match rawChapters !! i with
  | Some c => <[i := Raw.set_endPage c totalPages]> rawChapters
  | None => rawChapters
  end.

(** Lines 249-254: the reconciliation of the page ranges. *)
Definition reconcile (totalPages : Z) (rawChapters : list Raw.t) : list Raw.t :=
  set_last_endPage totalPages (clamp_loop (length rawChapters) 0 rawChapters).

(** [{...c, id: generateUniqueId()}] *)
Definition with_chapter_id (c : Raw.t) : M Chapter :=
  let* i := generateUniqueId in
  ret {| id := i; title := Raw.title c; startPage := Raw.startPage c; endPage := Raw.endPage c |}.

(** The predicate of the final [filter]. *)
Definition keep_chapter (totalPages : Z) (c : Chapter) : bool :=
  (startPage c <=? totalPages) && (startPage c >? 0) && (endPage c >=? startPage c).

Definition full_document (totalPages : Z) : M (list Chapter) :=
  let* i := generateUniqueId in
  ret [{| id := i; title := str "Full Document"; startPage := 1; endPage := totalPages |}].

(** A decoded value outside the declared type: left to the environment. *)
Definition untyped_path (v : json) : M (list Chapter) :=
  fun w =>
    let '(o, n) := untyped_chapters env v (ids w) in
    (o, {| requests := requests w; ids := n; trace := trace w |}).

(** What [apiCall] does with the decoded response (lines 248-260): the
    guard [rawChapters && rawChapters.length > 0], the reconciliation, the
    identifiers and the filter; the whole-document chapter otherwise. *)
Definition chapters_of_response (totalPages : Z) (rawChapters : option json)
    : M (list Chapter) :=
  match rawChapters with
  | None => full_document totalPages
  | Some (JArr []) => full_document totalPages
  | Some (JArr l) =>
      match as_raw_chapters l with
      | Some rawChapters =>
          let* chaptersWithIds := mapM with_chapter_id (reconcile totalPages rawChapters) in
          ret (List.filter (keep_chapter totalPages) chaptersWithIds)
      | None => untyped_path (JArr l)
      end
  | Some (JObj props) =>
      match obj_get (str "length") props with
      | None | Some JNull | Some (JBool false) => full_document totalPages
      | Some (JNum z) =>
          if z >? 0 then untyped_path (JObj props) else full_document totalPages
      | Some _ => untyped_path (JObj props)
      end
  | Some (JStr (c :: s)) => untyped_path (JStr (c :: s))
  | Some (JNull | JBool _ | JNum _ | JFloat _ | JStr []) => full_document totalPages
  end.

(** The closure [apiCall] of [analyzeDocumentStructure]. *)
Definition analyze_apiCall (totalPages : Z) : M (list Chapter) :=
  let* text := generateContent in
  let* rawChapters := lift (parseJsonResponse text) in
  chapters_of_response totalPages rawChapters.

Definition analyzeDocumentStructure (pages : list PageText) : M (option (list Chapter)) :=
  let* _ := getAi in
  let totalPages := Z.of_nat (length pages) in
  try_catch
    (let* chapters := callApiWithRetry (analyze_apiCall totalPages) 3 in ret (Some chapters))
    (fun _ => let* chapters := full_document totalPages in ret (Some chapters)).

(** *** Interactive blocks *)

(** The own enumerable properties an object spread [{...v}] copies. *)
Definition spread (v : json) : list (jsstring * json) :=
  match v with
  | JObj l => l
  | JArr l => imap (fun i x => (string_of_Z (Z.of_nat i), x)) l
  | JStr s => imap (fun i c => (string_of_Z (Z.of_nat i), JStr [c])) s
  | JNull | JBool _ | JNum _ | JFloat _ => []
  end.

(** [v.name] for a property name that is neither an array index nor
    [length] (the names read by the source are [content], [type] and
    [questionId]); [None] is [undefined], and reading a property of
    [null] raises. *)
Definition get_named (name : jsstring) (v : json) : outcome (option json) :=
  match v with
  | JNull => Throw TypeError
  | JObj l => Ret (obj_get name l)
  | JBool _ | JNum _ | JFloat _ | JStr _ | JArr _ => Ret None
  end.

(** [{...block, id: generateUniqueId()}] *)
Definition with_block_id (block : json) : M json :=
  let* i := generateUniqueId in
  ret (JObj (obj_set (str "id") (JStr i) (spread block))).

(** [content.map(...)]: only an array has a [map] method. *)
Definition assignIdsToBlocks (content : json) : M (list json) :=
  match content with
  | JArr blocks => mapM with_block_id blocks
  | _ => throw TypeError
  end.

(** The [type] tag of a normalised block, if it has one. *)
Definition block_tag (block : json) : option json :=
  match block with
  | JObj l => obj_get (str "type") l
  | _ => None
  end.

Definition known_tags : list jsstring :=
  [ str "explanation"; str "math_formula"; str "multiple_choice_question";
    str "true_false_question"; str "fill_in_the_blank_question";
    str "open_ended_question" ].

Definition known_tag (block : json) : bool :=
  match block_tag block with
  | Some (JStr t) => bool_decide (t ∈ known_tags)
  | _ => false
  end.

(** *** [generateInteractiveLesson] *)

(** The closure [apiCall] of [generateInteractiveLesson]. *)
Definition lesson_apiCall : M (option json) :=
  let* text := generateContent in
  let* initialContent := lift (parseJsonResponse text) in
  match initialContent with
  | None => ret None
  | Some initialContent =>
      if negb (truthy initialContent) then ret None
      else
        let* content := lift (get_named (str "content") initialContent) in
        match content with
        | None => ret None
        | Some content =>
            if negb (truthy content) then ret None
            else
              let* blocksWithIds := assignIdsToBlocks content in
              let* i := generateUniqueId in
              ret (Some (JObj (obj_set (str "content") (JArr blocksWithIds)
                                 (obj_set (str "id") (JStr i) (spread initialContent)))))
        end
  end.

Definition generateInteractiveLesson (pdfText : jsstring) (lessonPages : list PageText)
    : M (option json) :=
  let* _ := getAi in
  try_catch (callApiWithRetry lesson_apiCall 3) (fun _ => ret None).

(** *** [generateInitialQuestions] *)

(** One pass through the body of the [try] block: [Some blocks] when the
    function returns from inside it, [None] when control falls through
    (unparseable response or caught error). *)
Definition questions_attempt : M (option (list json)) :=
  try_catch
    (let* text := generateContent in
     let* rawBlocks := lift (parseJsonResponse text) in
     match rawBlocks with
     | Some v =>
         if truthy v then (let* blocks := assignIdsToBlocks v in ret (Some blocks))
         else ret None
     | None => ret None
     end)
    (fun _ => ret None).

(** [for (let attempt = 0; attempt < 3; attempt++)] *)
Fixpoint questions_loop (fuel : nat) (attempt : Z) : M (option (list json)) :=
  match fuel with
  | O => ret None
  | S fuel' =>
      if attempt <? 3 then
        let* r := questions_attempt in
        match r with
        | Some blocks => ret (Some blocks)
        | None =>
            let* _ := (if attempt <? 2 then sleep (500 * (attempt + 1)) else ret tt) in
            questions_loop fuel' (attempt + 1)
        end
      else ret None
  end.

Definition generateInitialQuestions (lessonText : jsstring) : M (option (list json)) :=
  let* _ := getAi in
  questions_loop 3 0.

(** *** [getFeedbackOnAnswers] *)

(** Modelled from the spec: the tagged union [InteractiveBlock] of
    [types.ts] (section 3 of the specification), every variant with the
    [id] given to it at normalisation. *)
Inductive InteractiveBlock :=
| ExplanationBlock (id text : jsstring)
| MathFormulaBlock (id latex : jsstring)
| MultipleChoiceQuestionBlock (id question : jsstring) (options : list jsstring)
    (correctAnswerIndex : Z)
| TrueFalseQuestionBlock (id question : jsstring) (correctAnswer : bool)
| FillInTheBlankQuestionBlock (id : jsstring) (questionParts correctAnswers : list jsstring)
| OpenEndedQuestionBlock (id question : jsstring).

Definition block_id (b : InteractiveBlock) : jsstring :=
  match b with
  | ExplanationBlock i _ | MathFormulaBlock i _ | MultipleChoiceQuestionBlock i _ _ _
  | TrueFalseQuestionBlock i _ _ | FillInTheBlankQuestionBlock i _ _
  | OpenEndedQuestionBlock i _ => i
  end.

Definition block_type (b : InteractiveBlock) : jsstring :=
  match b with
  | ExplanationBlock _ _ => str "explanation"
  | MathFormulaBlock _ _ => str "math_formula"
  | MultipleChoiceQuestionBlock _ _ _ _ => str "multiple_choice_question"
  | TrueFalseQuestionBlock _ _ _ => str "true_false_question"
  | FillInTheBlankQuestionBlock _ _ _ => str "fill_in_the_blank_question"
  | OpenEndedQuestionBlock _ _ => str "open_ended_question"
  end.

(** Modelled from the spec: [UserAnswer], whose [answer] is a number, a
    boolean, a string or an array of strings. *)
Inductive Answer :=
| AnswerNumber (n : Z)
| AnswerBoolean (b : bool)
| AnswerString (s : jsstring)
| AnswerArray (l : list jsstring).

Record UserAnswer := { questionId : jsstring; answer : Answer }.

(** An element of [qaPairsForAI]; [correctAnswer] may be [undefined]. *)
Record QaPair := {
  pair_questionId : jsstring;
  pair_question : jsstring;
  pair_userAnswer : jsstring;
  pair_correctAnswer : option jsstring
}.

(** An element of the result: the properties of the decoded feedback
    entry, and the two properties added from the matching pair. *)
Record FeedbackItem := {
  feedback : list (jsstring * json);
  question : option jsstring;
  userAnswer : option jsstring
}.

(** [options[n]] for a number [n]: [undefined] outside the array. *)
Definition index (options : list jsstring) (n : Z) : option jsstring :=
  if n <? 0 then None else options !! Z.to_nat n.

(** [String(ua.answer)] *)
Definition String_of_answer (a : Answer) : jsstring :=
  match a with
  | AnswerNumber n => string_of_Z n
  | AnswerBoolean b => if b then str "true" else str "false"
  | AnswerString s => s
  | AnswerArray l => join [ch ","] l
  end.

(** ToBoolean of [ua.answer] *)
Definition answer_truthy (a : Answer) : bool :=
  match a with
  | AnswerNumber n => negb (n =? 0)
  | AnswerBoolean b => b
  | AnswerString s => negb (bool_decide (s = []))
  | AnswerArray _ => true
  end.

Definition True_or_False (b : bool) : jsstring := if b then str "True" else str "False".

(** The callback of [userAnswers.map]: [None] is the [null] it returns
    for an answer that is not sent for grading. *)
Definition qa_pair (allQuestions : list InteractiveBlock) (ua : UserAnswer)
    : option QaPair :=
  match List.find (fun q => jsstring_eqb (block_id q) (questionId ua)) allQuestions with
  | None => None
  | Some questionBlock =>
      if negb (endsWith (str "_question") (block_type questionBlock)) then None
      else
        let '(questionText, userAnswerText, correctAnswerText) :=
          match questionBlock with
          | MultipleChoiceQuestionBlock _ question options correctAnswerIndex =>
              (Some question,
               match answer ua with
               | AnswerNumber n => index options n
               | _ => Some (str "N/A")
               end,
               index options correctAnswerIndex)
          | OpenEndedQuestionBlock _ question =>
              (Some question,
               Some (String_of_answer (answer ua)),
               Some (str "This is an open-ended question. Evaluate the answer's logic and relevance to the question."))
          | TrueFalseQuestionBlock _ question correctAnswer =>
              (Some question,
               Some (True_or_False (answer_truthy (answer ua))),
               Some (True_or_False correctAnswer))
          | FillInTheBlankQuestionBlock _ questionParts correctAnswers =>
              (Some (join (str " [blank] ") questionParts),
               match answer ua with
               | AnswerArray l =>
                   Some (join (str ", ")
                           (map (fun a => match a with [] => str "empty" | _ => a end) l))
               | _ => Some (str "N/A")
               end,
               Some (join (str ", ") correctAnswers))
          | ExplanationBlock _ _ | MathFormulaBlock _ _ => (None, None, None)
          end in
        match questionText, userAnswerText with
        | Some ((_ :: _) as q), Some u =>
            Some {| pair_questionId := questionId ua; pair_question := q;
                    pair_userAnswer := u; pair_correctAnswer := correctAnswerText |}
        | _, _ => None
        end
  end.

(** [userAnswers.map(...).filter(Boolean)] *)
Definition qaPairsForAI (userAnswers : list UserAnswer) (allQuestions : list InteractiveBlock)
    : list QaPair :=
  omap (qa_pair allQuestions) userAnswers.

(** The callback of [feedbackFromAI.map]. *)
Definition augment (pairs : list QaPair) (fb : json) : M FeedbackItem :=
  let* fbId := lift (get_named (str "questionId") fb) in
  let originalPair :=
    List.find (fun p => match fbId with
                        | Some (JStr i) => jsstring_eqb (pair_questionId p) i
                        | _ => false
                        end) pairs in
  ret {| feedback := spread fb;
         question := pair_question <$> originalPair;
         userAnswer := pair_userAnswer <$> originalPair |}.

(** The closure [apiCall] of [getFeedbackOnAnswers]. *)
Definition feedback_apiCall (pairs : list QaPair) : M (option (list FeedbackItem)) :=
  let* text := generateContent in
  let* feedbackFromAI := lift (parseJsonResponse text) in
  match feedbackFromAI with
  | None => ret None
  | Some v =>
      if negb (truthy v) then ret None
      else
        match v with
        | JArr l => let* items := mapM (augment pairs) l in ret (Some items)
        | _ => throw TypeError
        end
  end.

Definition getFeedbackOnAnswers (userAnswers : list UserAnswer)
    (allQuestions : list InteractiveBlock) : M (option (list FeedbackItem)) :=
  let* _ := getAi in
  let pairs := qaPairsForAI userAnswers allQuestions in
  if (length pairs =? 0)%nat then ret (Some [])
  else try_catch (callApiWithRetry (feedback_apiCall pairs) 3) (fun _ => ret None).

(** *** [proofreadSinglePageText] and [summarizeChapterText]

    As for every function of the service, the prompt (for the summary:
    with the word counts computed for it) is part of the request and is
    not represented. *)

(** [!text || !text.trim()] *)
Definition blank (text : jsstring) : bool :=
  bool_decide (text = []) || bool_decide (trim text = []).

(** [response.text?.trim() || fallback] *)
Definition trimmed_or (fallback : jsstring) (text : option jsstring) : jsstring :=
  match text with
  | None => fallback
  | Some t =>
      match trim t with
      | [] => fallback
      | (_ :: _) as trimmed => trimmed
      end
  end.

(** The closure [apiCall] of [proofreadSinglePageText]. *)
Definition proofread_apiCall (text : jsstring) : M jsstring :=
  let* response_text := generateContent in
  ret (trimmed_or text response_text).

Definition proofreadSinglePageText (text : jsstring) : M jsstring :=
  let* _ := getAi in
  if blank text then ret text
  else try_catch (callApiWithRetry (proofread_apiCall text) 3) (fun _ => ret text).

(** The closure [apiCall] of [summarizeChapterText]. *)
Definition summarize_apiCall : M jsstring :=
  let* response_text := generateContent in
  ret (trimmed_or (str "Failed to generate summary.") response_text).

Definition summarizeChapterText (chapterText : jsstring) (style : option jsstring)
    : M jsstring :=
  let* _ := getAi in
  if blank chapterText then ret (str "No text to summarize.")
  else
    try_catch (callApiWithRetry summarize_apiCall 3)
      (fun _ => ret (str "Sorry, an error occurred while trying to generate the summary.")).

(** *** [analyzeChapterForLessons] *)

(** The closure [apiCall]: [rawLessons ? rawLessons.map(l => ({...l, id:
    generateUniqueId()})) : []].  The callback is the one of
    [assignIdsToBlocks]; only an array has a [map] method. *)
Definition lessons_apiCall : M (list json) :=
  let* text := generateContent in
  let* rawLessons := lift (parseJsonResponse text) in
  if truthy_result rawLessons then
    match rawLessons with
    | Some (JArr lessons) => mapM with_block_id lessons
    | _ => throw TypeError
    end
  else ret [].

Definition analyzeChapterForLessons (chapterText : jsstring) (chapter : Chapter)
    : M (option (list json)) :=
  let* _ := getAi in
  try_catch
    (let* lessons := callApiWithRetry lessons_apiCall 3 in ret (Some lessons))
    (fun _ => ret None).

(** *** [generateMoreQuestions] *)

(** The closure [apiCall]: [rawBlocks ? assignIdsToBlocks(rawBlocks) : null]. *)
Definition more_questions_apiCall : M (option (list json)) :=
  let* text := generateContent in
  let* rawBlocks := lift (parseJsonResponse text) in
  match rawBlocks with
  | Some v =>
      if truthy v then (let* blocks := assignIdsToBlocks v in ret (Some blocks))
      else ret None
  | None => ret None
  end.

Definition generateMoreQuestions (lessonText : jsstring)
    (existingQuestions : list InteractiveBlock) : M (option (list json)) :=
  let* _ := getAi in
  try_catch (callApiWithRetry more_questions_apiCall 3) (fun _ => ret None).

(** *** [getAiCorrections], [searchWithinDocument] and [categorizeBooks] *)

(** The closure [apiCall] of the three functions, which differ by the
    request only: [return parseJsonResponse(response.text)]. *)
Definition decode_apiCall : M (option json) :=
  let* text := generateContent in
  lift (parseJsonResponse text).

Definition getAiCorrections (incorrectAnswers : list Incorrect.t) : M (option json) :=
  let* _ := getAi in
  if (length incorrectAnswers =? 0)%nat then ret (Some (JArr []))
  else try_catch (callApiWithRetry decode_apiCall 3) (fun _ => ret None).

Definition searchWithinDocument (context query : jsstring) : M (option json) :=
  let* _ := getAi in
  try_catch (callApiWithRetry decode_apiCall 3) (fun _ => ret None).

Definition categorizeBooks (bookTitles : list Book.t) : M (option json) :=
  let* _ := getAi in
  if (length bookTitles =? 0)%nat then ret (Some (JArr []))
  else try_catch (callApiWithRetry decode_apiCall 3) (fun _ => ret None).

(** *** [getDeeperExplanation] and [extractTextFromImage]

    Both closures return [response.text] as it is: [None] is
    [undefined]. *)

Definition getDeeperExplanation (text : jsstring) : M (option jsstring) :=
  let* _ := getAi in
  try_catch (callApiWithRetry generateContent 3)
    (fun _ => ret (Some (str "Sorry, an error occurred while trying to get an additional explanation."))).

(** The outer [None] is the [null] returned after a failure. *)
Definition extractTextFromImage (base64Image mimeType : jsstring)
    : M (option (option jsstring)) :=
  let* _ := getAi in
  try_catch
    (let* response_text := callApiWithRetry generateContent 3 in ret (Some response_text))
    (fun _ => ret None).

(** *** [searchForMaterials] *)

(** The predicate of the first [filter]. *)
Definition is_source_line (line : jsstring) : bool :=
  includes (str " - ") line
  && (starts_with (str "http://") line || starts_with (str "https://") line).

(** The callback of the second [map].  [parts[0]] of an empty array
    would be [undefined], and [undefined.trim()] raises. *)
Definition source_of_line (line : jsstring) : M Source.t :=
  match split (str " - ") line with
  | [] => throw TypeError
  | part0 :: rest =>
      ret {| Source.uri := trim part0; Source.title := trim (join (str " - ") rest) |}
  end.

(** The predicate of the second [filter]: [!!source.uri && !!source.title]. *)
Definition has_uri_and_title (source : Source.t) : bool :=
  negb (bool_decide (Source.uri source = []))
  && negb (bool_decide (Source.title source = [])).

(** The closure [apiCall]; the result is the [sources] of the object it
    returns. *)
Definition search_apiCall : M (list Source.t) :=
  let* textResponse := generateContent in
  match textResponse with
  | None | Some [] => ret []
  | Some textResponse =>
      let lines := List.filter is_source_line (map trim (split [10%N] textResponse)) in
      let* sources := mapM source_of_line lines in
      ret (List.filter has_uri_and_title sources)
  end.

Definition safety_error : JsError :=
  {| message := str "Your search query was blocked by safety filters. Please try a different search term." |}.

Definition search_error : JsError :=
  {| message := str "An error occurred during the search. Please try again." |}.

Definition searchForMaterials (query filter : jsstring) : M (list Source.t) :=
  let* _ := getAi in
  try_catch (callApiWithRetry search_apiCall 3)
    (fun error =>
       if includes (str "SAFETY") (message error) then throw safety_error
       else throw search_error).

End Service.

(** ** Vocabulary of the properties *)

(** Worlds after one event. *)
Definition invoked (w : World) : World :=
  {| requests := requests w; ids := ids w; trace := trace w ++ [Invoke] |}.

Definition slept (ms : Z) (w : World) : World :=
  {| requests := requests w; ids := ids w; trace := trace w ++ [Sleep ms] |}.

Definition sent (w : World) : World :=
  {| requests := S (requests w); ids := ids w; trace := trace w ++ [Request] |}.

Definition drawn (n : nat) (w : World) : World :=
  {| requests := requests w; ids := (ids w + n)%nat; trace := trace w |}.

(** The clamping loop as a recursion on the list: every chapter but the
    last is compared with its successor. *)
Fixpoint clamp (l : list Raw.t) : list Raw.t :=
  match l with
  | c :: ((d :: _) as l') =>
      (if Raw.endPage c >=? Raw.startPage d
       then Raw.set_endPage c (Raw.startPage d - 1) else c) :: clamp l'
  | _ => l
  end.

(** The chapters [rawChapters.map(c => ({...c, id: generateUniqueId()}))]
    makes when [n] identifiers have been drawn before. *)
Fixpoint numbered (env : Env) (n : nat) (l : list Raw.t) : list Chapter :=
  match l with
  | [] => []
  | c :: l' =>
      {| id := fresh env n; title := Raw.title c;
         startPage := Raw.startPage c; endPage := Raw.endPage c |}
      :: numbered env (S n) l'
  end.

(** Pairwise order of page ranges. *)
Definition raw_before (a b : Raw.t) : Prop :=
  Raw.startPage a <= Raw.startPage b /\ Raw.endPage a < Raw.startPage b.

Definition before (a b : Chapter) : Prop :=
  startPage a <= startPage b /\ endPage a < startPage b.

(** The blocks [content.map(block => ({...block, id: generateUniqueId()}))]
    makes when [n] identifiers have been drawn before. *)
Fixpoint numbered_blocks (env : Env) (n : nat) (blocks : list json) : list json :=
  match blocks with
  | [] => []
  | block :: blocks' =>
      JObj (obj_set (str "id") (JStr (fresh env n)) (spread block))
      :: numbered_blocks env (S n) blocks'
  end.

(** The [type] property of a decoded element, as the spread copies it. *)
Definition raw_tag (block : json) : option json := obj_get (str "type") (spread block).

(** Every character a pattern can consume satisfies [P]. *)
Fixpoint consumes_only (P : N -> bool) (r : Regex.regex) : Prop :=
  match r with
  | Regex.Empty | Regex.End => True
  | Regex.Char c => P c = true
  | Regex.Class p | Regex.Star p | Regex.StarLazy p => forall c, p c = true -> P c = true
  | Regex.Seq a b => consumes_only P a /\ consumes_only P b
  | Regex.Opt a | Regex.Group _ a => consumes_only P a
  end.

Fixpoint group_free (r : Regex.regex) : bool :=
  match r with
  | Regex.Group _ _ => false
  | Regex.Seq a b => group_free a && group_free b
  | Regex.Opt a => group_free a
  | _ => true
  end.

(** The characters around the captured text of a fenced block. *)
Definition is_fence_head (c : N) : bool := N.eqb c (ch "`") || is_word c || is_space c.
Definition is_fence_tail (c : N) : bool := N.eqb c (ch "`") || is_space c.

(** The opening and the closing part of the fence pattern. *)
Definition fence_head : Regex.regex :=
  Regex.seq
    [ Regex.Char (ch "`"); Regex.Char (ch "`"); Regex.Char (ch "`");
      Regex.Opt (Regex.Group 1 (Regex.Star is_word));
      Regex.Star is_space;
      Regex.Opt (Regex.Char 10) ].

Definition fence_tail : Regex.regex :=
  Regex.seq
    [ Regex.Opt (Regex.Char 10);
      Regex.Star is_space;
      Regex.Char (ch "`"); Regex.Char (ch "`"); Regex.Char (ch "`") ].

(** *** Vocabulary of the round trip through JSON *)

(** A decimal representation without leading zero. *)
Definition well_led (u : Decimal.uint) : bool :=
  match u with
  | Decimal.Nil => false
  | Decimal.D0 Decimal.Nil => true
  | Decimal.D0 _ => false
  | _ => true
  end.

(** The text after a number: nothing, or a character that cannot
    continue it. *)
Definition number_end (rest : jsstring) : bool :=
  match rest with
  | [] => true
  | c :: _ => negb (is_digit c || N.eqb c 46 || N.eqb c 101 || N.eqb c 69)
  end.

(** The fuel a value needs. *)
Fixpoint size (v : json) : nat :=
  match v with
  | JArr l => S (list_sum (map (fun x => S (size x)) l))
  | JObj l => S (list_sum (map (fun kv => S (size (snd kv))) l))
  | _ => 1
  end.


Definition elems_size (l : list json) : nat := list_sum (map (fun x => S (size x)) l).

Definition members_size (l : list (jsstring * json)) : nat :=
  list_sum (map (fun kv => S (size (snd kv))) l).

(** The text of one member of an object. *)
Definition member_text (kv : jsstring * json) : jsstring :=
  quote (fst kv) ++ ch ":" :: stringify (snd kv).

(** The first character of a value. *)
Definition value_start (c : N) : bool :=
  is_digit c || N.eqb c 45 || N.eqb c 34 || N.eqb c 91 || N.eqb c 123
  || N.eqb c 110 || N.eqb c 116 || N.eqb c 102.

(** The synthetic whole-document chapter. *)
Definition whole_document (env : Env) (n : nat) (totalPages : Z) : Chapter :=
  {| id := fresh env n; title := str "Full Document"; startPage := 1; endPage := totalPages |}.

(** The client is usable: [getAi] returns it. *)
Definition initialized (env : Env) : Prop :=
  aiInitializationError env = None /\ ai env = true.

Definition is_invoke (ev : event) : bool :=
  match ev with Invoke => true | _ => false end.

Definition is_request (ev : event) : bool :=
  match ev with Request => true | _ => false end.

(** Number of invocations of the wrapped operation in a trace. *)
Definition invocations (t : list event) : nat := length (List.filter is_invoke t).

(** Number of requests sent to the remote model in a trace. *)
Definition requests_sent (t : list event) : nat := length (List.filter is_request t).

(** The pauses of a trace, in order. *)
Fixpoint delays (t : list event) : list Z :=
  match t with
  | [] => []
  | Sleep ms :: t' => ms :: delays t'
  | _ :: t' => delays t'
  end.

Fixpoint strictly_increasing (l : list Z) : Prop :=
  match l with
  | a :: (b :: _) as l' => a < b /\ strictly_increasing l'
  | _ => True
  end.


(** A transient server fault, as the remote service reports it: the
    message of the error carries the signature of an internal error of
    the 5xx class. *)
Definition transient_fault (e : JsError) : Prop :=
  exists before after, message e = before ++ str "500 INTERNAL" ++ after.



(** Properties of a chapter list. *)
Fixpoint sorted_by_startPage (l : list Chapter) : Prop :=
  match l with
  | a :: (b :: _) as l' => startPage a <= startPage b /\ sorted_by_startPage l'
  | _ => True
  end.

Fixpoint no_overlap (l : list Chapter) : Prop :=
  match l with
  | a :: (b :: _) as l' => endPage a < startPage b /\ no_overlap l'
  | _ => True
  end.

Definition last_endPage (l : list Chapter) : option Z := endPage <$> list.last l.

Fixpoint raw_starts_sorted (l : list Raw.t) : Prop :=
  match l with
  | a :: (b :: _) as l' => Raw.startPage a <= Raw.startPage b /\ raw_starts_sorted l'
  | _ => True
  end.

(** A value [JSON.stringify] and [JSON.parse] exchange without loss in
    this model: no floating-point literal, and no two properties of an
    object with the same name. *)
Fixpoint plain (v : json) : bool :=
  match v with
  | JNull | JBool _ | JNum _ | JStr _ => true
  | JFloat _ => false
  | JArr l => forallb plain l
  | JObj l => bool_decide (NoDup (map fst l)) && forallb (fun kv => plain (snd kv)) l
  end.

(** Every number of the value is an integer that a JavaScript number
    holds exactly: no fraction, no exponent, a magnitude of 2^53 - 1 at
    most (negative zero, which a [Z] does not have, is no such number). *)
Fixpoint safe_numbers (v : json) : bool :=
  match v with
  | JNull | JBool _ | JStr _ => true
  | JNum z => Z.abs z <=? 9007199254740991
  | JFloat _ => false
  | JArr l => forallb safe_numbers l
  | JObj l => forallb (fun kv => safe_numbers (snd kv)) l
  end.

Definition is_container (v : json) : bool :=
  match v with
  | JArr _ | JObj _ => true
  | _ => false
  end.

Definition is_opener (c : N) : bool := N.eqb c (ch "{") || N.eqb c (ch "[").

(** A comma followed, after optional white space, by a closing brace or
    bracket somewhere in the text. *)
Fixpoint has_trailing_comma (s : jsstring) : bool :=
  match s with
  | [] => false
  | c :: s' =>
      (N.eqb c (ch ",") &&
       match drop_while is_space s' with
       | d :: _ => is_closer d
       | [] => false
       end)
      || has_trailing_comma s'
  end.

(** A markdown fence around a text, with a language tag. *)
Definition fenced (tag body : jsstring) : jsstring :=
  str "```" ++ tag ++ [10%N] ++ body ++ [10%N] ++ str "```".

(** ** Scenarios

    Environments and inputs on which the statements are exercised. *)

Definition error_500 : JsError :=
  {| message := str "got status: 500 INTERNAL. The service is currently unavailable." |}.

Definition error_400 : JsError :=
  {| message := str "got status: 400 INVALID_ARGUMENT. API key not valid." |}.

(** A usable client whose [k]-th request is answered by the [k]-th
    element of [script], and by [otherwise] once the script is over. *)
Definition scripted (script : list (outcome (option jsstring)))
    (otherwise : outcome (option jsstring)) : Env :=
  {| aiInitializationError := None;
     ai := true;
     remote := fun k => nth k script otherwise;
     fresh := fun k => str "id-" ++ string_of_Z (Z.of_nat k);
     untyped_chapters := fun _ n => (Throw TypeError, n) |}.

(** The module as it is when the constructor of the client has thrown. *)
Definition uninitialized : Env :=
  {| aiInitializationError := Some {| message := str "An API Key must be set when running in a browser" |};
     ai := false;
     remote := fun _ => Throw error_500;
     fresh := fun k => str "id-" ++ string_of_Z (Z.of_nat k);
     untyped_chapters := fun _ n => (Throw TypeError, n) |}.

Definition answers (texts : list jsstring) : list (outcome (option jsstring)) :=
  map (fun t => Ret (Some t)) texts.

Definition pages_of (n : nat) : list PageText :=
  map (fun i => {| pageNumber := Z.of_nat i; text := str "text" |}) (seq 1 n).

Definition reply (t : string) : outcome (option jsstring) := Ret (Some (qstr t)).

(** Ten pages; the model lists a chapter beyond the last page between
    two chapters in the wrong order, and one more beyond the last page. *)
Definition disordered_outline : Env :=
  scripted
    [reply "[{'title':'A','startPage':5,'endPage':6},{'title':'B','startPage':20,'endPage':25},{'title':'C','startPage':1,'endPage':7},{'title':'D','startPage':30,'endPage':40}]"]
    (Throw error_500).

(** The scenario of section 8 of the specification. *)
Definition overlapping_outline : Env :=
  scripted
    [reply "[{'title':'Ch1','startPage':1,'endPage':5},{'title':'Ch2','startPage':4,'endPage':10}]"]
    (Throw error_500).

(** Five pages; the model numbers the pages from zero. *)
Definition zero_based_outline : Env :=
  scripted [reply "[{'title':'Intro','startPage':0,'endPage':3}]"] (Throw error_500).

(** A batch of questions, and a lesson, with a block of a kind the
    content model does not know. *)
Definition image_question : Env :=
  scripted
    [reply "[{'type':'image','url':'x'},{'type':'open_ended_question','question':'Why?'}]"]
    (Throw error_500).

Definition image_lesson : Env :=
  scripted
    [reply "{'title':'T','content':[{'type':'explanation','text':'t'},{'type':'image','url':'x'}]}"]
    (Throw error_500).

(** A lesson with one explanation and one multiple-choice question. *)
Definition sample_blocks : list InteractiveBlock :=
  [ ExplanationBlock (str "b1") (str "Cells divide.");
    MultipleChoiceQuestionBlock (str "b2") (str "How do cells multiply?")
      [str "fusion"; str "magic"; str "division"] 2 ].

(** An answer to the question, one to the explanation, one to nothing. *)
Definition sample_answers : list UserAnswer :=
  [ {| questionId := str "b2"; answer := AnswerNumber 1 |};
    {| questionId := str "b1"; answer := AnswerString (str "yes") |};
    {| questionId := str "zz"; answer := AnswerBoolean true |} ].

Definition stray_answers : list UserAnswer :=
  [ {| questionId := str "b1"; answer := AnswerString (str "yes") |};
    {| questionId := str "zz"; answer := AnswerBoolean true |} ].

(** A value with quotes, brackets and commas inside a string, and the
    prose and fence put around its serialization. *)
Definition sample_outline : json :=
  JArr [ JObj [ (str "title", JStr (qstr "The 'first' chapter, [sic]"));
                (str "startPage", JNum 1); (str "endPage", JNum 5) ];
         JObj [ (str "title", JStr (str "Ch2")); (str "startPage", JNum 6);
                (str "tags", JArr [JStr (str "a"); JBool true; JNull; JNum (-3)]) ] ].




Definition refusals : Env :=
  scripted (answers [str "I cannot help with that."; str "Sorry, no questions.";
                     str "Still nothing"])
           (Throw error_500).

(** *** Vocabulary of the further properties *)

(** The computation returns normally. *)
Definition returns {A} (m : M A) (w : World) : Prop :=
  exists r w', m w = (Ret r, w').

(** The operation sends exactly one request, whatever else it does. *)
Definition single_request {T} (apiCall : M T) : Prop :=
  forall w, requests (snd (apiCall w)) = S (requests w).

(** The [k] requests that follow those of [w] fail with a transient
    server fault. *)
Definition transient_failures (env : Env) (w : World) (k : nat) : Prop :=
  forall i, (i < k)%nat ->
    exists e, remote env (requests w + i) = Throw e /\ transient_fault e.

(** The pauses of the retry wrapper before its [k+1]-th invocation. *)
Definition backoff (k : nat) : list Z := map (fun i => 1000 * Z.of_nat i) (seq 1 k).


(** The computation sends no request. *)
Definition offline {A} (m : M A) : Prop :=
  forall w, requests (snd (m w)) = requests w.

(** The computation sends at most [n] requests. *)
Definition within_budget {A} (m : M A) (n : nat) : Prop :=
  forall w, (requests (snd (m w)) <= requests w + n)%nat.

(** *** Vocabulary of [parseJsonResponse] *)

Definition is_bracket (c : N) : bool := is_opener c || is_closer c.

(** Lines 61-64: the text kept once the fence, if there is one, has been
    taken off. *)
Definition unfence (jsonStr : jsstring) : jsstring :=
  match fenceMatch jsonStr with
  | Some m =>
      match Regex.capture 2 m with
      | Some ((_ :: _) as inner) => trim inner
      | _ => jsonStr
      end
  | None => jsonStr
  end.

(** Lines 67-96: the text from the first opening brace or bracket to the
    last closing one, [None] when the function returns [null] there. *)
Definition payload (jsonStr : jsstring) : option jsstring :=
  let firstBracket := indexOf (ch "[") jsonStr in
  let firstBrace := indexOf (ch "{") jsonStr in
  let start :=
    if firstBracket =? -1 then firstBrace
    else if firstBrace =? -1 then firstBracket
    else Z.min firstBracket firstBrace in
  if start =? -1 then None
  else
    let lastBracket := lastIndexOf (ch "]") jsonStr in
    let lastBrace := lastIndexOf (ch "}") jsonStr in
    let end_ := Z.max lastBracket lastBrace in
    if end_ =? -1 then None
    else Some (substring start (end_ + 1) jsonStr).

(** What identifies a chapter for the reader: its title and the page
    it starts on. *)
Definition raw_heading (c : Raw.t) : jsstring * Z := (Raw.title c, Raw.startPage c).

Definition heading (c : Chapter) : jsstring * Z := (title c, startPage c).

(** A chapter that starts inside the document and does not end before
    it starts. *)
Definition in_document (totalPages : Z) (c : Chapter) : Prop :=
  0 < startPage c <= totalPages /\ startPage c <= endPage c.

(** The blocks a response provides: the elements of the array it
    decodes to, if it arrives and decodes to an array. *)
Definition blocks_of (response : outcome (option jsstring)) : option (list json) :=
  match response with
  | Ret text =>
      match parseJsonResponse text with
      | Ret (Some (JArr blocks)) => Some blocks
      | _ => None
      end
  | Throw _ => None
  end.

(** The [k] requests that follow those of [w] provide no blocks. *)
Definition no_blocks (env : Env) (w : World) (k : nat) : Prop :=
  forall i, (i < k)%nat -> blocks_of (remote env (requests w + i)) = None.

(** The [questionId] of a decoded feedback entry, when it is a string. *)
Definition entry_id (fb : json) : option jsstring :=
  match fb with
  | JObj l =>
      match obj_get (str "questionId") l with
      | Some (JStr i) => Some i
      | _ => None
      end
  | _ => None
  end.

(** A source as the search panel expects it: a web address, with a
    description. *)
Definition well_formed_source (source : Source.t) : Prop :=
  (starts_with (str "http://") (Source.uri source)
   || starts_with (str "https://") (Source.uri source)) = true /\
  Source.title source <> [].

(** The message of the error has the text somewhere. *)
Definition mentions (needle : jsstring) (e : JsError) : Prop :=
  exists before after, message e = before ++ needle ++ after.

(** ** Further scenarios *)

(** Two transient faults, then an answer. *)
Definition flaky : Env :=
  scripted [Throw error_500; Throw error_500; Ret (Some (str "An analogy: ..."))]
    (Throw error_500).

(** Arguments for the functions that take structured ones. *)
Definition sample_chapter : Chapter :=
  {| id := str "c1"; title := str "Cells"; startPage := 1; endPage := 4 |}.

Definition sample_incorrect : list Incorrect.t :=
  [ {| Incorrect.questionId := str "b2"; Incorrect.question := str "How do cells multiply?";
       Incorrect.userAnswer := str "magic" |} ].

Definition sample_books : list Book.t :=
  [ {| Book.id := str "k1"; Book.name := str "SICP" |} ].

(** A response in a fence, between two sentences. *)
Definition chatty_intro : jsstring := str "Sure, here it is: ```json" ++ [10%N].

Definition chatty_outro : jsstring := [10%N] ++ str "``` Anything else?".

(** A permanent fault, a refusal, then a batch of one question. *)
Definition third_time_lucky : Env :=
  scripted [Throw error_400; Ret (Some (str "I would rather not."));
            reply "[{'type':'open_ended_question','question':'Why?'}]"]
    (Throw error_500).

(** Nothing usable, in three different ways. *)
Definition hopeless : Env :=
  scripted [Throw error_400; Ret (Some (str "I would rather not.")); reply "{'questions':[]}"]
    (Throw error_500).

(** An object where an array is expected. *)
Definition wrapped_lessons : Env :=
  scripted [reply "{'lessons':[{'title':'L1','startPage':1,'endPage':2}]}"] (Throw error_500).

(** Feedback for the question asked and for one that was not. *)
Definition zealous_grader : Env :=
  scripted
    [reply "[{'questionId':'b2','isCorrect':false,'explanation':'No.'},{'questionId':'b9','isCorrect':true,'explanation':'Yes.'}]"]
    (Throw error_500).

(** A list of links, with a sentence before and a malformed line. *)
Definition search_results : Env :=
  scripted
    [Ret (Some (str "Here are some links:" ++ [10%N]
                ++ str "  https://example.edu/physics - Physics - the basics  " ++ [10%N]
                ++ str "ftp://example.org/file - An archive" ++ [10%N]
                ++ str "http://example.org/video -no description"))]
    (Throw error_500).

(** A request refused for safety reasons. *)
Definition blocked_search : Env :=
  scripted [] (Throw {| message := str "Candidate was blocked due to SAFETY" |}).

(* ================================================================== *)
(** * Part II. Properties                                              *)
(* ================================================================== *)

(** ** The monad *)

Lemma bind_ret_l {A B} (a : A) (f : A -> M B) w : bind (ret a) f w = f a w.
Proof. reflexivity. Qed.

Lemma bind_Ret {A B} (m : M A) (f : A -> M B) w a w' :
  m w = (Ret a, w') -> bind m f w = f a w'.
Proof. intros H. unfold bind. by rewrite H. Qed.

Lemma bind_Throw {A B} (m : M A) (f : A -> M B) w e w' :
  m w = (Throw e, w') -> bind m f w = (Throw e, w').
Proof. intros H. unfold bind. by rewrite H. Qed.

Lemma try_catch_Ret {A} (m : M A) h w a w' :
  m w = (Ret a, w') -> try_catch m h w = (Ret a, w').
Proof. intros H. unfold try_catch. by rewrite H. Qed.

Lemma try_catch_Throw {A} (m : M A) h w e w' :
  m w = (Throw e, w') -> try_catch m h w = h e w'.
Proof. intros H. unfold try_catch. by rewrite H. Qed.

Lemma getAi_initialized env w : initialized env -> getAi env w = (Ret tt, w).
Proof. intros [H1 H2]. unfold getAi. by rewrite H1, H2. Qed.

(** ** Traces *)



Lemma requests_sent_app t1 t2 :
  requests_sent (t1 ++ t2) = (requests_sent t1 + requests_sent t2)%nat.
Proof. unfold requests_sent. by rewrite List.filter_app, length_app. Qed.



(** ** Transient faults *)

Lemma starts_with_app p s : starts_with p (p ++ s) = true.
Proof. induction p as [|c p IH]; [done|]. simpl. by rewrite N.eqb_refl. Qed.

Lemma starts_with_prefix p s : starts_with p s = true -> exists r, s = p ++ r.
Proof.
  revert s. induction p as [|c p IH]; intros s; [by exists s|].
  destruct s as [|d s]; [done|]. simpl.
  intros [Hc Hp]%andb_true_iff. apply N.eqb_eq in Hc as ->.
  destruct (IH s Hp) as [r ->]. by exists r.
Qed.

(** [includes] finds a needle exactly when the text has it somewhere. *)
Lemma includes_spec needle s :
  includes needle s = true <-> exists before after, s = before ++ needle ++ after.
Proof.
  split.
  - induction s as [|c s IH]; simpl.
    + rewrite orb_false_r. intros [r Hr]%starts_with_prefix. by exists [], r.
    + intros [H|H]%orb_true_iff.
      * apply starts_with_prefix in H as [r Hr]. by exists [], r.
      * destruct (IH H) as (b & a & ->). by exists (c :: b), a.
  - intros (b & a & ->). induction b as [|c b IH].
    + simpl. destruct (needle ++ a) eqn:E; simpl; rewrite <- E, starts_with_app; done.
    + simpl. rewrite IH. apply orb_true_r.
Qed.

(** The classification made by the retry wrapper agrees with the
    signature. *)
Lemma isServerError_spec e : isServerError e = true <-> transient_fault e.
Proof.
  unfold isServerError, transient_fault. rewrite andb_true_iff, includes_spec.
  split; [by intros [_ H]|]. intros (b & a & H). split; [|by exists b, a].
  apply negb_true_iff, bool_decide_eq_false. rewrite H. by destruct b.
Qed.


(** ** [callApiWithRetry] *)

Section Retry.

Context {T : Type}.
Variable apiCall : M T.
Variable maxRetries : Z.

(** One iteration of the loop, unfolded. *)
Lemma retry_loop_step fuel attempt w :
  attempt < maxRetries ->
  retry_loop apiCall maxRetries (S fuel) attempt w =
    match apiCall (invoked w) with
    | (Ret v, w1) => (Ret v, w1)
    | (Throw error, w1) =>
        if isServerError error && (attempt + 1 <? maxRetries)
        then retry_loop apiCall maxRetries fuel (attempt + 1) (slept (1000 * (attempt + 1)) w1)
        else (Throw error, w1)
    end.
Proof.
  intros Hlt. simpl. apply Z.ltb_lt in Hlt. rewrite Hlt.
  unfold try_catch, bind, emit. simpl. fold (invoked w).
  destruct (apiCall (invoked w)) as [[v|error] w1]; [done|].
  destruct (isServerError error && (attempt + 1 <? maxRetries)); done.
Qed.

(** The fuel handed over by [callApiWithRetry] runs out exactly when the
    guard of the [while] loop fails. *)
Lemma retry_loop_exit fuel attempt w :
  maxRetries <= attempt ->
  retry_loop apiCall maxRetries fuel attempt w = (Throw max_retries_error, w).
Proof.
  intros Hge. destruct fuel; [done|]. simpl.
  assert ((attempt <? maxRetries) = false) as Hguard by lia.
  rewrite Hguard. done.
Qed.

Lemma retry_loop_more_fuel fuel extra attempt w :
  (Z.to_nat (maxRetries - attempt) <= fuel)%nat ->
  retry_loop apiCall maxRetries (fuel + extra) attempt w =
  retry_loop apiCall maxRetries fuel attempt w.
Proof.
  revert attempt w. induction fuel as [|fuel IH]; intros attempt w Hfuel.
  - rewrite !retry_loop_exit by lia. done.
  - destruct (Z.lt_ge_cases attempt maxRetries) as [Hlt|Hge].
    + change (S fuel + extra)%nat with (S (fuel + extra)).
      rewrite !retry_loop_step by done.
      destruct (apiCall (invoked w)) as [[v|error] w1]; [done|].
      destruct (isServerError error && (attempt + 1 <? maxRetries)); [|done].
      apply IH. lia.
    + rewrite !retry_loop_exit by lia. done.
Qed.

(** The result of the loop is the result of one of the invocations. *)
Lemma retry_loop_result fuel attempt w :
  attempt < maxRetries ->
  (Z.to_nat (maxRetries - attempt) <= fuel)%nat ->
  exists w0, retry_loop apiCall maxRetries fuel attempt w = apiCall (invoked w0).
Proof.
  revert attempt w. induction fuel as [|fuel IH]; intros attempt w Hlt Hfuel; [lia|].
  rewrite retry_loop_step by done.
  destruct (apiCall (invoked w)) as [[v|error] w1] eqn:Hcall; [by exists w|].
  destruct (isServerError error && (attempt + 1 <? maxRetries)) eqn:Hretry.
  - apply andb_true_iff in Hretry as [_ Hlt'%Z.ltb_lt].
    apply IH; lia.
  - by exists w.
Qed.





End Retry.


(** C9.  For [maxRetries >= 1] the outcome of [callApiWithRetry], value
    or error, is the outcome of one of the invocations of the wrapped
    operation: the error raised after the loop is never the result. *)
Theorem callApiWithRetry_result {T} (apiCall : M T) (maxRetries : Z) (w : World) :
  1 <= maxRetries ->
  exists w0, callApiWithRetry apiCall maxRetries w = apiCall (invoked w0).
Proof.
  intros Hmax. unfold callApiWithRetry.
  apply retry_loop_result; lia.
Qed.

(** Without any attempt allowed, the error raised after the loop is the
    result, and the operation is not invoked. *)
Lemma callApiWithRetry_no_attempt {T} (apiCall : M T) (maxRetries : Z) (w : World) :
  maxRetries <= 0 ->
  callApiWithRetry apiCall maxRetries w = (Throw max_retries_error, w).
Proof. intros Hmax. unfold callApiWithRetry. apply retry_loop_exit. lia. Qed.

(** ** Witnesses for the retry wrapper *)



Lemma callApiWithRetry_result_witness :
  1 <= 3 /\
  exists w0,
    callApiWithRetry (generateContent (scripted [] (Throw error_400))) 3 initial_world
    = generateContent (scripted [] (Throw error_400)) (invoked w0).
Proof.
  split; [lia|].
  apply (callApiWithRetry_result (generateContent (scripted [] (Throw error_400))) 3
           initial_world).
  lia.
Defined.

(** The two runs of the specification, evaluated. *)
Example three_transient_failures :
  let r := callApiWithRetry (generateContent (scripted [] (Throw error_500))) 3 initial_world in
  fst r = Throw error_500 /\
  trace (snd r) = [Invoke; Request; Sleep 1000; Invoke; Request; Sleep 2000; Invoke; Request].
Proof. vm_compute. done. Qed.

Example one_permanent_failure :
  let r := callApiWithRetry (generateContent (scripted [] (Throw error_400))) 3 initial_world in
  fst r = Throw error_400 /\ trace (snd r) = [Invoke; Request].
Proof. vm_compute. done. Qed.

(** ** [generateInitialQuestions] on unparseable responses *)

Lemma questions_attempt_unparseable env w text :
  remote env (requests w) = Ret text ->
  parseJsonResponse text = Ret None ->
  questions_attempt env w = (Ret None, sent w).
Proof.
  intros Hremote Hparse.
  unfold questions_attempt, try_catch, bind, generateContent, lift.
  by rewrite Hremote, Hparse.
Qed.

(** C7.  When the three responses it receives are unparseable,
    [generateInitialQuestions] returns [null] without raising, after
    exactly three requests separated by pauses of 500 and then 1000
    milliseconds. *)
Theorem generateInitialQuestions_unparseable env lessonText w text0 text1 text2 :
  initialized env ->
  remote env (requests w) = Ret text0 ->
  remote env (S (requests w)) = Ret text1 ->
  remote env (S (S (requests w))) = Ret text2 ->
  parseJsonResponse text0 = Ret None ->
  parseJsonResponse text1 = Ret None ->
  parseJsonResponse text2 = Ret None ->
  exists w',
    generateInitialQuestions env lessonText w = (Ret None, w') /\
    trace w' = trace w ++ [Request; Sleep 500; Request; Sleep 1000; Request] /\
    requests w' = (requests w + 3)%nat /\
    requests_sent [Request; Sleep 500; Request; Sleep 1000; Request] = 3%nat /\
    strictly_increasing (delays [Request; Sleep 500; Request; Sleep 1000; Request]).
Proof.
  intros Hinit H0 H1 H2 P0 P1 P2.
  unfold generateInitialQuestions.
  rewrite (bind_Ret _ _ _ _ _ (getAi_initialized env w Hinit)).
  simpl questions_loop.
  rewrite (bind_Ret _ _ _ _ _ (questions_attempt_unparseable env w text0 H0 P0)).
  unfold bind at 1. simpl.
  erewrite bind_Ret; last by apply (questions_attempt_unparseable env _ text1).
  unfold bind at 1. simpl.
  erewrite bind_Ret; last by apply (questions_attempt_unparseable env _ text2).
  unfold bind, ret. simpl.
  eexists. split; [done|]. simpl. rewrite <- !app_assoc. simpl.
  repeat split; lia.
Qed.

Lemma generateInitialQuestions_unparseable_witness :
  initialized refusals /\
  exists w',
    generateInitialQuestions refusals (str "lesson") initial_world = (Ret None, w') /\
    trace w' = trace initial_world ++ [Request; Sleep 500; Request; Sleep 1000; Request] /\
    requests w' = (requests initial_world + 3)%nat /\
    requests_sent [Request; Sleep 500; Request; Sleep 1000; Request] = 3%nat /\
    strictly_increasing (delays [Request; Sleep 500; Request; Sleep 1000; Request]).
Proof.
  split; [done|].
  apply (generateInitialQuestions_unparseable refusals (str "lesson") initial_world
           (Some (str "I cannot help with that.")) (Some (str "Sorry, no questions."))
           (Some (str "Still nothing"))); try reflexivity.
  done.
Defined.

(** ** The reconciliation of page ranges *)

Lemma clamp_loop_clamp fuel pre l :
  (length l <= fuel)%nat ->
  clamp_loop fuel (length pre) (pre ++ l) = pre ++ clamp l.
Proof.
  revert pre l. induction fuel as [|fuel IH]; intros pre l Hfuel.
  { destruct l; [done|simpl in Hfuel; lia]. }
  destruct l as [|c [|d l]].
  - simpl. rewrite app_nil_r.
    destruct (Z.ltb_spec (Z.of_nat (length pre)) (Z.of_nat (length pre) - 1)); [lia|done].
  - cbn [clamp_loop clamp]. rewrite length_app. simpl length.
    destruct (Z.ltb_spec (Z.of_nat (length pre)) (Z.of_nat (length pre + 1) - 1)); [lia|done].
  - cbn [clamp_loop]. rewrite length_app. cbn [length].
    destruct (Z.ltb_spec (Z.of_nat (length pre))
                (Z.of_nat (length pre + S (S (length l))) - 1)); [|lia].
    rewrite (lookup_app_r pre) by lia. rewrite Nat.sub_diag. cbn [lookup list_lookup].
    rewrite (lookup_app_r pre) by lia.
    replace (S (length pre) - length pre)%nat with 1%nat by lia. cbn [lookup list_lookup].
    cbn [clamp].
    set (c' := if Raw.endPage c >=? Raw.startPage d
               then Raw.set_endPage c (Raw.startPage d - 1) else c).
    assert (Hupd : (if Raw.endPage c >=? Raw.startPage d
                    then <[length pre := Raw.set_endPage c (Raw.startPage d - 1)]> (pre ++ c :: d :: l)
                    else pre ++ c :: d :: l) = (pre ++ [c']) ++ d :: l).
    { subst c'. rewrite <- app_assoc. simpl. case_match; [|done].
      rewrite insert_app_r_alt by lia. by rewrite Nat.sub_diag. }
    rewrite Hupd.
    replace (S (length pre)) with (length (pre ++ [c'])) by (rewrite length_app; simpl; lia).
    rewrite IH by (simpl in *; lia).
    by rewrite <- app_assoc.
Qed.

Lemma clamp_loop_spec l : clamp_loop (length l) 0 l = clamp l.
Proof. apply (clamp_loop_clamp (length l) [] l). lia. Qed.

Lemma clamp_cons c d l :
  clamp (c :: d :: l) =
  (if Raw.endPage c >=? Raw.startPage d
   then Raw.set_endPage c (Raw.startPage d - 1) else c) :: clamp (d :: l).
Proof. reflexivity. Qed.

Lemma clamp_length l : length (clamp l) = length l.
Proof.
  induction l as [|c [|d l] IH]; [done|done|].
  rewrite clamp_cons. simpl length in *. by rewrite IH.
Qed.

Lemma clamp_starts l : map Raw.startPage (clamp l) = map Raw.startPage l.
Proof.
  induction l as [|c [|d l] IH]; [done|done|].
  rewrite clamp_cons.
  change (map Raw.startPage (c :: d :: l)) with (Raw.startPage c :: map Raw.startPage (d :: l)).
  rewrite <- IH. rewrite map_cons. f_equal. by case_match.
Qed.

Lemma raw_starts_sorted_Forall c l :
  raw_starts_sorted (c :: l) ->
  Forall (fun x => Raw.startPage c <= x) (map Raw.startPage l).
Proof.
  revert c. induction l as [|d l IH]; intros c Hs; [constructor|].
  destruct Hs as [Hcd Hs]. rewrite map_cons. constructor; [done|].
  specialize (IH d Hs).
  eapply Forall_impl; [|exact IH]. simpl. intros; lia.
Qed.

Lemma clamp_strongly_sorted l :
  raw_starts_sorted l -> StronglySorted raw_before (clamp l).
Proof.
  induction l as [|c [|d l] IH]; intros Hs.
  - constructor.
  - repeat constructor.
  - rewrite clamp_cons. destruct Hs as [Hcd Hs].
    constructor; [by apply IH|].
    pose proof (raw_starts_sorted_Forall d l Hs) as Hall.
    assert (Hall' : Forall (fun x => Raw.startPage d <= x) (map Raw.startPage (clamp (d :: l)))).
    { rewrite clamp_starts. simpl. constructor; [lia|done]. }
    rewrite Forall_map in Hall'.
    eapply Forall_impl; [|exact Hall'].
    intros x Hx. simpl in Hx. unfold raw_before.
    destruct (Z.geb_spec (Raw.endPage c) (Raw.startPage d)); simpl; lia.
Qed.

Lemma set_last_endPage_snoc totalPages l c :
  set_last_endPage totalPages (l ++ [c]) = l ++ [Raw.set_endPage c totalPages].
Proof.
  unfold set_last_endPage. rewrite length_app. simpl.
  replace (length l + 1 - 1)%nat with (length l) by lia.
  rewrite lookup_app_r by lia. rewrite Nat.sub_diag. simpl.
  rewrite insert_app_r_alt by lia. by rewrite Nat.sub_diag.
Qed.

Lemma strongly_sorted_snoc_start l c c' :
  Raw.startPage c' = Raw.startPage c ->
  StronglySorted raw_before (l ++ [c]) -> StronglySorted raw_before (l ++ [c']).
Proof.
  intros Hst. induction l as [|a l IH]; intros Hs; simpl in *.
  - repeat constructor.
  - apply StronglySorted_inv in Hs as [Hs Ha]. constructor; [by apply IH|].
    rewrite Forall_app in *. destruct Ha as [Ha1 Ha2]. split; [done|].
    apply Forall_singleton. rewrite Forall_singleton in Ha2.
    unfold raw_before in *. rewrite Hst. done.
Qed.

(** The shape of a non-empty list after reconciliation: the clamped
    chapters, the last of which ends on the last page. *)
Lemma reconcile_snoc totalPages l c :
  exists l' c',
    reconcile totalPages (l ++ [c]) = l' ++ [c'] /\
    length l' = length l /\
    Raw.startPage c' = Raw.startPage c /\ Raw.endPage c' = totalPages /\
    (raw_starts_sorted (l ++ [c]) -> StronglySorted raw_before (l' ++ [c'])).
Proof.
  unfold reconcile. rewrite clamp_loop_spec.
  pose proof (clamp_length (l ++ [c])) as Hlen.
  pose proof (clamp_starts (l ++ [c])) as Hst.
  destruct (clamp (l ++ [c])) as [|x xs] eqn:Hc using rev_ind.
  { rewrite length_app in Hlen. simpl in Hlen. lia. }
  clear IHxs. rename xs into l', x into c0.
  rewrite set_last_endPage_snoc.
  exists l', (Raw.set_endPage c0 totalPages).
  rewrite !map_app in Hst. simpl in Hst.
  apply app_inj_tail in Hst as [_ Hst].
  rewrite !length_app in Hlen. simpl in Hlen.
  repeat split; [lia|done|].
  intros Hs. apply (strongly_sorted_snoc_start l' c0); [done|].
  rewrite <- Hc. by apply clamp_strongly_sorted.
Qed.

(** ** Identifiers and the final filter *)

Lemma mapM_with_chapter_id env l w :
  mapM (with_chapter_id env) l w = (Ret (numbered env (ids w) l), drawn (length l) w).
Proof.
  revert w. induction l as [|c l IH]; intros w.
  - simpl. unfold ret, drawn. destruct w; simpl. by rewrite Nat.add_0_r.
  - cbn [mapM]. unfold bind at 1. unfold with_chapter_id at 1.
    unfold bind at 1, generateUniqueId at 1, ret at 1.
    unfold bind at 1. rewrite IH. unfold ret, drawn. simpl.
    do 2 f_equal. f_equal. lia.
Qed.

Lemma full_document_run env totalPages w :
  full_document env totalPages w = (Ret [whole_document env (ids w) totalPages], drawn 1 w).
Proof.
  unfold full_document, bind, generateUniqueId, ret, drawn, whole_document.
  do 2 f_equal. f_equal. lia.
Qed.

Lemma numbered_length env n l : length (numbered env n l) = length l.
Proof. revert n. induction l as [|c l IH]; intros n; simpl; [done|]. by rewrite IH. Qed.

Lemma numbered_app env n l1 l2 :
  numbered env n (l1 ++ l2) = numbered env n l1 ++ numbered env (n + length l1) l2.
Proof.
  revert n. induction l1 as [|c l1 IH]; intros n; simpl.
  - by rewrite Nat.add_0_r.
  - rewrite IH. do 3 f_equal. lia.
Qed.

Lemma numbered_before env n c l :
  Forall (raw_before c) l ->
  Forall (before {| id := fresh env n; title := Raw.title c;
                    startPage := Raw.startPage c; endPage := Raw.endPage c |})
         (numbered env (S n) l).
Proof.
  generalize (S n) as m. induction l as [|d l IH]; intros m Hall; simpl; [constructor|].
  inversion Hall as [|? ? Hd Hl]; subst. constructor; [exact Hd|]. by apply IH.
Qed.

Lemma numbered_strongly_sorted env n l :
  StronglySorted raw_before l -> StronglySorted before (numbered env n l).
Proof.
  revert n. induction l as [|c l IH]; intros n Hs; simpl; [constructor|].
  apply StronglySorted_inv in Hs as [Hs Hc].
  constructor; [by apply IH|]. by apply numbered_before.
Qed.

Lemma strongly_sorted_filter {A} (R : A -> A -> Prop) (f : A -> bool) l :
  StronglySorted R l -> StronglySorted R (List.filter f l).
Proof.
  induction l as [|a l IH]; intros Hs; simpl; [constructor|].
  apply StronglySorted_inv in Hs as [Hs Ha].
  destruct (f a); [|by apply IH].
  constructor; [by apply IH|].
  rewrite List.Forall_forall in *. intros x Hx.
  apply List.filter_In in Hx as [Hx _]. by apply Ha.
Qed.

Lemma strongly_sorted_adjacent l :
  StronglySorted before l -> sorted_by_startPage l /\ no_overlap l.
Proof.
  induction l as [|a [|b l] IH]; intros Hs; [done|done|].
  apply StronglySorted_inv in Hs as [Hs Ha].
  destruct (IH Hs) as [IH1 IH2].
  inversion Ha as [|? ? [Hab1 Hab2] _]; subst.
  split; split; done.
Qed.

Lemma last_endPage_snoc l c : last_endPage (l ++ [c]) = Some (endPage c).
Proof. unfold last_endPage. by rewrite last_snoc. Qed.

(** ** [analyzeDocumentStructure] *)

Lemma callApiWithRetry_first_success {T} (apiCall : M T) maxRetries w v w1 :
  1 <= maxRetries ->
  apiCall (invoked w) = (Ret v, w1) ->
  callApiWithRetry apiCall maxRetries w = (Ret v, w1).
Proof.
  intros Hmax Hcall. unfold callApiWithRetry.
  destruct (Z.to_nat maxRetries) as [|fuel] eqn:Hfuel; [lia|].
  rewrite retry_loop_step by lia. by rewrite Hcall.
Qed.

(** The run of the analyzer once the first response has been decoded. *)
Lemma analyzeDocumentStructure_decoded env pages w text rawChapters :
  initialized env ->
  remote env (requests w) = Ret text ->
  parseJsonResponse text = Ret rawChapters ->
  forall chapters w1,
  chapters_of_response env (Z.of_nat (length pages)) rawChapters (sent (invoked w))
    = (Ret chapters, w1) ->
  analyzeDocumentStructure env pages w = (Ret (Some chapters), w1).
Proof.
  intros Hinit Hremote Hparse chapters w1 Hrun.
  unfold analyzeDocumentStructure.
  rewrite (bind_Ret _ _ _ _ _ (getAi_initialized env w Hinit)).
  erewrite try_catch_Ret; [done|].
  erewrite bind_Ret; [done|].
  apply callApiWithRetry_first_success; [lia|].
  unfold analyze_apiCall.
  unfold bind at 1. unfold generateContent at 1. simpl. rewrite Hremote.
  unfold bind, lift. rewrite Hparse. exact Hrun.
Qed.

Lemma chapters_of_response_typed env totalPages v l rawChapters w :
  as_raw_chapters (v :: l) = Some rawChapters ->
  chapters_of_response env totalPages (Some (JArr (v :: l))) w =
    (Ret (List.filter (keep_chapter totalPages)
            (numbered env (ids w) (reconcile totalPages rawChapters))),
     drawn (length rawChapters) w).
Proof.
  intros Htyped. unfold chapters_of_response. rewrite Htyped.
  unfold bind. rewrite mapM_with_chapter_id. unfold ret. do 2 f_equal.
  unfold reconcile, set_last_endPage. rewrite clamp_loop_spec.
  destruct (clamp rawChapters !! _); [rewrite length_insert|]; apply clamp_length.
Qed.

(** C1 (as amended).  When the chapters decoded from the model are
    listed in the order of their start pages and the last of them starts
    inside the document, the array returned by
    [analyzeDocumentStructure] is sorted by [startPage], no chapter
    overlaps its successor, and the last chapter ends on the last page,
    whatever end pages the model gave. *)
Theorem analyzeDocumentStructure_reconciled env pages w text v l rawChapters c :
  initialized env ->
  remote env (requests w) = Ret text ->
  parseJsonResponse text = Ret (Some (JArr (v :: l))) ->
  as_raw_chapters (v :: l) = Some rawChapters ->
  raw_starts_sorted rawChapters ->
  list.last rawChapters = Some c ->
  0 < Raw.startPage c <= Z.of_nat (length pages) ->
  exists chapters w',
    analyzeDocumentStructure env pages w = (Ret (Some chapters), w') /\
    sorted_by_startPage chapters /\
    no_overlap chapters /\
    last_endPage chapters = Some (Z.of_nat (length pages)).
Proof.
  intros Hinit Hremote Hparse Htyped Hsorted Hlast Hstart.
  pose (totalPages := Z.of_nat (length pages)).
  eexists _, _. split.
  { eapply analyzeDocumentStructure_decoded; [done..|].
    by apply chapters_of_response_typed. }
  fold totalPages. fold totalPages in Hstart.
  apply last_Some in Hlast as [init ->].
  destruct (reconcile_snoc totalPages init c) as (l' & c' & -> & _ & Hs & He & Hss).
  specialize (Hss Hsorted).
  set (n := ids (sent (invoked w))).
  assert (Hord : StronglySorted before
                   (List.filter (keep_chapter totalPages) (numbered env n (l' ++ [c'])))).
  { by apply strongly_sorted_filter, numbered_strongly_sorted. }
  apply strongly_sorted_adjacent in Hord as [Hord1 Hord2].
  split; [done|]. split; [done|].
  rewrite numbered_app, List.filter_app. simpl.
  assert (Hkeep : keep_chapter totalPages
            {| id := fresh env (n + length l'); title := Raw.title c';
               startPage := Raw.startPage c'; endPage := Raw.endPage c' |} = true).
  { unfold keep_chapter. simpl. rewrite Hs, He. lia. }
  rewrite Hkeep, last_endPage_snoc. simpl. by rewrite He.
Qed.

Lemma analyzeDocumentStructure_reconciled_witness :
  exists (text : option jsstring) (v : json) (l : list json) (rawChapters : list Raw.t) (c : Raw.t),
  initialized overlapping_outline /\
  remote overlapping_outline (requests initial_world) = Ret text /\
  parseJsonResponse text = Ret (Some (JArr (v :: l))) /\
  as_raw_chapters (v :: l) = Some rawChapters /\
  raw_starts_sorted rawChapters /\
  list.last rawChapters = Some c /\
  0 < Raw.startPage c <= Z.of_nat (length (pages_of 10)) /\
  exists chapters w',
    analyzeDocumentStructure overlapping_outline (pages_of 10) initial_world
      = (Ret (Some chapters), w') /\
    sorted_by_startPage chapters /\
    no_overlap chapters /\
    last_endPage chapters = Some (Z.of_nat (length (pages_of 10))).
Proof.
  eexists _, _, _, _, _.
  assert (H1 : initialized overlapping_outline) by done.
  assert (H2 : remote overlapping_outline (requests initial_world)
               = Ret (Some (qstr "[{'title':'Ch1','startPage':1,'endPage':5},{'title':'Ch2','startPage':4,'endPage':10}]")))
    by reflexivity.
  split; [exact H1|]. split; [exact H2|].
  assert (H3 : parseJsonResponse (Some (qstr "[{'title':'Ch1','startPage':1,'endPage':5},{'title':'Ch2','startPage':4,'endPage':10}]"))
     = Ret (Some (JArr [JObj [(str "title", JStr (str "Ch1")); (str "startPage", JNum 1); (str "endPage", JNum 5)];
                        JObj [(str "title", JStr (str "Ch2")); (str "startPage", JNum 4); (str "endPage", JNum 10)]])))
    by (vm_compute; reflexivity).
  split; [exact H3|].
  assert (H4 : as_raw_chapters
     [JObj [(str "title", JStr (str "Ch1")); (str "startPage", JNum 1); (str "endPage", JNum 5)];
      JObj [(str "title", JStr (str "Ch2")); (str "startPage", JNum 4); (str "endPage", JNum 10)]]
     = Some [ {| Raw.title := str "Ch1"; Raw.startPage := 1; Raw.endPage := 5 |};
              {| Raw.title := str "Ch2"; Raw.startPage := 4; Raw.endPage := 10 |} ])
    by (vm_compute; reflexivity).
  split; [exact H4|].
  assert (H5 : raw_starts_sorted
     [ {| Raw.title := str "Ch1"; Raw.startPage := 1; Raw.endPage := 5 |};
       {| Raw.title := str "Ch2"; Raw.startPage := 4; Raw.endPage := 10 |} ])
    by (simpl; lia).
  split; [exact H5|].
  assert (H6 : list.last
     [ {| Raw.title := str "Ch1"; Raw.startPage := 1; Raw.endPage := 5 |};
       {| Raw.title := str "Ch2"; Raw.startPage := 4; Raw.endPage := 10 |} ]
     = Some {| Raw.title := str "Ch2"; Raw.startPage := 4; Raw.endPage := 10 |})
    by reflexivity.
  split; [exact H6|].
  assert (H7 : 0 < Raw.startPage {| Raw.title := str "Ch2"; Raw.startPage := 4; Raw.endPage := 10 |}
               <= Z.of_nat (length (pages_of 10))) by (simpl; lia).
  split; [exact H7|].
  exact (analyzeDocumentStructure_reconciled overlapping_outline (pages_of 10) initial_world
           _ _ _ _ _ H1 H2 H3 H4 H5 H6 H7).
Defined.

(** The scenario of the specification: the earlier chapter is shrunk
    and the last one ends on page 10. *)
Example overlapping_outline_run :
  fst (analyzeDocumentStructure overlapping_outline (pages_of 10) initial_world) =
  Ret (Some [ {| id := str "id-0"; title := str "Ch1"; startPage := 1; endPage := 3 |};
              {| id := str "id-1"; title := str "Ch2"; startPage := 4; endPage := 10 |} ]).
Proof. vm_compute. reflexivity. Qed.

(** C1, counterexample.  On ten pages and the outline A 5-6, B 20-25,
    C 1-7, D 30-40 the analyzer returns A 5-6, C 1-7: not sorted,
    overlapping, and ending on page 7. *)
Lemma analyzeDocumentStructure_not_reconciled :
  exists chapters w',
    analyzeDocumentStructure disordered_outline (pages_of 10) initial_world
      = (Ret (Some chapters), w') /\
    map (fun c => (startPage c, endPage c)) chapters = [(5, 6); (1, 7)] /\
    ~ sorted_by_startPage chapters /\
    ~ no_overlap chapters /\
    last_endPage chapters <> Some (Z.of_nat (length (pages_of 10))).
Proof.
  eexists _, _. split; [vm_compute; reflexivity|].
  split; [reflexivity|]. simpl.
  split; [lia|]. split; [lia|]. intros H. vm_compute in H. discriminate H.
Qed.

(** C6, the failing run.  On five pages and the single chapter Intro
    0-3 the filter drops the only chapter and no fallback applies: the
    analyzer returns an empty array. *)
Theorem analyzeDocumentStructure_empty_result :
  fst (analyzeDocumentStructure zero_based_outline (pages_of 5) initial_world) = Ret (Some []).
Proof. vm_compute. reflexivity. Qed.

(** The fallbacks of the analyzer: unparseable response, empty array,
    failure of the whole call. *)
Lemma analyzeDocumentStructure_unparseable env pages w text :
  initialized env ->
  remote env (requests w) = Ret text ->
  parseJsonResponse text = Ret None ->
  exists w',
    analyzeDocumentStructure env pages w =
    (Ret (Some [whole_document env (ids w) (Z.of_nat (length pages))]), w').
Proof.
  intros Hinit Hremote Hparse. eexists.
  eapply analyzeDocumentStructure_decoded; [done..|].
  simpl. by rewrite full_document_run.
Qed.

Lemma analyzeDocumentStructure_zero_chapters env pages w text :
  initialized env ->
  remote env (requests w) = Ret text ->
  parseJsonResponse text = Ret (Some (JArr [])) ->
  exists w',
    analyzeDocumentStructure env pages w =
    (Ret (Some [whole_document env (ids w) (Z.of_nat (length pages))]), w').
Proof.
  intros Hinit Hremote Hparse. eexists.
  eapply analyzeDocumentStructure_decoded; [done..|].
  simpl. by rewrite full_document_run.
Qed.

Lemma analyzeDocumentStructure_call_failed env pages w e w1 :
  initialized env ->
  callApiWithRetry (analyze_apiCall env (Z.of_nat (length pages))) 3 w = (Throw e, w1) ->
  analyzeDocumentStructure env pages w =
    (Ret (Some [whole_document env (ids w1) (Z.of_nat (length pages))]), drawn 1 w1).
Proof.
  intros Hinit Hcall. unfold analyzeDocumentStructure.
  rewrite (bind_Ret _ _ _ _ _ (getAi_initialized env w Hinit)).
  erewrite try_catch_Throw; last by erewrite bind_Throw.
  unfold bind. by rewrite full_document_run.
Qed.

(** C10.  With an initialised client, [analyzeDocumentStructure] returns
    a chapter array on every path: it neither returns [null] nor
    raises. *)
Theorem analyzeDocumentStructure_never_null env pages w :
  initialized env ->
  exists chapters w', analyzeDocumentStructure env pages w = (Ret (Some chapters), w').
Proof.
  intros Hinit. unfold analyzeDocumentStructure.
  rewrite (bind_Ret _ _ _ _ _ (getAi_initialized env w Hinit)).
  unfold try_catch, bind at 1.
  destruct (callApiWithRetry _ 3 w) as [[chapters|e] w1].
  - by eexists _, _.
  - unfold bind. rewrite full_document_run. by eexists _, _.
Qed.

Lemma analyzeDocumentStructure_never_null_witness :
  initialized refusals /\
  exists chapters w',
    analyzeDocumentStructure refusals (pages_of 3) initial_world = (Ret (Some chapters), w').
Proof.
  split; [done|].
  apply (analyzeDocumentStructure_never_null refusals (pages_of 3) initial_world).
  done.
Defined.

(** ** Interactive blocks *)

Lemma jsstring_eqb_eq a b : jsstring_eqb a b = true <-> a = b.
Proof. unfold jsstring_eqb. apply bool_decide_eq_true. Qed.

Lemma jsstring_eqb_neq a b : jsstring_eqb a b = false <-> a <> b.
Proof. unfold jsstring_eqb. apply bool_decide_eq_false. Qed.

Lemma obj_get_set_ne k k' v l :
  k <> k' -> obj_get k (obj_set k' v l) = obj_get k l.
Proof.
  intros Hne. apply not_eq_sym, jsstring_eqb_neq in Hne.
  induction l as [|[k0 v0] l IH]; simpl.
  - by rewrite Hne.
  - destruct (jsstring_eqb k0 k') eqn:Hk0; simpl.
    + apply jsstring_eqb_eq in Hk0 as ->. by rewrite Hne.
    + by rewrite IH.
Qed.

Lemma obj_get_set_eq k v l : obj_get k (obj_set k v l) = Some v.
Proof.
  induction l as [|[k0 v0] l IH]; simpl.
  - by rewrite (proj2 (jsstring_eqb_eq k k)).
  - destruct (jsstring_eqb k0 k) eqn:Hk0; simpl; by rewrite Hk0.
Qed.

Lemma mapM_with_block_id env blocks w :
  mapM (with_block_id env) blocks w =
  (Ret (numbered_blocks env (ids w) blocks), drawn (length blocks) w).
Proof.
  revert w. induction blocks as [|b blocks IH]; intros w.
  - simpl. unfold ret, drawn. destruct w; simpl. by rewrite Nat.add_0_r.
  - cbn [mapM]. unfold bind at 1. unfold with_block_id at 1.
    unfold bind at 1, generateUniqueId at 1, ret at 1.
    unfold bind at 1. rewrite IH. unfold ret, drawn. simpl.
    do 2 f_equal. f_equal. lia.
Qed.

Lemma numbered_blocks_length env n blocks :
  length (numbered_blocks env n blocks) = length blocks.
Proof. revert n. induction blocks as [|b l IH]; intros n; simpl; [done|]. by rewrite IH. Qed.

Lemma numbered_blocks_tags env n blocks :
  map block_tag (numbered_blocks env n blocks) = map raw_tag blocks.
Proof.
  revert n. induction blocks as [|b l IH]; intros n; simpl; [done|].
  rewrite IH. f_equal. unfold raw_tag. by apply obj_get_set_ne.
Qed.

(** C3 (as amended).  Normalisation gives every decoded block an
    identifier and drops none: the blocks returned by
    [generateInitialQuestions], and the content returned by
    [generateInteractiveLesson], are the decoded blocks in their order,
    each with the [type] tag it came with, known or not. *)
Theorem blocks_keep_their_tags env w text :
  initialized env ->
  remote env (requests w) = Ret text ->
  (forall blocks lessonText,
     parseJsonResponse text = Ret (Some (JArr blocks)) ->
     exists w',
       generateInitialQuestions env lessonText w
         = (Ret (Some (numbered_blocks env (ids w) blocks)), w')) /\
  (forall props blocks pdfText lessonPages,
     parseJsonResponse text = Ret (Some (JObj props)) ->
     obj_get (str "content") props = Some (JArr blocks) ->
     exists w',
       generateInteractiveLesson env pdfText lessonPages w
         = (Ret (Some (JObj (obj_set (str "content")
                               (JArr (numbered_blocks env (ids w) blocks))
                               (obj_set (str "id") (JStr (fresh env (ids w + length blocks)))
                                  props)))), w')) /\
  (forall blocks,
     length (numbered_blocks env (ids w) blocks) = length blocks /\
     map block_tag (numbered_blocks env (ids w) blocks) = map raw_tag blocks).
Proof.
  intros Hinit Hremote. split; [|split].
  - intros blocks lessonText Hparse. eexists.
    unfold generateInitialQuestions.
    rewrite (bind_Ret _ _ _ _ _ (getAi_initialized env w Hinit)).
    simpl questions_loop. unfold bind at 1.
    unfold questions_attempt, try_catch, bind at 1, generateContent at 1.
    rewrite Hremote. unfold bind at 1, lift at 1. rewrite Hparse. simpl.
    unfold bind at 1. rewrite mapM_with_block_id. reflexivity.
  - intros props blocks pdfText lessonPages Hparse Hcontent. eexists.
    unfold generateInteractiveLesson.
    rewrite (bind_Ret _ _ _ _ _ (getAi_initialized env w Hinit)).
    erewrite try_catch_Ret; [done|].
    apply callApiWithRetry_first_success; [lia|].
    unfold lesson_apiCall.
    unfold bind at 1, generateContent at 1. simpl. rewrite Hremote.
    unfold bind at 1, lift at 1. rewrite Hparse. simpl.
    unfold bind at 1, lift at 1. rewrite Hcontent. simpl.
    unfold bind at 1. rewrite mapM_with_block_id.
    unfold bind, generateUniqueId, ret. simpl. reflexivity.
  - intros blocks. split; [apply numbered_blocks_length|apply numbered_blocks_tags].
Qed.

Lemma blocks_keep_their_tags_witness :
  initialized image_question /\
  remote image_question (requests initial_world)
    = reply "[{'type':'image','url':'x'},{'type':'open_ended_question','question':'Why?'}]" /\
  (forall blocks lessonText,
     parseJsonResponse (Some (qstr "[{'type':'image','url':'x'},{'type':'open_ended_question','question':'Why?'}]"))
       = Ret (Some (JArr blocks)) ->
     exists w',
       generateInitialQuestions image_question lessonText initial_world
         = (Ret (Some (numbered_blocks image_question (ids initial_world) blocks)), w')).
Proof.
  split; [done|]. split; [reflexivity|].
  apply (blocks_keep_their_tags image_question initial_world
           (Some (qstr "[{'type':'image','url':'x'},{'type':'open_ended_question','question':'Why?'}]")));
    [done|reflexivity].
Defined.

(** C3, counterexample.  A decoded block tagged [image], which is none
    of the six known variants, is returned by [generateInitialQuestions]
    and is part of the content returned by [generateInteractiveLesson]. *)
Lemma unknown_tag_not_dropped :
  (exists blocks w' b,
     generateInitialQuestions image_question (str "lesson") initial_world
       = (Ret (Some blocks), w') /\
     In b blocks /\ block_tag b = Some (JStr (str "image")) /\ known_tag b = false) /\
  (exists props w' blocks b,
     generateInteractiveLesson image_lesson (str "pdf") (pages_of 2) initial_world
       = (Ret (Some (JObj props)), w') /\
     obj_get (str "content") props = Some (JArr blocks) /\
     In b blocks /\ block_tag b = Some (JStr (str "image")) /\ known_tag b = false).
Proof.
  split.
  - eexists _, _, _. split; [vm_compute; reflexivity|].
    split; [left; reflexivity|]. split; vm_compute; reflexivity.
  - eexists _, _, _, _. split; [vm_compute; reflexivity|].
    split; [vm_compute; reflexivity|].
    split; [right; left; reflexivity|]. split; vm_compute; reflexivity.
Qed.

(** ** [getFeedbackOnAnswers] *)

Lemma find_none_iff {A} (f : A -> bool) l :
  List.find f l = None <-> forall x, In x l -> f x = false.
Proof.
  split; [apply List.find_none|].
  induction l as [|a l IH]; intros H; simpl; [done|].
  rewrite (H a) by (by left). apply IH. intros x Hx. apply H. by right.
Qed.

(** An answer that resolves to no question block yields no pair. *)
Lemma qa_pair_unresolved allQuestions ua :
  (forall q, In q allQuestions -> block_id q = questionId ua ->
             endsWith (str "_question") (block_type q) = false) ->
  qa_pair allQuestions ua = None.
Proof.
  intros H. unfold qa_pair.
  destruct (List.find _ allQuestions) as [q|] eqn:Hfind; [|done].
  apply List.find_some in Hfind as [Hin Hid].
  apply jsstring_eqb_eq in Hid.
  by rewrite (H q Hin Hid).
Qed.

(** A pair comes from an answer that resolves to a question block. *)
Lemma qa_pair_resolved allQuestions ua p :
  qa_pair allQuestions ua = Some p ->
  pair_questionId p = questionId ua /\
  exists q, In q allQuestions /\ block_id q = questionId ua /\
            endsWith (str "_question") (block_type q) = true.
Proof.
  unfold qa_pair.
  destruct (List.find _ allQuestions) as [q|] eqn:Hfind; [|done].
  apply List.find_some in Hfind as [Hin Hid].
  apply jsstring_eqb_eq in Hid.
  destruct (endsWith (str "_question") (block_type q)) eqn:Htype; [|done].
  simpl. intros Hp. split.
  - destruct q; simpl in Hp; repeat case_match; simplify_eq; done.
  - by exists q.
Qed.

(** C8 (as amended).  With an initialised client: an answer whose
    [questionId] belongs to no block, or only to blocks whose type does
    not end in [_question], gives no pair, and every pair sent for
    grading comes from an answer resolved to a question block; when no
    pair is left the function returns the empty list and the world is
    unchanged (no request is sent); when the call fails after the
    retries it returns [null]. *)
Theorem getFeedbackOnAnswers_policy env userAnswers allQuestions w :
  initialized env ->
  (forall ua,
     In ua userAnswers ->
     (forall q, In q allQuestions -> block_id q = questionId ua ->
                endsWith (str "_question") (block_type q) = false) ->
     qa_pair allQuestions ua = None) /\
  (forall p,
     In p (qaPairsForAI userAnswers allQuestions) ->
     exists ua q,
       In ua userAnswers /\ pair_questionId p = questionId ua /\
       In q allQuestions /\ block_id q = questionId ua /\
       endsWith (str "_question") (block_type q) = true) /\
  (qaPairsForAI userAnswers allQuestions = [] ->
   getFeedbackOnAnswers env userAnswers allQuestions w = (Ret (Some []), w)) /\
  (forall e w1,
     qaPairsForAI userAnswers allQuestions <> [] ->
     callApiWithRetry (feedback_apiCall env (qaPairsForAI userAnswers allQuestions)) 3 w
       = (Throw e, w1) ->
     getFeedbackOnAnswers env userAnswers allQuestions w = (Ret None, w1)).
Proof.
  intros Hinit. repeat split.
  - intros ua _ H. by apply qa_pair_unresolved.
  - intros p Hp. unfold qaPairsForAI in Hp.
    apply list_elem_of_In, list_elem_of_omap in Hp as (ua & Hua & Hpair).
    apply qa_pair_resolved in Hpair as (Hid & q & Hq & Hqid & Htype).
    exists ua, q. by rewrite <- list_elem_of_In.
  - intros Hnone. unfold getFeedbackOnAnswers.
    rewrite (bind_Ret _ _ _ _ _ (getAi_initialized env w Hinit)).
    by rewrite Hnone.
  - intros e w1 Hsome Hcall. unfold getFeedbackOnAnswers.
    rewrite (bind_Ret _ _ _ _ _ (getAi_initialized env w Hinit)).
    destruct (qaPairsForAI userAnswers allQuestions) as [|p pairs]; [done|].
    simpl. by erewrite try_catch_Throw.
Qed.

Lemma getFeedbackOnAnswers_policy_witness :
  initialized refusals /\
  (qaPairsForAI stray_answers sample_blocks = [] ->
   getFeedbackOnAnswers refusals stray_answers sample_blocks initial_world
     = (Ret (Some []), initial_world)).
Proof.
  split; [done|].
  apply (getFeedbackOnAnswers_policy refusals stray_answers sample_blocks initial_world).
  done.
Defined.

(** The sample run: the answer to the explanation and the answer to an
    unknown block are dropped, the chosen option and the right option
    are spelled out. *)
Example sample_pairs :
  qaPairsForAI sample_answers sample_blocks =
  [ {| pair_questionId := str "b2"; pair_question := str "How do cells multiply?";
       pair_userAnswer := str "magic"; pair_correctAnswer := Some (str "division") |} ].
Proof. vm_compute. reflexivity. Qed.

(** When every request fails with a transient fault the function gives
    up after three requests and returns [null]. *)
Example feedback_hard_failure :
  let r := getFeedbackOnAnswers (scripted [] (Throw error_500)) sample_answers sample_blocks
             initial_world in
  fst r = Ret None /\ requests_sent (trace (snd r)) = 3%nat.
Proof. vm_compute. done. Qed.

(** C8, counterexample.  When the client could not be constructed,
    [getFeedbackOnAnswers] raises before it looks at the answers: with
    nothing gradable it does not return the empty list. *)
Lemma getFeedbackOnAnswers_uninitialized :
  qaPairsForAI [] [] = [] /\
  exists e,
    getFeedbackOnAnswers uninitialized [] [] initial_world = (Throw e, initial_world) /\
    fst (getFeedbackOnAnswers uninitialized [] [] initial_world) <> Ret (Some []).
Proof.
  split; [reflexivity|]. eexists. split; [vm_compute; reflexivity|].
  vm_compute. discriminate.
Qed.

(** ** Strings *)

Lemma forallb_drop_while P p s :
  forallb P s = true -> forallb P (drop_while p s) = true.
Proof.
  induction s as [|c s IH]; simpl; [done|].
  intros [Hc Hs]%andb_true_iff. destruct (p c); [by apply IH|].
  simpl. by rewrite Hc, Hs.
Qed.

Lemma forallb_rev {A} (P : A -> bool) (l : list A) : forallb P (rev l) = forallb P l.
Proof.
  induction l as [|a l IH]; simpl; [done|].
  rewrite forallb_app, IH. simpl. rewrite andb_true_r. apply andb_comm.
Qed.

Lemma forallb_trim P s : forallb P s = true -> forallb P (trim s) = true.
Proof.
  intros H. unfold trim, trimEnd, trimStart.
  rewrite forallb_rev. apply forallb_drop_while. rewrite forallb_rev.
  by apply forallb_drop_while.
Qed.

Lemma indexOf_absent c s :
  forallb (fun d => negb (N.eqb d c)) s = true -> indexOf c s = -1.
Proof.
  induction s as [|d s IH]; simpl; [done|].
  intros [Hd Hs]%andb_true_iff. apply negb_true_iff in Hd. rewrite Hd.
  by rewrite (IH Hs).
Qed.

(** ** The regular expressions *)

Lemma star_greedy_sound p k s r :
  Regex.star_greedy p k s = Some r ->
  exists a b, s = a ++ b /\ forallb p a = true /\ k b = Some r.
Proof.
  induction s as [|y s IH]; simpl; intros H.
  - by exists [], [].
  - destruct (p y) eqn:Hy; [|by exists [], (y :: s)].
    destruct (Regex.star_greedy p k s) as [r'|] eqn:Hstar.
    + destruct (IH H) as (a & b & -> & Ha & Hk).
      exists (y :: a), b. simpl. by rewrite Hy, Ha.
    + by exists [], (y :: s).
Qed.

Lemma star_lazy_sound p k s r :
  Regex.star_lazy p k s = Some r ->
  exists a b, s = a ++ b /\ forallb p a = true /\ k b = Some r.
Proof.
  induction s as [|y s IH]; simpl; intros H.
  - destruct (k []) eqn:Hk; [|done]. injection H as ->. by exists [], [].
  - destruct (k (y :: s)) eqn:Hk; [injection H as ->; by exists [], (y :: s)|].
    destruct (p y) eqn:Hy; [|done].
    destruct (IH H) as (a & b & -> & Ha & Hkb).
    exists (y :: a), b. simpl. by rewrite Hy, Ha.
Qed.

(** What a successful run has consumed consists of characters the
    pattern can consume, and a pattern without groups leaves the
    captures alone. *)
Lemma run_sound P r :
  consumes_only P r ->
  forall k s c res,
    Regex.run r k s c = Some res ->
    exists s1 s2 c',
      s = s1 ++ s2 /\ forallb P s1 = true /\ k s2 c' = Some res /\
      (group_free r = true -> c' = c).
Proof.
  induction r as [|x|p|a IHa b IHb|a IHa|p|p|n a IHa|]; simpl; intros HP k s c res Hrun.
  - by exists [], s, c.
  - destruct s as [|y s]; [done|]. destruct (N.eqb_spec x y) as [<-|]; [|done].
    exists [x], s, c. simpl. by rewrite HP.
  - destruct s as [|y s]; [done|]. destruct (p y) eqn:Hy; [|done].
    exists [y], s, c. simpl. by rewrite (HP y Hy).
  - destruct HP as [HPa HPb].
    destruct (IHa HPa _ _ _ _ Hrun) as (s1 & s2 & c1 & -> & H1 & Hk1 & Hc1).
    destruct (IHb HPb _ _ _ _ Hk1) as (s3 & s4 & c2 & -> & H3 & Hk2 & Hc2).
    exists (s1 ++ s3), s4, c2. rewrite <- app_assoc, forallb_app, H1, H3.
    repeat split; [done|]. intros [Ha Hb]%andb_true_iff.
    by rewrite (Hc2 Hb), (Hc1 Ha).
  - destruct (Regex.run a _ s c) as [r'|] eqn:Hopt.
    + injection Hrun as ->.
      destruct (IHa HP _ _ _ _ Hopt) as (s1 & s2 & c1 & -> & H1 & Hk1 & Hc1).
      exists s1, s2, c1. repeat split; [done| |done].
      by destruct (_ =? _)%nat.
    + by exists [], s, c.
  - apply star_greedy_sound in Hrun as (a & b & -> & Ha & Hk).
    exists a, b, c. repeat split; [|done].
    apply forallb_forall. intros x Hx. apply HP.
    by eapply forallb_forall in Ha.
  - apply star_lazy_sound in Hrun as (a & b & -> & Ha & Hk).
    exists a, b, c. repeat split; [|done].
    apply forallb_forall. intros x Hx. apply HP.
    by eapply forallb_forall in Ha.
  - destruct (IHa HP _ _ _ _ Hrun) as (s1 & s2 & c1 & -> & H1 & Hk1 & _).
    by exists s1, s2, ((n, take (length (s1 ++ s2) - length s2) (s1 ++ s2)) :: c1).
  - destruct s; [|done]. by exists [], [], c.
Qed.

Lemma run_group n a k s c :
  Regex.run (Regex.Group n a) k s c =
  Regex.run a (fun s' c' => k s' ((n, take (length s - length s') s) :: c')) s c.
Proof. reflexivity. Qed.

Lemma run_star_lazy p k s c :
  Regex.run (Regex.StarLazy p) k s c = Regex.star_lazy p (fun s' => k s' c) s.
Proof. reflexivity. Qed.

Lemma run_end k s c :
  Regex.run Regex.End k s c = match s with [] => k s c | _ :: _ => None end.
Proof. reflexivity. Qed.

(** The text captured by the second group of the fence pattern lies
    between an opening made of back quotes, word characters and white
    space, and a closing made of white space and back quotes. *)
Lemma fenceMatch_shape s m inner :
  fenceMatch s = Some m ->
  Regex.capture 2 m = Some inner ->
  exists head tail,
    s = head ++ inner ++ tail /\
    forallb is_fence_head head = true /\ forallb is_fence_tail tail = true.
Proof.
  unfold fenceMatch, Regex.exec. intros Hm Hcap.
  destruct (Regex.run fence_regex Regex.accept s []) as [[m' rest]|] eqn:Hrun; [|done].
  simpl in Hm. injection Hm as ->.
  change (Regex.run fence_regex Regex.accept s [])
    with (Regex.run fence_head
            (Regex.run (Regex.Group 2 (Regex.StarLazy any_char))
               (Regex.run fence_tail (Regex.run Regex.End Regex.accept))) s []) in Hrun.
  apply (run_sound is_fence_head) in Hrun as (s1 & s2 & c1 & -> & H1 & Hrun & _).
  2:{ simpl. repeat split; try done; intros c Hc; unfold is_fence_head; rewrite Hc;
      by rewrite ?orb_true_r. }
  rewrite run_group, run_star_lazy in Hrun.
  apply star_lazy_sound in Hrun as (a & b & -> & _ & Hrun).
  apply (run_sound is_fence_tail) in Hrun as (s3 & s4 & c2 & -> & H3 & Hrun & Hc2).
  2:{ simpl. repeat split; try done; intros c Hc; unfold is_fence_tail; rewrite Hc;
      by rewrite ?orb_true_r. }
  specialize (Hc2 eq_refl). subst c2.
  rewrite run_end in Hrun. destruct s4; [|done]. unfold Regex.accept in Hrun.
  injection Hrun as <- <-.
  unfold Regex.capture in Hcap. simpl in Hcap. injection Hcap as <-.
  exists s1, s3. rewrite app_nil_r. split; [|done].
  f_equal. f_equal.
  rewrite length_app, Nat.add_sub. by rewrite take_app_length.
Qed.

(** ** [parseJsonResponse] never raises *)

Lemma try_catch_pure_total {A} (body : outcome A) (handler : JsError -> outcome A) :
  (forall e, exists a, handler e = Ret a) ->
  exists a, try_catch_pure body handler = Ret a.
Proof. intros H. destruct body as [a|e]; simpl; [by exists a|apply H]. Qed.

(** The text between the fence, or the trimmed text itself. *)
Lemma forallb_unfenced P s :
  forallb P s = true ->
  forallb P match fenceMatch s with
            | Some m =>
                match Regex.capture 2 m with
                | Some ((_ :: _) as inner) => trim inner
                | _ => s
                end
            | None => s
            end = true.
Proof.
  intros Hs. destruct (fenceMatch s) as [m|] eqn:Hm; [|done].
  destruct (Regex.capture 2 m) as [[|c inner]|] eqn:Hcap; [done| |done].
  destruct (fenceMatch_shape s m (c :: inner) Hm Hcap) as (head & tail & -> & _ & _).
  rewrite !forallb_app in Hs. apply andb_true_iff in Hs as [_ [Hs _]%andb_true_iff].
  by apply forallb_trim.
Qed.

(** C5.  [parseJsonResponse] never raises: it returns [null] or a
    decoded value; and it returns [null] for every string that contains
    neither an opening brace nor an opening bracket. *)
Theorem parseJsonResponse_total (text : option jsstring) :
  (parseJsonResponse text = Ret None \/ exists v, parseJsonResponse text = Ret (Some v)) /\
  (forall s,
     text = Some s ->
     forallb (fun c => negb (is_opener c)) s = true ->
     parseJsonResponse text = Ret None).
Proof.
  split.
  - unfold parseJsonResponse. destruct text as [[|c s]|]; [by left| |by left].
    cbv zeta.
    repeat match goal with
           | |- context [if (?x =? -1) then Ret None else _] =>
               destruct (x =? -1); [by left|]
           end.
    unfold try_catch_pure, JSON_parse. destruct (JSON.parse _) as [v|];
      [right; by exists v|by left].
  - intros s -> Hs. unfold parseJsonResponse. destruct s as [|c s]; [done|].
    pose proof (forallb_unfenced _ _ (forallb_trim _ _ Hs)) as Hno.
    set (jsonStr := match fenceMatch (trim (c :: s)) with
                    | Some m => _ | None => _ end) in *.
    assert (Hbracket : indexOf (ch "[") jsonStr = -1).
    { apply indexOf_absent. eapply forallb_forall. intros x Hx.
      eapply forallb_forall in Hno; [|exact Hx].
      unfold is_opener in Hno. apply negb_true_iff, orb_false_iff in Hno as [_ H].
      by rewrite H. }
    assert (Hbrace : indexOf (ch "{") jsonStr = -1).
    { apply indexOf_absent. eapply forallb_forall. intros x Hx.
      eapply forallb_forall in Hno; [|exact Hx].
      unfold is_opener in Hno. apply negb_true_iff, orb_false_iff in Hno as [H _].
      by rewrite H. }
    rewrite Hbracket, Hbrace. reflexivity.
Qed.

Lemma parseJsonResponse_total_witness :
  forallb (fun c => negb (is_opener c)) (str "Sorry, I cannot answer that.") = true /\
  parseJsonResponse (Some (str "Sorry, I cannot answer that.")) = Ret None.
Proof.
  split; [reflexivity|].
  exact (proj2 (parseJsonResponse_total (Some (str "Sorry, I cannot answer that.")))
           (str "Sorry, I cannot answer that.") eq_refl eq_refl).
Defined.

(** ** [JSON.parse] after [JSON.stringify]: numbers *)

Lemma uint_of_digits_of_uint u : uint_of_digits (digits_of_uint u) = u.
Proof. induction u; simpl; by f_equal. Qed.

Lemma span_digits_of_uint u rest :
  number_end rest = true ->
  span_digits (digits_of_uint u ++ rest) = (digits_of_uint u, rest).
Proof.
  intros Hend. induction u; simpl; try (by rewrite IHu).
  destruct rest as [|c rest]; [done|]. simpl in *.
  apply negb_true_iff in Hend. repeat (apply orb_false_iff in Hend as [Hend ?]).
  by rewrite Hend.
Qed.

Lemma unorm_well_led u : well_led (Decimal.unorm u) = true.
Proof. induction u; try done. Qed.

Lemma to_uint_well_led n : well_led (N.to_uint n) = true.
Proof.
  rewrite <- (DecimalN.Unsigned.of_to n) at 1.
  rewrite DecimalN.Unsigned.to_of. apply unorm_well_led.
Qed.

Lemma nat_of_digits_of_N n : nat_of_digits (digits_of_N n) = n.
Proof.
  unfold nat_of_digits, digits_of_N.
  by rewrite uint_of_digits_of_uint, DecimalN.Unsigned.of_to.
Qed.

(** The digits of a natural number: at least one, no minus sign, and no
    leading zero unless the number is written [0]. *)
Lemma digits_of_N_shape n :
  exists d ds,
    digits_of_N n = d :: ds /\ is_digit d = true /\
    (N.eqb d 48 && negb (bool_decide (ds = [])))%bool = false.
Proof.
  unfold digits_of_N. pose proof (to_uint_well_led n) as Hled.
  destruct (N.to_uint n) as [|u|u|u|u|u|u|u|u|u|u]; simpl in *; try done;
    try (eexists _, _; split; [reflexivity|]; split; reflexivity).
  destruct u; try done. by exists 48%N, [].
Qed.

Lemma digit_not_minus d : is_digit d = true -> N.eqb d 45 = false.
Proof.
  unfold is_digit, in_range. intros [H1 H2]%andb_true_iff.
  apply N.leb_le in H1. apply N.eqb_neq. lia.
Qed.

Lemma parse_natural n rest :
  number_end rest = true ->
  span_digits (digits_of_N n ++ rest) = (digits_of_N n, rest).
Proof. apply span_digits_of_uint. Qed.

Lemma number_end_fraction rest :
  number_end rest = true -> parse_fraction rest = Some (false, rest).
Proof.
  unfold parse_fraction, expect. destruct rest as [|c rest]; [done|]. simpl.
  intros Hend%negb_true_iff. repeat (apply orb_false_iff in Hend as [Hend ?]).
  by replace (N.eqb c 46) with false.
Qed.

Lemma number_end_exponent rest :
  number_end rest = true -> parse_exponent rest = Some (false, rest).
Proof.
  unfold parse_exponent. destruct rest as [|c rest]; [done|]. simpl.
  intros Hend%negb_true_iff. repeat (apply orb_false_iff in Hend as [Hend ?]).
  by replace (N.eqb c 101) with false; replace (N.eqb c 69) with false.
Qed.

Lemma parse_number_string_of_Z z rest :
  number_end rest = true ->
  parse_number (string_of_Z z ++ rest) = Some (JNum z, rest).
Proof.
  intros Hend. unfold parse_number, string_of_Z.
  destruct (Z.ltb_spec z 0) as [Hneg|Hpos].
  - set (n := Z.to_N (- z)).
    destruct (digits_of_N_shape n) as (d & ds & Hds & Hd & Hlead).
    simpl. rewrite parse_natural by done. rewrite Hds, Hlead.
    rewrite number_end_fraction by done. simpl.
    rewrite number_end_exponent by done. simpl.
    rewrite <- Hds, nat_of_digits_of_N. repeat f_equal. subst n. lia.
  - set (n := Z.to_N z).
    destruct (digits_of_N_shape n) as (d & ds & Hds & Hd & Hlead).
    rewrite Hds. simpl. rewrite (digit_not_minus d Hd).
    change (d :: ds ++ rest) with ((d :: ds) ++ rest).
    rewrite <- Hds, parse_natural by done. rewrite Hds, Hlead.
    rewrite number_end_fraction by done. simpl.
    rewrite number_end_exponent by done. simpl.
    rewrite <- Hds, nat_of_digits_of_N. repeat f_equal. subst n. lia.
Qed.

(** ** [JSON.parse] after [JSON.stringify]: strings *)

Lemma hex_value_digit x : (x < 16)%N -> hex_value (hex_digit x) = Some x.
Proof.
  intros Hx. destruct x as [|p]; [done|].
  do 4 (try destruct p as [p|p|]); try reflexivity; lia.
Qed.

Lemma nibbles_Z c :
  0 <= c < 65536 ->
  (c / 4096) mod 16 * 4096 + (c / 256) mod 16 * 256 + (c / 16) mod 16 * 16 + c mod 16 = c.
Proof. intros Hc. Z.div_mod_to_equations. lia. Qed.

Lemma nibbles c :
  (c < 65536)%N ->
  ((c / 4096) mod 16 * 4096 + (c / 256) mod 16 * 256 + (c / 16) mod 16 * 16 + c mod 16 = c)%N.
Proof.
  intros Hc. apply N2Z.inj.
  rewrite !N2Z.inj_add, !N2Z.inj_mul, !N2Z.inj_mod, !N2Z.inj_div.
  apply nibbles_Z. lia.
Qed.

Lemma parse_unicode_escape c tl :
  (c < 65536)%N ->
  parse_string_body (unicode_escape c ++ tl) =
  '(cs, rest) ← parse_string_body tl; Some (c :: cs, rest).
Proof.
  intros Hc. unfold unicode_escape.
  cbn [app parse_string_body]. cbn [N.eqb Pos.eqb].
  rewrite !hex_value_digit by (apply N.mod_lt; done). cbn [mbind option_bind].
  by rewrite nibbles.
Qed.

Lemma parse_plain_char c tl :
  N.eqb c 34 = false -> N.eqb c 92 = false -> (c <? 32)%N = false ->
  parse_string_body (c :: tl) =
  '(cs, rest) ← parse_string_body tl; Some (c :: cs, rest).
Proof. intros H1 H2 H3. cbn [parse_string_body]. by rewrite H1, H2, H3. Qed.

Lemma surrogate_plain c :
  (is_high_surrogate c || is_low_surrogate c)%bool = true ->
  N.eqb c 34 = false /\ N.eqb c 92 = false /\ (c <? 32)%N = false /\ (c < 65536)%N.
Proof.
  unfold is_high_surrogate, is_low_surrogate, in_range.
  rewrite N.eqb_neq, N.eqb_neq, N.ltb_ge.
  intros [[H1 H2]%andb_true_iff|[H1 H2]%andb_true_iff]%orb_true_iff;
    apply N.leb_le in H1, H2; lia.
Qed.

Lemma parse_escape_char c tl :
  parse_string_body (escape_char c ++ tl) =
  '(cs, rest) ← parse_string_body tl; Some (c :: cs, rest).
Proof.
  unfold escape_char.
  destruct (N.eqb_spec c 8) as [->|]; [done|].
  destruct (N.eqb_spec c 9) as [->|]; [done|].
  destruct (N.eqb_spec c 10) as [->|]; [done|].
  destruct (N.eqb_spec c 12) as [->|]; [done|].
  destruct (N.eqb_spec c 13) as [->|]; [done|].
  destruct (N.eqb_spec c 34) as [->|]; [done|].
  destruct (N.eqb_spec c 92) as [->|]; [done|].
  destruct (N.ltb_spec c 32).
  - apply parse_unicode_escape. lia.
  - apply parse_plain_char; [by apply N.eqb_neq|by apply N.eqb_neq|by apply N.ltb_ge].
Qed.

Lemma parse_quote_body s rest :
  parse_string_body (quote_body s ++ 34%N :: rest) = Some (s, rest).
Proof.
  remember (length s) as n eqn:Hn. revert s Hn.
  induction n as [n IH] using lt_wf_ind. intros s Hn.
  destruct s as [|c s1]; [done|]. cbn [quote_body].
  destruct (is_high_surrogate c) eqn:Hhigh.
  - destruct (surrogate_plain c) as (Hc1 & Hc2 & Hc3 & Hc4); [by rewrite Hhigh|].
    destruct s1 as [|d s2].
    + rewrite parse_unicode_escape by done. done.
    + destruct (is_low_surrogate d) eqn:Hlow.
      * destruct (surrogate_plain d) as (Hd1 & Hd2 & Hd3 & Hd4);
          [by rewrite Hlow, orb_true_r|].
        cbn [app]. rewrite parse_plain_char by done.
        rewrite parse_plain_char by done.
        rewrite (IH (length s2)); [done| |done]. simpl in Hn. lia.
      * rewrite <- app_assoc, parse_unicode_escape by done.
        rewrite (IH (length (d :: s2))); [done| |done]. simpl in *. lia.
  - destruct (is_low_surrogate c) eqn:Hlow.
    + destruct (surrogate_plain c) as (Hc1 & Hc2 & Hc3 & Hc4);
        [by rewrite Hlow, orb_true_r|].
      rewrite <- app_assoc, parse_unicode_escape by done.
      rewrite (IH (length s1)); [done| |done]. simpl in *. lia.
    + rewrite <- app_assoc, parse_escape_char.
      rewrite (IH (length s1)); [done| |done]. simpl in *. lia.
Qed.

(** ** [JSON.parse] after [JSON.stringify]: values *)

Lemma skip_space_cons c tl :
  is_json_space c = false -> skip_space (c :: tl) = c :: tl.
Proof. intros H. unfold skip_space. simpl. by rewrite H. Qed.

Ltac eqb_false c k :=
  let E := fresh in
  destruct (N.eqb_spec c k) as [E|_]; [rewrite E in *; discriminate|].

Lemma value_start_not_space c : value_start c = true -> is_json_space c = false.
Proof.
  intros H. unfold is_json_space.
  eqb_false c 9%N. eqb_false c 10%N. eqb_false c 13%N. eqb_false c 32%N. done.
Qed.

Lemma value_start_not_closer c :
  value_start c = true -> N.eqb c 93 = false /\ N.eqb c 125 = false.
Proof. intros H. eqb_false c 93%N. eqb_false c 125%N. done. Qed.

Lemma parse_value_number fuel c tl :
  (is_digit c || N.eqb c 45)%bool = true ->
  parse_value (S fuel) (c :: tl) = parse_number (c :: tl).
Proof.
  intros H. cbn [parse_value].
  assert (Hsp : is_json_space c = false).
  { unfold is_json_space.
    eqb_false c 9%N. eqb_false c 10%N. eqb_false c 13%N. eqb_false c 32%N. done. }
  rewrite (skip_space_cons c tl Hsp).
  eqb_false c 110%N. eqb_false c 116%N. eqb_false c 102%N. eqb_false c 34%N.
  eqb_false c 91%N. eqb_false c 123%N. done.
Qed.

Lemma string_of_Z_start z :
  exists c tl, string_of_Z z = c :: tl /\ (is_digit c || N.eqb c 45)%bool = true.
Proof.
  unfold string_of_Z. destruct (z <? 0).
  - by eexists _, _.
  - destruct (digits_of_N_shape (Z.to_N z)) as (d & ds & -> & Hd & _).
    exists d, ds. by rewrite Hd.
Qed.

Lemma stringify_start v :
  plain v = true -> exists c tl, stringify v = c :: tl /\ value_start c = true.
Proof.
  destruct v as [|[]|z|?|s|l|l]; simpl; intros Hv; try done; try (by eexists _, _).
  destruct (string_of_Z_start z) as (c & tl & -> & Hc).
  exists c, tl. split; [done|]. unfold value_start.
  apply orb_true_iff in Hc as [->| ->]; by rewrite ?orb_true_r.
Qed.

Lemma join_cons2 sep p q l : join sep (p :: q :: l) = p ++ sep ++ join sep (q :: l).
Proof. reflexivity. Qed.

Lemma parse_value_unfold fuel s :
  parse_value (S fuel) s =
  match skip_space s with
  | [] => None
  | c :: s1 =>
      if N.eqb c 110 then r ← strip_prefix (str "ull") s1; Some (JNull, r)
      else if N.eqb c 116 then r ← strip_prefix (str "rue") s1; Some (JBool true, r)
      else if N.eqb c 102 then r ← strip_prefix (str "alse") s1; Some (JBool false, r)
      else if N.eqb c 34 then
        '(cs, r) ← parse_string_body s1; Some (JStr cs, r)
      else if N.eqb c 91 then
        match expect 93 (skip_space s1) with
        | Some r => Some (JArr [], r)
        | None => '(vs, r) ← parse_elements fuel s1; Some (JArr vs, r)
        end
      else if N.eqb c 123 then
        match expect 125 (skip_space s1) with
        | Some r => Some (JObj [], r)
        | None => '(ms, r) ← parse_members fuel s1; Some (build_object ms, r)
        end
      else parse_number (c :: s1)
  end.
Proof. reflexivity. Qed.

Lemma parse_elements_unfold fuel s :
  parse_elements (S fuel) s =
  '(v, r) ← parse_value fuel s;
  match expect 44 (skip_space r) with
  | Some r' => '(vs, r'') ← parse_elements fuel r'; Some (v :: vs, r'')
  | None =>
      match expect 93 (skip_space r) with
      | Some r' => Some ([v], r')
      | None => None
      end
  end.
Proof. reflexivity. Qed.

Lemma parse_members_unfold fuel s :
  parse_members (S fuel) s =
  s1 ← expect 34 (skip_space s);
  '(k, r0) ← parse_string_body s1;
  r1 ← expect 58 (skip_space r0);
  '(v, r) ← parse_value fuel r1;
  match expect 44 (skip_space r) with
  | Some r' => '(ms, r'') ← parse_members fuel r'; Some ((k, v) :: ms, r'')
  | None =>
      match expect 125 (skip_space r) with
      | Some r' => Some ([(k, v)], r')
      | None => None
      end
  end.
Proof. reflexivity. Qed.

(** Assigning the members of an object without repeated name one
    after the other rebuilds the object. *)
Lemma obj_set_fresh k v l :
  k ∉ map fst l -> obj_set k v l = l ++ [(k, v)].
Proof.
  induction l as [|[k' v'] l IH]; simpl; intros Hk; [done|].
  apply not_elem_of_cons in Hk as [Hne Hk].
  apply not_eq_sym, jsstring_eqb_neq in Hne. rewrite Hne. by rewrite IH.
Qed.

Lemma build_object_nodup acc l :
  NoDup (map fst (acc ++ l)) ->
  fold_left (fun o kv => obj_set (fst kv) (snd kv) o) l acc = acc ++ l.
Proof.
  revert acc. induction l as [|[k v] l IH]; intros acc Hnd; simpl.
  - by rewrite app_nil_r.
  - rewrite obj_set_fresh.
    + rewrite IH; rewrite <- app_assoc; done.
    + rewrite map_app in Hnd. simpl in Hnd.
      apply list.NoDup_app in Hnd as (_ & Hdisj & _).
      intros Hin. apply (Hdisj k Hin). by left.
Qed.

Lemma size_pos v : (1 <= size v)%nat.
Proof. destruct v; simpl; lia. Qed.

Lemma join_start sep v l c tl :
  stringify v = c :: tl ->
  exists tl', join sep (map stringify (v :: l)) = c :: tl'.
Proof.
  intros Hv. destruct l as [|v' l]; simpl; rewrite Hv; by eexists.
Qed.

Lemma parse_value_array fuel l rest :
  (forall v l' rest',
     l = v :: l' ->
     parse_elements fuel (join [ch ","] (map stringify (v :: l')) ++ ch "]" :: rest')
       = Some (v :: l', rest')) ->
  forallb plain l = true ->
  parse_value (S fuel) (stringify (JArr l) ++ rest) = Some (JArr l, rest).
Proof.
  intros IH Hplain. cbn [stringify]. rewrite parse_value_unfold.
  rewrite <- app_comm_cons, <- app_assoc.
  rewrite skip_space_cons by reflexivity.
  change (N.eqb (ch "[") 110) with false. change (N.eqb (ch "[") 116) with false.
  change (N.eqb (ch "[") 102) with false. change (N.eqb (ch "[") 34) with false.
  change (N.eqb (ch "[") 91) with true. cbv iota.
  destruct l as [|v l'].
  - reflexivity.
  - simpl in Hplain. apply andb_true_iff in Hplain as [Hv _].
    destruct (stringify_start v Hv) as (c & tl & Hc & Hstart).
    destruct (join_start [ch ","] v l' c tl Hc) as (tl' & Hjoin).
    rewrite Hjoin. rewrite <- app_comm_cons.
    rewrite skip_space_cons by (by apply value_start_not_space).
    unfold expect at 1. rewrite (proj1 (value_start_not_closer c Hstart)).
    rewrite app_comm_cons, <- Hjoin.
    change ([ch "]"] ++ rest) with (ch "]" :: rest).
    by rewrite (IH v l' rest eq_refl).
Qed.

Lemma members_start sep kv l :
  exists tl', join sep (map member_text (kv :: l)) = 34%N :: tl'.
Proof. destruct l as [|kv' l]; simpl; by eexists. Qed.

Lemma parse_value_object fuel l rest :
  (forall kv l' rest',
     l = kv :: l' ->
     parse_members fuel (join [ch ","] (map member_text (kv :: l')) ++ ch "}" :: rest')
       = Some (kv :: l', rest')) ->
  NoDup (map fst l) ->
  parse_value (S fuel) (stringify (JObj l) ++ rest) = Some (JObj l, rest).
Proof.
  intros IH Hnd. cbn [stringify]. rewrite parse_value_unfold.
  rewrite <- app_comm_cons, <- app_assoc.
  rewrite skip_space_cons by reflexivity.
  change (N.eqb (ch "{") 110) with false. change (N.eqb (ch "{") 116) with false.
  change (N.eqb (ch "{") 102) with false. change (N.eqb (ch "{") 34) with false.
  change (N.eqb (ch "{") 91) with false. change (N.eqb (ch "{") 123) with true. cbv iota.
  destruct l as [|kv l'].
  - reflexivity.
  - fold member_text.
    change (fun kv0 : jsstring * json => quote (fst kv0) ++ ch ":" :: stringify (snd kv0))
      with member_text.
    destruct (members_start [ch ","] kv l') as (tl' & Hjoin).
    rewrite Hjoin. rewrite <- app_comm_cons.
    rewrite skip_space_cons by reflexivity.
    unfold expect at 1. change (N.eqb 34 125) with false. cbv iota.
    rewrite app_comm_cons, <- Hjoin.
    change ([ch "}"] ++ rest) with (ch "}" :: rest).
    rewrite (IH kv l' rest eq_refl). simpl. unfold build_object.
    by rewrite (build_object_nodup [] (kv :: l')).
Qed.

Lemma parse_elements_step fuel v l rest :
  parse_value fuel (stringify v ++
                      match l with
                      | [] => ch "]" :: rest
                      | _ :: _ => ch "," :: join [ch ","] (map stringify l) ++ ch "]" :: rest
                      end)
    = Some (v, match l with
               | [] => ch "]" :: rest
               | _ :: _ => ch "," :: join [ch ","] (map stringify l) ++ ch "]" :: rest
               end) ->
  (forall v' l', l = v' :: l' ->
     parse_elements fuel (join [ch ","] (map stringify (v' :: l')) ++ ch "]" :: rest)
       = Some (v' :: l', rest)) ->
  parse_elements (S fuel) (join [ch ","] (map stringify (v :: l)) ++ ch "]" :: rest)
    = Some (v :: l, rest).
Proof.
  intros Hv Hl. rewrite parse_elements_unfold.
  destruct l as [|v' l'].
  - cbn [map join]. rewrite Hv. reflexivity.
  - change (join [ch ","] (map stringify (v :: v' :: l')))
      with (stringify v ++ [ch ","] ++ join [ch ","] (map stringify (v' :: l'))).
    rewrite <- !app_assoc. cbn [app].
    rewrite Hv. cbn [mbind option_bind].
    rewrite skip_space_cons by reflexivity.
    unfold expect at 1. change (N.eqb (ch ",") 44) with true. cbv iota.
    by rewrite (Hl v' l' eq_refl).
Qed.

Lemma parse_members_step fuel k v l rest :
  parse_value fuel (stringify v ++
                      match l with
                      | [] => ch "}" :: rest
                      | _ :: _ => ch "," :: join [ch ","] (map member_text l) ++ ch "}" :: rest
                      end)
    = Some (v, match l with
               | [] => ch "}" :: rest
               | _ :: _ => ch "," :: join [ch ","] (map member_text l) ++ ch "}" :: rest
               end) ->
  (forall kv' l', l = kv' :: l' ->
     parse_members fuel (join [ch ","] (map member_text (kv' :: l')) ++ ch "}" :: rest)
       = Some (kv' :: l', rest)) ->
  parse_members (S fuel) (join [ch ","] (map member_text ((k, v) :: l)) ++ ch "}" :: rest)
    = Some ((k, v) :: l, rest).
Proof.
  intros Hv Hl. rewrite parse_members_unfold.
  destruct l as [|kv' l'].
  - cbn [map join]. unfold member_text, quote. cbn [fst snd].
    rewrite <- !app_comm_cons, <- !app_assoc.
    rewrite skip_space_cons by reflexivity. cbn [expect].
    change (N.eqb 34 34) with true. cbn [mbind option_bind app].
    rewrite parse_quote_body. cbn [mbind option_bind].
    rewrite skip_space_cons by reflexivity. cbn [expect].
    change (N.eqb (ch ":") 58) with true. cbn [mbind option_bind].
    rewrite Hv. reflexivity.
  - change (join [ch ","] (map member_text ((k, v) :: kv' :: l')))
      with (member_text (k, v) ++ [ch ","] ++ join [ch ","] (map member_text (kv' :: l'))).
    unfold member_text at 1, quote. cbn [fst snd].
    rewrite <- !app_comm_cons, <- !app_assoc.
    rewrite skip_space_cons by reflexivity. cbn [expect].
    change (N.eqb 34 34) with true. cbn [mbind option_bind app].
    rewrite parse_quote_body. cbn [mbind option_bind].
    rewrite skip_space_cons by reflexivity. cbn [expect].
    change (N.eqb (ch ":") 58) with true. cbn [mbind option_bind].
    rewrite Hv. cbn [mbind option_bind].
    rewrite skip_space_cons by reflexivity.
    unfold expect at 1. change (N.eqb (ch ",") 44) with true. cbv iota.
    by rewrite (Hl kv' l' eq_refl).
Qed.

(** The three parsers undo the three printers, given enough fuel. *)
Lemma parse_stringify_fuel fuel :
  (forall v rest,
     (size v <= fuel)%nat -> plain v = true -> number_end rest = true ->
     parse_value fuel (stringify v ++ rest) = Some (v, rest)) /\
  (forall v l rest,
     (elems_size (v :: l) <= fuel)%nat -> forallb plain (v :: l) = true ->
     parse_elements fuel (join [ch ","] (map stringify (v :: l)) ++ ch "]" :: rest)
       = Some (v :: l, rest)) /\
  (forall kv l rest,
     (members_size (kv :: l) <= fuel)%nat ->
     forallb (fun kv => plain (snd kv)) (kv :: l) = true ->
     parse_members fuel (join [ch ","] (map member_text (kv :: l)) ++ ch "}" :: rest)
       = Some (kv :: l, rest)).
Proof.
  induction fuel as [|fuel (IHv & IHe & IHm)].
  { split; [|split].
    - intros v rest Hsize. pose proof (size_pos v). lia.
    - intros v l rest Hsize. unfold elems_size in Hsize. simpl in Hsize. lia.
    - intros kv l rest Hsize. unfold members_size in Hsize. simpl in Hsize. lia. }
  split; [|split].
  - intros v rest Hsize Hplain Hend.
    destruct v as [|[]|z|?|s|l|l]; try done.
    + destruct (string_of_Z_start z) as (c & tl & Hz & Hc).
      cbn [stringify]. rewrite Hz, <- app_comm_cons.
      rewrite parse_value_number by done.
      rewrite app_comm_cons, <- Hz. by apply parse_number_string_of_Z.
    + cbn [stringify]. unfold quote. rewrite parse_value_unfold.
      rewrite <- !app_comm_cons, <- app_assoc.
      rewrite skip_space_cons by reflexivity.
      change (N.eqb 34 110) with false. change (N.eqb 34 116) with false.
      change (N.eqb 34 102) with false. change (N.eqb 34 34) with true. cbv iota.
      cbn [app]. by rewrite parse_quote_body.
    + apply parse_value_array; [|done].
      intros v l' rest' ->. apply IHe; [|done].
      simpl in Hsize. unfold elems_size. simpl. lia.
    + simpl in Hplain. apply andb_true_iff in Hplain as [Hnd%bool_decide_eq_true Hplain].
      apply parse_value_object; [|done].
      intros kv l' rest' ->. apply IHm; [|done].
      simpl in Hsize. unfold members_size. simpl. lia.
  - intros v l rest Hsize Hplain.
    unfold elems_size in Hsize. simpl in Hsize, Hplain.
    apply andb_true_iff in Hplain as [Hv Hl].
    apply parse_elements_step.
    + apply IHv; [lia|done|by destruct l].
    + intros v' l' ->. apply IHe; [|done]. unfold elems_size. simpl in *. lia.
  - intros [k v] l rest Hsize Hplain.
    unfold members_size in Hsize. simpl in Hsize, Hplain.
    apply andb_true_iff in Hplain as [Hv Hl].
    apply parse_members_step.
    + apply IHv; [lia|done|by destruct l].
    + intros kv' l' ->. apply IHm; [|done]. unfold members_size. simpl in *. lia.
Qed.

Lemma length_join_bound {A} (f : A -> jsstring) (g : A -> nat) l :
  (forall x, In x l -> g x <= 2 * length (f x) + 1)%nat ->
  (list_sum (map (fun x => S (g x)) l) <= 2 * length (join [ch ","] (map f l)) + 2)%nat.
Proof.
  induction l as [|a [|b l] IH]; intros H.
  - simpl. lia.
  - simpl. pose proof (H a (or_introl eq_refl)). lia.
  - change (join [ch ","] (map f (a :: b :: l)))
      with (f a ++ [ch ","] ++ join [ch ","] (map f (b :: l))).
    rewrite map_cons. rewrite !length_app. cbn [length].
    pose proof (H a (or_introl eq_refl)).
    assert (IH' := IH (fun x Hx => H x (or_intror Hx))).
    cbn [list_sum fold_right]. fold (list_sum (map (fun x => S (g x)) (b :: l))). lia.
Qed.

Lemma json_size_ind (P : json -> Prop) :
  (forall v, (forall v', (size v' < size v)%nat -> P v') -> P v) -> forall v, P v.
Proof.
  intros H v. remember (size v) as n eqn:Hn. revert v Hn.
  induction n as [n IH] using lt_wf_ind. intros v ->.
  apply H. intros v' Hlt. by apply (IH (size v')).
Qed.

Lemma size_element v l : In v l -> (size v < size (JArr l))%nat.
Proof.
  simpl. induction l as [|a l IH]; intros Hin; [done|].
  destruct Hin as [->|Hin]; simpl; [lia|]. specialize (IH Hin). lia.
Qed.

Lemma size_member kv l : In kv l -> (size (snd kv) < size (JObj l))%nat.
Proof.
  simpl. induction l as [|a l IH]; intros Hin; [done|].
  destruct Hin as [->|Hin]; simpl; [lia|]. specialize (IH Hin). lia.
Qed.

Lemma size_bound v : (size v <= 2 * length (stringify v) + 1)%nat.
Proof.
  induction v as [v IH] using json_size_ind.
  destruct v as [|b|z|?|s|l|l]; try (simpl; lia).
  - cbn [size stringify length]. rewrite length_app. cbn [length].
    pose proof (length_join_bound stringify size l) as Hb.
    assert (Hb' := Hb (fun x Hx => IH x (size_element x l Hx))). lia.
  - cbn [size stringify length]. rewrite length_app. cbn [length].
    pose proof (length_join_bound member_text (fun kv => size (snd kv)) l) as Hb.
    cbv beta in Hb.
    assert (Hm : forall kv, In kv l ->
                   (size (snd kv) <= 2 * length (member_text kv) + 1)%nat).
    { intros kv Hkv. pose proof (IH (snd kv) (size_member kv l Hkv)) as Hs.
      unfold member_text. rewrite length_app. simpl. lia. }
    specialize (Hb Hm).
    change (fun kv : jsstring * json => quote (fst kv) ++ ch ":" :: stringify (snd kv))
      with member_text.
    lia.
Qed.

(** [JSON.parse (JSON.stringify v)] is [v]. *)
Lemma parse_stringify v : plain v = true -> JSON.parse (stringify v) = Some v.
Proof.
  intros Hplain. unfold JSON.parse.
  destruct (parse_stringify_fuel (2 * length (stringify v) + 2)) as (Hv & _ & _).
  rewrite <- (app_nil_r (stringify v)) at 2.
  rewrite Hv; [done| |done|done].
  pose proof (size_bound v). lia.
Qed.

(** The serialization of an array or an object starts with an opening
    bracket or brace and ends with a closing one. *)
Lemma stringify_container v :
  is_container v = true ->
  exists c mid d,
    stringify v = c :: mid ++ [d] /\ is_opener c = true /\ is_closer d = true.
Proof.
  destruct v; try done; intros _; simpl; by eexists _, _, _.
Qed.

(** ** The fuel of [JSON.parse] *)

Lemma skip_space_length s : (length (skip_space s) <= length s)%nat.
Proof.
  unfold skip_space. induction s as [|c s IH]; simpl; [done|].
  destruct (is_json_space c); simpl; lia.
Qed.

Lemma expect_length c s r : expect c s = Some r -> length s = S (length r).
Proof.
  unfold expect. destruct s as [|d s]; [done|]. destruct (N.eqb d c); [|done].
  by intros [= ->].
Qed.

Lemma strip_prefix_length p s r :
  strip_prefix p s = Some r -> (length r <= length s)%nat.
Proof.
  revert s. induction p as [|x p IH]; intros s; simpl.
  - by intros [= ->].
  - destruct s as [|y s]; [done|]. destruct (N.eqb x y); [|done].
    intros H%IH. simpl. lia.
Qed.

Lemma span_digits_length s ds r :
  span_digits s = (ds, r) -> length s = (length ds + length r)%nat.
Proof.
  revert ds r. induction s as [|c s IH]; intros ds r; simpl.
  - by intros [= <- <-].
  - destruct (is_digit c).
    + destruct (span_digits s) as [ds' r'] eqn:Hspan. intros [= <- <-].
      simpl. by rewrite (IH ds' r' eq_refl).
    + by intros [= <- <-].
Qed.

Lemma some_digits_length s r : some_digits s = Some r -> (length r < length s)%nat.
Proof.
  unfold some_digits. destruct (span_digits s) as [[|d ds] r'] eqn:Hspan; [done|].
  intros [= <-]. apply span_digits_length in Hspan. simpl in Hspan. lia.
Qed.

Lemma parse_fraction_length s b r :
  parse_fraction s = Some (b, r) -> (length r <= length s)%nat.
Proof.
  unfold parse_fraction. destruct (expect 46 s) as [s1|] eqn:Hdot.
  - destruct (some_digits s1) as [r'|] eqn:Hd; [|done]. simpl. intros [= _ <-].
    apply expect_length in Hdot. apply some_digits_length in Hd. lia.
  - by intros [= _ <-].
Qed.

Lemma parse_exponent_length s b r :
  parse_exponent s = Some (b, r) -> (length r <= length s)%nat.
Proof.
  unfold parse_exponent. destruct s as [|c s1]; [by intros [= _ <-]|].
  destruct (N.eqb c 101 || N.eqb c 69)%bool; [|by intros [= _ <-]].
  destruct s1 as [|sg s2]; [done|].
  destruct (N.eqb sg 43 || N.eqb sg 45)%bool.
  - destruct (some_digits s2) as [r'|] eqn:Hd; [|done]. simpl. intros [= _ <-].
    apply some_digits_length in Hd. simpl. lia.
  - destruct (some_digits (sg :: s2)) as [r'|] eqn:Hd; [|done]. simpl. intros [= _ <-].
    apply some_digits_length in Hd. simpl in *. lia.
Qed.

Lemma parse_number_length s v r :
  parse_number s = Some (v, r) -> (length r < length s)%nat.
Proof.
  unfold parse_number.
  destruct (expect 45 s) as [s'|] eqn:Hminus.
  - apply expect_length in Hminus.
    destruct (span_digits s') as [[|d ds] s2] eqn:Hspan; [done|].
    apply span_digits_length in Hspan.
    destruct (_ && _)%bool; [done|].
    destruct (parse_fraction s2) as [[frac s3]|] eqn:Hf; [|done].
    cbn [mbind option_bind].
    destruct (parse_exponent s3) as [[expo s4]|] eqn:He; [|done].
    cbn [mbind option_bind].
    apply parse_fraction_length in Hf. apply parse_exponent_length in He.
    destruct (frac || expo)%bool; intros [= _ <-]; simpl in *; lia.
  - destruct (span_digits s) as [[|d ds] s2] eqn:Hspan; [done|].
    apply span_digits_length in Hspan.
    destruct (_ && _)%bool; [done|].
    destruct (parse_fraction s2) as [[frac s3]|] eqn:Hf; [|done].
    cbn [mbind option_bind].
    destruct (parse_exponent s3) as [[expo s4]|] eqn:He; [|done].
    cbn [mbind option_bind].
    apply parse_fraction_length in Hf. apply parse_exponent_length in He.
    destruct (frac || expo)%bool; intros [= _ <-]; simpl in *; lia.
Qed.

Lemma parse_string_body_length s cs r :
  parse_string_body s = Some (cs, r) -> (length r < length s)%nat.
Proof.
  remember (length s) as n eqn:Hn. revert s cs r Hn.
  induction n as [n IH] using lt_wf_ind. intros s cs r -> Hparse.
  destruct s as [|c s1]; [done|]. cbn [parse_string_body] in Hparse.
  destruct (N.eqb c 34).
  { injection Hparse as _ <-. simpl. lia. }
  destruct (N.eqb c 92).
  - destruct s1 as [|e s2]; [done|].
    destruct (N.eqb e 117).
    + destruct s2 as [|h1 [|h2 [|h3 [|h4 s3]]]]; try done.
      destruct (hex_value h1); [|done]. destruct (hex_value h2); [|done].
      destruct (hex_value h3); [|done]. destruct (hex_value h4); [|done].
      cbn [mbind option_bind] in Hparse.
      destruct (parse_string_body s3) as [[cs' r']|] eqn:Hrec; [|done].
      injection Hparse as _ <-.
      apply (IH (length s3)) in Hrec; simpl; [lia|lia|done].
    + destruct (simple_escape e); [|done]. cbn [mbind option_bind] in Hparse.
      destruct (parse_string_body s2) as [[cs' r']|] eqn:Hrec; [|done].
      injection Hparse as _ <-.
      apply (IH (length s2)) in Hrec; simpl; [lia|lia|done].
  - destruct (c <? 32)%N; [done|].
    destruct (parse_string_body s1) as [[cs' r']|] eqn:Hrec; [|done].
    injection Hparse as _ <-.
    apply (IH (length s1)) in Hrec; simpl; [lia|lia|done].
Qed.

(** A successful parse consumes characters, and succeeds in the same
    way with any amount of fuel above twice the length of the text. *)
Lemma parse_fuel_adequate F :
  (forall s v r,
     parse_value F s = Some (v, r) ->
     (length r < length s)%nat /\
     forall f, (2 * length s + 1 <= f)%nat -> parse_value f s = Some (v, r)) /\
  (forall s vs r,
     parse_elements F s = Some (vs, r) ->
     (length r < length s)%nat /\
     forall f, (2 * length s + 2 <= f)%nat -> parse_elements f s = Some (vs, r)) /\
  (forall s ms r,
     parse_members F s = Some (ms, r) ->
     (length r < length s)%nat /\
     forall f, (2 * length s + 2 <= f)%nat -> parse_members f s = Some (ms, r)).
Proof.
  induction F as [|F (IHv & IHe & IHm)]; [done|].
  split; [|split].
  - intros s v r H. rewrite parse_value_unfold in H.
    pose proof (skip_space_length s) as Hlen.
    destruct (skip_space s) as [|c s1] eqn:Hskip; [done|]. simpl in Hlen.
    assert (Hsame : forall f, (2 * length s + 1 <= f)%nat ->
              parse_value f s =
              if N.eqb c 110 then r ← strip_prefix (str "ull") s1; Some (JNull, r)
              else if N.eqb c 116 then r ← strip_prefix (str "rue") s1; Some (JBool true, r)
              else if N.eqb c 102 then r ← strip_prefix (str "alse") s1; Some (JBool false, r)
              else if N.eqb c 34 then
                '(cs, r) ← parse_string_body s1; Some (JStr cs, r)
              else if N.eqb c 91 then
                match expect 93 (skip_space s1) with
                | Some r => Some (JArr [], r)
                | None => '(vs, r) ← parse_elements (pred f) s1; Some (JArr vs, r)
                end
              else if N.eqb c 123 then
                match expect 125 (skip_space s1) with
                | Some r => Some (JObj [], r)
                | None => '(ms, r) ← parse_members (pred f) s1; Some (build_object ms, r)
                end
              else parse_number (c :: s1)).
    { intros [|f] Hf; [lia|]. by rewrite parse_value_unfold, Hskip. }
    destruct (N.eqb c 110).
    { destruct (strip_prefix _ s1) as [r0|] eqn:Hp; [|done]. injection H as <- <-.
      pose proof (strip_prefix_length _ _ _ Hp). split; [lia|]. intros f Hf.
      by rewrite Hsame. }
    destruct (N.eqb c 116).
    { destruct (strip_prefix _ s1) as [r0|] eqn:Hp; [|done]. injection H as <- <-.
      pose proof (strip_prefix_length _ _ _ Hp). split; [lia|]. intros f Hf.
      by rewrite Hsame. }
    destruct (N.eqb c 102).
    { destruct (strip_prefix _ s1) as [r0|] eqn:Hp; [|done]. injection H as <- <-.
      pose proof (strip_prefix_length _ _ _ Hp). split; [lia|]. intros f Hf.
      by rewrite Hsame. }
    destruct (N.eqb c 34).
    { destruct (parse_string_body s1) as [[cs r0]|] eqn:Hp; [|done]. injection H as <- <-.
      pose proof (parse_string_body_length _ _ _ Hp). split; [lia|]. intros f Hf.
      by rewrite Hsame. }
    pose proof (skip_space_length s1) as Hlen1.
    destruct (N.eqb c 91).
    { destruct (expect 93 (skip_space s1)) as [r0|] eqn:Hexp.
      - injection H as <- <-. pose proof (expect_length _ _ _ Hexp).
        split; [lia|]. intros f Hf. by rewrite Hsame.
      - destruct (parse_elements F s1) as [[vs r0]|] eqn:Hp; [|done]. injection H as <- <-.
        destruct (IHe _ _ _ Hp) as [Hr Hf0]. split; [lia|]. intros f Hf.
        rewrite Hsame by done. by rewrite Hf0 by lia. }
    destruct (N.eqb c 123).
    { destruct (expect 125 (skip_space s1)) as [r0|] eqn:Hexp.
      - injection H as <- <-. pose proof (expect_length _ _ _ Hexp).
        split; [lia|]. intros f Hf. by rewrite Hsame.
      - destruct (parse_members F s1) as [[ms r0]|] eqn:Hp; [|done]. injection H as <- <-.
        destruct (IHm _ _ _ Hp) as [Hr Hf0]. split; [lia|]. intros f Hf.
        rewrite Hsame by done. by rewrite Hf0 by lia. }
    pose proof (parse_number_length _ _ _ H) as Hn. simpl in Hn.
    split; [lia|]. intros f Hf. by rewrite Hsame.
  - intros s vs r H. rewrite parse_elements_unfold in H.
    destruct (parse_value F s) as [[v r0]|] eqn:Hv; [|done].
    cbn [mbind option_bind] in H.
    destruct (IHv _ _ _ Hv) as [Hr0 Hfv].
    pose proof (skip_space_length r0) as Hlen.
    destruct (expect 44 (skip_space r0)) as [r1|] eqn:Hcomma.
    + destruct (parse_elements F r1) as [[vs' r2]|] eqn:Hrest; [|done].
      injection H as <- <-. pose proof (expect_length _ _ _ Hcomma).
      destruct (IHe _ _ _ Hrest) as [Hr2 Hfe]. split; [lia|].
      intros [|f] Hf; [lia|]. rewrite parse_elements_unfold, Hfv by lia.
      cbn [mbind option_bind]. rewrite Hcomma, Hfe by lia. done.
    + destruct (expect 93 (skip_space r0)) as [r1|] eqn:Hclose; [|done].
      injection H as <- <-. pose proof (expect_length _ _ _ Hclose). split; [lia|].
      intros [|f] Hf; [lia|]. rewrite parse_elements_unfold, Hfv by lia.
      cbn [mbind option_bind]. by rewrite Hcomma, Hclose.
  - intros s ms r H. rewrite parse_members_unfold in H.
    pose proof (skip_space_length s) as Hlen.
    destruct (expect 34 (skip_space s)) as [s1|] eqn:Hquote; [|done].
    cbn [mbind option_bind] in H.
    destruct (parse_string_body s1) as [[k r0]|] eqn:Hkey; [|done].
    cbn [mbind option_bind] in H.
    pose proof (skip_space_length r0) as Hlen0.
    destruct (expect 58 (skip_space r0)) as [r1|] eqn:Hcolon; [|done].
    cbn [mbind option_bind] in H.
    destruct (parse_value F r1) as [[v r2]|] eqn:Hv; [|done].
    cbn [mbind option_bind] in H.
    pose proof (expect_length _ _ _ Hquote).
    pose proof (expect_length _ _ _ Hcolon).
    pose proof (parse_string_body_length _ _ _ Hkey).
    destruct (IHv _ _ _ Hv) as [Hr2 Hfv].
    pose proof (skip_space_length r2) as Hlen2.
    destruct (expect 44 (skip_space r2)) as [r3|] eqn:Hcomma.
    + destruct (parse_members F r3) as [[ms' r4]|] eqn:Hrest; [|done].
      injection H as <- <-. pose proof (expect_length _ _ _ Hcomma).
      destruct (IHm _ _ _ Hrest) as [Hr4 Hfm]. split; [lia|].
      intros [|f] Hf; [lia|]. rewrite parse_members_unfold, Hquote.
      cbn [mbind option_bind]. rewrite Hkey. cbn [mbind option_bind].
      rewrite Hcolon. cbn [mbind option_bind]. rewrite Hfv by lia.
      cbn [mbind option_bind]. rewrite Hcomma, Hfm by lia. done.
    + destruct (expect 125 (skip_space r2)) as [r3|] eqn:Hclose; [|done].
      injection H as <- <-. pose proof (expect_length _ _ _ Hclose). split; [lia|].
      intros [|f] Hf; [lia|]. rewrite parse_members_unfold, Hquote.
      cbn [mbind option_bind]. rewrite Hkey. cbn [mbind option_bind].
      rewrite Hcolon. cbn [mbind option_bind]. rewrite Hfv by lia.
      cbn [mbind option_bind]. by rewrite Hcomma, Hclose.
Qed.

(** The fuel [JSON.parse] gives its parser is enough: whatever a
    larger amount of fuel would accept, [JSON.parse] accepts. *)
Lemma parse_fuel_enough fuel s v r :
  parse_value fuel s = Some (v, r) -> skip_space r = [] -> parse s = Some v.
Proof.
  intros Hparse Hrest. unfold parse.
  destruct (parse_fuel_adequate fuel) as (Hv & _ & _).
  destruct (Hv _ _ _ Hparse) as [_ Hfuel].
  by rewrite Hfuel, Hrest by lia.
Qed.

(** ** Extraction of the payload *)

Lemma drop_while_app_stop p a c b :
  p c = false -> drop_while p (a ++ c :: b) = drop_while p a ++ c :: b.
Proof.
  intros Hc. induction a as [|x a IH]; simpl; [by rewrite Hc|].
  by destruct (p x).
Qed.




Lemma opener_facts c :
  is_opener c = true ->
  is_space c = false /\ is_fence_head c = false /\ is_closer c = false.
Proof.
  unfold is_opener. intros [H|H]%orb_true_iff; apply N.eqb_eq in H; by subst.
Qed.

Lemma closer_facts d :
  is_closer d = true ->
  is_space d = false /\ is_fence_tail d = false /\ is_opener d = false.
Proof.
  unfold is_closer. intros [H|H]%orb_true_iff; apply N.eqb_eq in H; by subst.
Qed.

Ltac list_norm := repeat (rewrite <- ?List.app_assoc; cbn [app]).


Lemma indexOf_range c s : indexOf c s = -1 \/ 0 <= indexOf c s.
Proof.
  induction s as [|d s IH]; simpl; [by left|].
  destruct (N.eqb d c); [right; lia|].
  destruct (Z.eqb_spec (indexOf c s) (-1)); [by left|right; lia].
Qed.

Lemma indexOf_app_absent c a s :
  forallb (fun d => negb (N.eqb d c)) a = true ->
  indexOf c (a ++ s) =
  if indexOf c s =? -1 then -1 else Z.of_nat (length a) + indexOf c s.
Proof.
  intros Ha. induction a as [|x a IH]; simpl.
  - destruct (Z.eqb_spec (indexOf c s) (-1)); lia.
  - simpl in Ha. apply andb_true_iff in Ha as [Hx Ha]. apply negb_true_iff in Hx.
    rewrite Hx, (IH Ha).
    pose proof (indexOf_range c s) as Hr.
    destruct (Z.eqb_spec (indexOf c s) (-1)); [done|].
    destruct (Z.eqb_spec (Z.of_nat (length a) + indexOf c s) (-1)); lia.
Qed.

Lemma indexOf_head c s : indexOf c (c :: s) = 0.
Proof. simpl. by rewrite N.eqb_refl. Qed.

Lemma lastIndexOf_range c s : -1 <= lastIndexOf c s < Z.of_nat (length s).
Proof.
  induction s as [|d s IH]; simpl; [lia|].
  destruct (Z.eqb_spec (lastIndexOf c s) (-1)); [destruct (N.eqb d c)|]; lia.
Qed.

Lemma lastIndexOf_app_absent c s b :
  forallb (fun d => negb (N.eqb d c)) b = true ->
  lastIndexOf c (s ++ b) = lastIndexOf c s.
Proof.
  intros Hb. induction s as [|x s IH]; simpl.
  - induction b as [|y b IHb]; simpl; [done|].
    simpl in Hb. apply andb_true_iff in Hb as [Hy Hb]. apply negb_true_iff in Hy.
    by rewrite (IHb Hb), Hy.
  - by rewrite IH.
Qed.

Lemma lastIndexOf_snoc c s : lastIndexOf c (s ++ [c]) = Z.of_nat (length s).
Proof.
  induction s as [|x s IH]; simpl; [by rewrite N.eqb_refl|].
  rewrite IH. destruct (Z.eqb_spec (Z.of_nat (length s)) (-1)); lia.
Qed.

(** The first opening character and the last closing character of a
    text that surrounds the payload are those of the payload. *)
Lemma payload_bounds A c mid d B :
  forallb (fun x => negb (is_opener x)) A = true ->
  forallb (fun x => negb (is_closer x)) B = true ->
  is_opener c = true -> is_closer d = true ->
  let jsonStr := A ++ (c :: mid ++ [d]) ++ B in
  let firstBracket := indexOf (ch "[") jsonStr in
  let firstBrace := indexOf (ch "{") jsonStr in
  let start :=
    if firstBracket =? -1 then firstBrace
    else if firstBrace =? -1 then firstBracket
    else Z.min firstBracket firstBrace in
  let end_ := Z.max (lastIndexOf (ch "]") jsonStr) (lastIndexOf (ch "}") jsonStr) in
  start = Z.of_nat (length A) /\
  end_ = Z.of_nat (length A + length mid + 1).
Proof.
  intros HA HB Hc Hd. cbv zeta. split.
  - assert (HA1 : forallb (fun x => negb (N.eqb x (ch "["))) A = true).
    { eapply forallb_forall. intros x Hx. eapply forallb_forall in HA; [|exact Hx].
      unfold is_opener in HA. apply negb_true_iff, orb_false_iff in HA as [_ H].
      by rewrite H. }
    assert (HA2 : forallb (fun x => negb (N.eqb x (ch "{"))) A = true).
    { eapply forallb_forall. intros x Hx. eapply forallb_forall in HA; [|exact Hx].
      unfold is_opener in HA. apply negb_true_iff, orb_false_iff in HA as [H _].
      by rewrite H. }
    rewrite (indexOf_app_absent (ch "[") A), (indexOf_app_absent (ch "{") A) by done.
    pose proof (indexOf_range (ch "[") ((c :: mid ++ [d]) ++ B)) as R1.
    pose proof (indexOf_range (ch "{") ((c :: mid ++ [d]) ++ B)) as R2.
    assert (E : indexOf (ch "{") ((c :: mid ++ [d]) ++ B) = 0 \/
                indexOf (ch "[") ((c :: mid ++ [d]) ++ B) = 0).
    { unfold is_opener in Hc. apply orb_true_iff in Hc as [Hc|Hc]; apply N.eqb_eq in Hc;
        rewrite Hc; [left|right]; apply indexOf_head. }
    generalize dependent (indexOf (ch "{") ((c :: mid ++ [d]) ++ B)).
    generalize dependent (indexOf (ch "[") ((c :: mid ++ [d]) ++ B)).
    intros i Hi j Hj E.
    destruct (Z.eqb_spec i (-1)); destruct (Z.eqb_spec j (-1)); simpl;
      repeat (match goal with
              | |- context [?a =? ?b] => destruct (Z.eqb_spec a b)
              end); lia.
  - assert (HB1 : forallb (fun x => negb (N.eqb x (ch "]"))) B = true).
    { eapply forallb_forall. intros x Hx. eapply forallb_forall in HB; [|exact Hx].
      unfold is_closer in HB. apply negb_true_iff, orb_false_iff in HB as [_ H].
      by rewrite H. }
    assert (HB2 : forallb (fun x => negb (N.eqb x (ch "}"))) B = true).
    { eapply forallb_forall. intros x Hx. eapply forallb_forall in HB; [|exact Hx].
      unfold is_closer in HB. apply negb_true_iff, orb_false_iff in HB as [H _].
      by rewrite H. }
    replace (A ++ (c :: mid ++ [d]) ++ B) with (((A ++ c :: mid) ++ [d]) ++ B)
      by (by list_norm).
    rewrite (lastIndexOf_app_absent (ch "]") _ B), (lastIndexOf_app_absent (ch "}") _ B)
      by done.
    pose proof (lastIndexOf_range (ch "]") ((A ++ c :: mid) ++ [d])) as R1.
    pose proof (lastIndexOf_range (ch "}") ((A ++ c :: mid) ++ [d])) as R2.
    assert (E : lastIndexOf (ch "}") ((A ++ c :: mid) ++ [d])
                  = Z.of_nat (length (A ++ c :: mid)) \/
                lastIndexOf (ch "]") ((A ++ c :: mid) ++ [d])
                  = Z.of_nat (length (A ++ c :: mid))).
    { unfold is_closer in Hd. apply orb_true_iff in Hd as [Hd|Hd]; apply N.eqb_eq in Hd;
        rewrite Hd; [left|right]; apply lastIndexOf_snoc. }
    repeat rewrite length_app in R1. repeat rewrite length_app in R2.
    repeat rewrite length_app in E. cbn [length] in R1, R2, E. lia.
Qed.

Lemma substring_payload A s B :
  substring (Z.of_nat (length A)) (Z.of_nat (length A + length s)) (A ++ s ++ B) = s.
Proof.
  unfold substring, clamp_index. rewrite !length_app.
  replace (Z.to_nat (Z.min (Z.max (Z.of_nat (length A)) 0)
                       (Z.of_nat (length A + (length s + length B)))))
    with (length A) by lia.
  replace (Z.to_nat (Z.min (Z.max (Z.of_nat (length A + length s)) 0)
                       (Z.of_nat (length A + (length s + length B)))))
    with (length A + length s)%nat by lia.
  rewrite Nat.min_l, Nat.max_r by lia.
  rewrite drop_app_length.
  replace (length A + length s - length A)%nat with (length s) by lia.
  by rewrite take_app_length.
Qed.

(** ** The repair of trailing commas *)

Lemma trailing_comma_match s res :
  Regex.exec trailing_comma_regex s = Some res -> has_trailing_comma s = true.
Proof.
  unfold Regex.exec.
  change (Regex.run trailing_comma_regex Regex.accept s [])
    with (Regex.run (Regex.Char (ch ","))
            (Regex.run (Regex.Star is_space)
               (Regex.run (Regex.Group 1 (Regex.Class is_closer)) Regex.accept)) s []).
  intros Hrun. destruct s as [|y s]; [done|].
  cbn [Regex.run] in Hrun.
  destruct (N.eqb_spec (ch ",") y) as [<-|]; [|done].
  apply star_greedy_sound in Hrun as (a & b & -> & Ha & Hrun).
  destruct b as [|x b]; [done|]. destruct (is_closer x) eqn:Hx; [|done].
  cbn [has_trailing_comma]. rewrite N.eqb_refl.
  destruct (closer_facts x Hx) as (Hsp & _).
  assert (Hdrop : drop_while is_space (a ++ x :: b) = x :: b).
  { rewrite drop_while_app_stop by done.
    clear -Ha. induction a as [|z a IH]; [done|]. simpl in *.
    apply andb_true_iff in Ha as [-> Ha]. by apply IH. }
  by rewrite Hdrop, Hx.
Qed.

Lemma replace_all_no_match fuel s :
  has_trailing_comma s = false ->
  Regex.replace_all_group1 trailing_comma_regex fuel s = s.
Proof.
  revert s. induction fuel as [|fuel IH]; intros s Hs; [done|].
  destruct s as [|y s]; [done|]. cbn [Regex.replace_all_group1].
  destruct (Regex.exec trailing_comma_regex (y :: s)) as [res|] eqn:Hexec.
  - apply trailing_comma_match in Hexec. congruence.
  - f_equal. apply IH. cbn [has_trailing_comma] in Hs.
    by apply orb_false_iff in Hs as [_ Hs].
Qed.

Lemma remove_trailing_commas_clean s :
  has_trailing_comma s = false -> remove_trailing_commas s = s.
Proof. apply replace_all_no_match. Qed.




(** The same value in a bare fence, and on its own, evaluated. *)
Example fenced_outline :
  parseJsonResponse (Some (fenced (str "json") (stringify sample_outline)))
    = Ret (Some sample_outline).
Proof. vm_compute. reflexivity. Qed.

Example bare_outline :
  parseJsonResponse (Some (stringify sample_outline)) = Ret (Some sample_outline).
Proof. vm_compute. reflexivity. Qed.

(** Trailing commas are repaired (section 8 of the specification). *)
Example trailing_commas_repaired :
  parseJsonResponse (Some (str "[1,2,3,]")) = Ret (Some (JArr [JNum 1; JNum 2; JNum 3])) /\
  parseJsonResponse (Some (qstr "{'a':1,}")) = Ret (Some (JObj [(str "a", JNum 1)])).
Proof. split; vm_compute; reflexivity. Qed.


(** ** The retry wrapper: schedule and edge cases *)




(** X2.  With no attempt allowed ([maxRetries <= 0]) the wrapped
    operation is never invoked, not even once: the call fails with the
    error raised after the loop and leaves no trace. *)
Theorem callApiWithRetry_nonpositive {T} (apiCall : M T) (maxRetries : Z) (w : World) :
  maxRetries <= 0 ->
  callApiWithRetry apiCall maxRetries w = (Throw max_retries_error, w) /\
  message max_retries_error = str "API call failed after maximum retries.".
Proof.
  intros Hmax. split; [|done]. unfold callApiWithRetry. apply retry_loop_exit. lia.
Qed.

Lemma callApiWithRetry_nonpositive_witness :
  callApiWithRetry (generateContent (scripted [Ret (Some (str "fine"))] (Throw error_500))) 0
    initial_world = (Throw max_retries_error, initial_world) /\
  message max_retries_error = str "API call failed after maximum retries.".
Proof.
  apply (callApiWithRetry_nonpositive
           (generateContent (scripted [Ret (Some (str "fine"))] (Throw error_500))) 0
           initial_world).
  lia.
Defined.

(** The requests of a run of the loop: one per invocation. *)
Lemma retry_loop_requests {T} (apiCall : M T) maxRetries fuel attempt w :
  single_request apiCall ->
  (requests (snd (retry_loop apiCall maxRetries fuel attempt w))
   <= requests w + Z.to_nat (maxRetries - attempt))%nat.
Proof.
  intros Hone. revert attempt w. induction fuel as [|fuel IH]; intros attempt w.
  { simpl. lia. }
  destruct (Z.lt_ge_cases attempt maxRetries) as [Hlt|Hge].
  2:{ rewrite retry_loop_exit by done. simpl. lia. }
  rewrite retry_loop_step by done.
  pose proof (Hone (invoked w)) as Hreq.
  destruct (apiCall (invoked w)) as [[v|error] w1]; simpl in *; [lia|].
  destruct (isServerError error && (attempt + 1 <? maxRetries)) eqn:Hretry; simpl; [|lia].
  apply andb_true_iff in Hretry as [_ Hlt'%Z.ltb_lt].
  specialize (IH (attempt + 1) (slept (1000 * (attempt + 1)) w1)). simpl in IH. lia.
Qed.

(** A success after [k] transient faults: the loop pauses [k] times and
    returns what the [k+1]-th request yields. *)
Lemma retry_loop_recovers env maxRetries k :
  forall fuel attempt w text,
    attempt + Z.of_nat k < maxRetries ->
    (k < fuel)%nat ->
    transient_failures env w k ->
    remote env (requests w + k) = Ret text ->
    exists t w',
      retry_loop (generateContent env) maxRetries fuel attempt w = (Ret text, w') /\
      requests w' = S (requests w + k) /\
      ids w' = ids w /\
      trace w' = trace w ++ t /\
      requests_sent t = S k /\
      invocations t = S k /\
      delays t = map (fun i => 1000 * (attempt + Z.of_nat i)) (seq 1 k).
Proof.
  induction k as [|k IH]; intros fuel attempt w text Hlt Hfuel Hfail Hok.
  - destruct fuel as [|fuel]; [lia|]. rewrite retry_loop_step by lia.
    rewrite Nat.add_0_r in Hok.
    unfold generateContent at 1. simpl. rewrite Hok.
    exists [Invoke; Request]. eexists. split; [done|]. simpl.
    rewrite Nat.add_0_r, <- app_assoc. done.
  - destruct fuel as [|fuel]; [lia|]. rewrite retry_loop_step by lia.
    destruct (Hfail 0%nat) as (e & He & Hserver); [lia|]. rewrite Nat.add_0_r in He.
    apply isServerError_spec in Hserver.
    unfold generateContent at 1. simpl. rewrite He, Hserver. simpl.
    assert ((attempt + 1 <? maxRetries) = true) as -> by lia.
    match goal with
    | |- context [retry_loop _ _ _ _ ?w1] =>
        destruct (IH fuel (attempt + 1) w1 text)
          as (t & w' & Hrun & Hreq & Hids & Htr & Hsent & Hinv & Hdel)
    end.
    + lia.
    + lia.
    + intros i Hi. simpl. destruct (Hfail (S i)) as (e' & He' & Hs'); [lia|].
      exists e'. split; [|done]. rewrite <- He'. f_equal. lia.
    + simpl. rewrite <- Hok. f_equal. lia.
    + exists ([Invoke; Request; Sleep (1000 * (attempt + 1))] ++ t), w'.
      rewrite Hrun. split; [done|]. simpl in *.
      split; [lia|]. split; [done|]. split.
      * rewrite Htr. rewrite <- !app_assoc. done.
      * split; [|split].
        -- unfold requests_sent in *. simpl. by rewrite Hsent.
        -- unfold invocations in *. simpl. by rewrite Hinv.
        -- rewrite Hdel. apply (f_equal (cons _)).
           rewrite <- (seq_shift k 1), map_map. apply map_ext. intros i. f_equal. lia.
Qed.

(** ** [getDeeperExplanation] *)

(** X3.  [getDeeperExplanation] recovers from transient faults: when the
    first [k < 3] requests fail with a transient server fault and the next
    one is answered, it returns the text of that answer after [k + 1]
    requests and pauses of 1000, ..., [1000 * k] milliseconds. *)
Theorem getDeeperExplanation_recovers env text w (k : nat) answer :
  initialized env ->
  (k < 3)%nat ->
  transient_failures env w k ->
  remote env (requests w + k) = Ret answer ->
  exists t w',
    getDeeperExplanation env text w = (Ret answer, w') /\
    trace w' = trace w ++ t /\
    requests_sent t = S k /\
    delays t = backoff k.
Proof.
  intros Hinit Hk Hfail Hok. unfold getDeeperExplanation.
  rewrite (bind_Ret _ _ _ _ _ (getAi_initialized env w Hinit)).
  destruct (retry_loop_recovers env 3 k (Z.to_nat 3) 0 w answer)
    as (t & w' & Hrun & _ & _ & Htr & Hsent & _ & Hdel); [lia|lia|done|done|].
  exists t, w'. unfold callApiWithRetry. erewrite try_catch_Ret by exact Hrun.
  split; [done|]. split; [done|]. split; [done|].
  rewrite Hdel. unfold backoff. apply map_ext. intros i. f_equal.
Qed.

Lemma getDeeperExplanation_recovers_witness :
  exists t w',
    getDeeperExplanation flaky (str "entropy") initial_world
      = (Ret (Some (str "An analogy: ...")), w') /\
    trace w' = trace initial_world ++ t /\
    requests_sent t = 3%nat /\
    delays t = backoff 2.
Proof.
  apply (getDeeperExplanation_recovers flaky (str "entropy") initial_world 2
           (Some (str "An analogy: ..."))).
  - done.
  - lia.
  - intros i Hi. exists error_500.
    split; [|by exists (str "got status: "), (str ". The service is currently unavailable.")].
    destruct i as [|[|i]]; [done|done|lia].
  - reflexivity.
Defined.

(** ** Failures are absorbed, requests are bounded *)

Lemma returns_ret {A} (a : A) w : returns (ret a) w.
Proof. by exists a, w. Qed.

Lemma returns_try_catch {A} (m : M A) h w :
  (forall e w1, returns (h e) w1) -> returns (try_catch m h) w.
Proof.
  intros Hh. unfold returns, try_catch.
  destruct (m w) as [[a|e] w1]; [by exists a, w1|]. apply Hh.
Qed.

Lemma returns_getAi {A} env (k : M A) w :
  initialized env -> returns k w -> returns (bind (getAi env) (fun _ => k)) w.
Proof.
  intros Hinit Hk. unfold returns.
  by rewrite (bind_Ret _ _ _ _ _ (getAi_initialized env w Hinit)).
Qed.

Lemma returns_questions_loop env fuel attempt w :
  returns (questions_loop env fuel attempt) w.
Proof.
  revert attempt w. induction fuel as [|fuel IH]; intros attempt w; [apply returns_ret|].
  cbn [questions_loop]. destruct (attempt <? 3); [|apply returns_ret].
  destruct (returns_try_catch
              (bind (generateContent env)
                 (fun text => bind (lift (parseJsonResponse text))
                    (fun rawBlocks =>
                       match rawBlocks with
                       | Some v =>
                           if truthy v
                           then bind (assignIdsToBlocks env v) (fun blocks => ret (Some blocks))
                           else ret None
                       | None => ret None
                       end)))
              (fun _ => ret None) w) as (r & w1 & Hr).
  { intros e w1. apply returns_ret. }
  fold (questions_attempt env) in Hr.
  unfold returns. unfold bind at 1. rewrite Hr.
  destruct r as [blocks|]; [apply returns_ret|].
  unfold bind at 1.
  destruct (attempt <? 2); apply IH.
Qed.

(** X4.  With a usable client, none of the functions below raises:
    whatever the remote model does, answers or fails, they return (a
    value, a fallback text, an empty list or [null]). *)
Theorem failures_absorbed env w :
  initialized env ->
  (forall text, returns (proofreadSinglePageText env text) w) /\
  (forall chapterText style, returns (summarizeChapterText env chapterText style) w) /\
  (forall pages, returns (analyzeDocumentStructure env pages) w) /\
  (forall chapterText chapter, returns (analyzeChapterForLessons env chapterText chapter) w) /\
  (forall pdfText lessonPages, returns (generateInteractiveLesson env pdfText lessonPages) w) /\
  (forall lessonText, returns (generateInitialQuestions env lessonText) w) /\
  (forall userAnswers allQuestions, returns (getFeedbackOnAnswers env userAnswers allQuestions) w) /\
  (forall incorrectAnswers, returns (getAiCorrections env incorrectAnswers) w) /\
  (forall lessonText existingQuestions,
     returns (generateMoreQuestions env lessonText existingQuestions) w) /\
  (forall text, returns (getDeeperExplanation env text) w) /\
  (forall base64Image mimeType, returns (extractTextFromImage env base64Image mimeType) w) /\
  (forall context query, returns (searchWithinDocument env context query) w) /\
  (forall bookTitles, returns (categorizeBooks env bookTitles) w).
Proof.
  intros Hinit.
  repeat split; intros.
  - apply returns_getAi; [done|]. destruct (blank _); [apply returns_ret|].
    apply returns_try_catch. intros. apply returns_ret.
  - apply returns_getAi; [done|]. destruct (blank _); [apply returns_ret|].
    apply returns_try_catch. intros. apply returns_ret.
  - apply returns_getAi; [done|]. apply returns_try_catch. intros e w1.
    unfold returns, full_document, bind, generateUniqueId, ret. simpl. by eexists _, _.
  - apply returns_getAi; [done|]. apply returns_try_catch. intros. apply returns_ret.
  - apply returns_getAi; [done|]. apply returns_try_catch. intros. apply returns_ret.
  - apply returns_getAi; [done|]. apply returns_questions_loop.
  - apply returns_getAi; [done|]. cbv zeta.
    destruct (length (qaPairsForAI _ _) =? 0)%nat; [apply returns_ret|].
    apply returns_try_catch. intros. apply returns_ret.
  - apply returns_getAi; [done|].
    destruct (length _ =? 0)%nat; [apply returns_ret|].
    apply returns_try_catch. intros. apply returns_ret.
  - apply returns_getAi; [done|]. apply returns_try_catch. intros. apply returns_ret.
  - apply returns_getAi; [done|]. apply returns_try_catch. intros. apply returns_ret.
  - apply returns_getAi; [done|]. apply returns_try_catch. intros. apply returns_ret.
  - apply returns_getAi; [done|]. apply returns_try_catch. intros. apply returns_ret.
  - apply returns_getAi; [done|].
    destruct (length _ =? 0)%nat; [apply returns_ret|].
    apply returns_try_catch. intros. apply returns_ret.
Qed.

Lemma offline_ret {A} (a : A) : offline (ret a).
Proof. by intros w. Qed.

Lemma offline_throw {A} e : offline (@throw A e).
Proof. by intros w. Qed.

Lemma offline_lift {A} (o : outcome A) : offline (lift o).
Proof. by intros w. Qed.

Lemma offline_generateUniqueId env : offline (generateUniqueId env).
Proof. by intros w. Qed.

Lemma offline_sleep ms : offline (sleep ms).
Proof. by intros w. Qed.

Lemma offline_getAi env : offline (getAi env).
Proof.
  intros w. unfold getAi.
  destruct (aiInitializationError env); [done|]. by destruct (ai env).
Qed.

Lemma offline_untyped_path env v : offline (untyped_path env v).
Proof. intros w. unfold untyped_path. by destruct (untyped_chapters env v (ids w)). Qed.

Lemma offline_bind {A B} (m : M A) (f : A -> M B) :
  offline m -> (forall a, offline (f a)) -> offline (bind m f).
Proof.
  intros Hm Hf w. unfold bind. specialize (Hm w).
  destruct (m w) as [[a|e] w1]; simpl in *; [|done].
  rewrite <- Hm. apply Hf.
Qed.

Lemma offline_mapM {A B} (f : A -> M B) l :
  (forall a, offline (f a)) -> offline (mapM f l).
Proof.
  intros Hf. induction l as [|a l IH]; [apply offline_ret|].
  cbn [mapM]. apply offline_bind; [apply Hf|]. intros b.
  apply offline_bind; [apply IH|]. intros bs. apply offline_ret.
Qed.

Ltac offline :=
  repeat first
    [ apply offline_ret | apply offline_throw | apply offline_lift
    | apply offline_generateUniqueId | apply offline_sleep | apply offline_getAi
    | apply offline_untyped_path | apply offline_bind | apply offline_mapM
    | match goal with
      | |- forall _, offline _ => intro
      | |- offline (match ?x with _ => _ end) => destruct x
      end ].

Lemma single_request_generateContent env : single_request (generateContent env).
Proof. by intros w. Qed.

Lemma single_request_bind env {A} (f : option jsstring -> M A) :
  (forall r, offline (f r)) -> single_request (bind (generateContent env) f).
Proof.
  intros Hf w. unfold bind, generateContent.
  destruct (remote env (requests w)) as [r|e]; [|done].
  by rewrite Hf.
Qed.

Lemma within_budget_offline {A} (m : M A) n : offline m -> within_budget m n.
Proof. intros Hm w. rewrite Hm. lia. Qed.

Lemma within_budget_bind_offline {A B} (m : M A) (f : A -> M B) n :
  within_budget m n -> (forall a, offline (f a)) -> within_budget (bind m f) n.
Proof.
  intros Hm Hf w. unfold bind. specialize (Hm w).
  destruct (m w) as [[a|e] w1]; simpl in *; [|done]. by rewrite Hf.
Qed.

Lemma within_budget_try_catch {A} (m : M A) h n :
  within_budget m n -> (forall e, offline (h e)) -> within_budget (try_catch m h) n.
Proof.
  intros Hm Hh w. unfold try_catch. specialize (Hm w).
  destruct (m w) as [[a|e] w1]; simpl in *; [done|]. by rewrite Hh.
Qed.

Lemma within_budget_getAi env {A} (k : M A) n :
  within_budget k n -> within_budget (bind (getAi env) (fun _ => k)) n.
Proof.
  intros Hk w. unfold bind. pose proof (offline_getAi env w) as Hai.
  destruct (getAi env w) as [[[]|e] w1]; simpl in *; [|lia].
  rewrite <- Hai. apply Hk.
Qed.

Lemma within_budget_retry {T} (apiCall : M T) :
  single_request apiCall -> within_budget (callApiWithRetry apiCall 3) 3.
Proof.
  intros Hone w. unfold callApiWithRetry.
  pose proof (retry_loop_requests apiCall 3 (Z.to_nat 3) 0 w Hone). lia.
Qed.

Lemma single_request_questions_attempt env : single_request (questions_attempt env).
Proof.
  intros w. unfold questions_attempt, try_catch.
  match goal with
  | |- context [bind (generateContent env) ?f] =>
      pose proof (single_request_bind env f) as Hone
  end.
  lapply Hone; [clear Hone; intros Hone|].
  - specialize (Hone w). cbv beta in *.
    match goal with
    | |- context [match ?x with _ => _ end] => destruct x as [[a|e] w1]
    end; done.
  - unfold assignIdsToBlocks, with_block_id. offline.
Qed.

Lemma within_budget_questions_loop env fuel attempt :
  within_budget (questions_loop env fuel attempt) fuel.
Proof.
  revert attempt. induction fuel as [|fuel IH]; intros attempt w; [simpl; lia|].
  cbn [questions_loop]. destruct (attempt <? 3); [|simpl; lia].
  unfold bind at 1. pose proof (single_request_questions_attempt env w) as Hone.
  destruct (questions_attempt env w) as [[[blocks|]|e] w1]; simpl in *; [lia| |lia].
  unfold bind at 1.
  destruct (attempt <? 2); simpl; specialize (IH (attempt + 1)).
  - match goal with |- context [questions_loop _ _ _ ?w2] => specialize (IH w2) end.
    simpl in IH. lia.
  - specialize (IH w1). lia.
Qed.

(** X5.  No call of a function of the service sends more than three
    requests to the remote model, whatever the model answers and however
    it fails. *)
Theorem three_requests_at_most env :
  (forall text, within_budget (proofreadSinglePageText env text) 3) /\
  (forall chapterText style, within_budget (summarizeChapterText env chapterText style) 3) /\
  (forall pages, within_budget (analyzeDocumentStructure env pages) 3) /\
  (forall chapterText chapter,
     within_budget (analyzeChapterForLessons env chapterText chapter) 3) /\
  (forall pdfText lessonPages,
     within_budget (generateInteractiveLesson env pdfText lessonPages) 3) /\
  (forall lessonText, within_budget (generateInitialQuestions env lessonText) 3) /\
  (forall userAnswers allQuestions,
     within_budget (getFeedbackOnAnswers env userAnswers allQuestions) 3) /\
  (forall incorrectAnswers, within_budget (getAiCorrections env incorrectAnswers) 3) /\
  (forall lessonText existingQuestions,
     within_budget (generateMoreQuestions env lessonText existingQuestions) 3) /\
  (forall text, within_budget (getDeeperExplanation env text) 3) /\
  (forall query filter, within_budget (searchForMaterials env query filter) 3) /\
  (forall base64Image mimeType,
     within_budget (extractTextFromImage env base64Image mimeType) 3) /\
  (forall context query, within_budget (searchWithinDocument env context query) 3) /\
  (forall bookTitles, within_budget (categorizeBooks env bookTitles) 3).
Proof.
  repeat split; intros.
  - apply within_budget_getAi. destruct (blank _).
    { apply within_budget_offline. offline. }
    apply within_budget_try_catch; [|offline]. apply within_budget_retry.
    apply single_request_bind. offline.
  - apply within_budget_getAi. destruct (blank _).
    { apply within_budget_offline. offline. }
    apply within_budget_try_catch; [|offline]. apply within_budget_retry.
    apply single_request_bind. offline.
  - apply within_budget_getAi. apply within_budget_try_catch.
    + apply within_budget_bind_offline; [|offline]. apply within_budget_retry.
      apply single_request_bind. intros r. unfold chapters_of_response, full_document, with_chapter_id.
      offline.
    + intros e. unfold full_document. offline.
  - apply within_budget_getAi. apply within_budget_try_catch; [|offline].
    apply within_budget_bind_offline; [|offline]. apply within_budget_retry.
    apply single_request_bind. intros r. unfold with_block_id. offline.
  - apply within_budget_getAi. apply within_budget_try_catch; [|offline].
    apply within_budget_retry.
    apply single_request_bind. intros r. unfold assignIdsToBlocks, with_block_id. offline.
  - apply within_budget_getAi. apply within_budget_questions_loop.
  - apply within_budget_getAi. cbv zeta.
    destruct (length (qaPairsForAI _ _) =? 0)%nat.
    { apply within_budget_offline. offline. }
    apply within_budget_try_catch; [|offline]. apply within_budget_retry.
    apply single_request_bind. intros r. unfold augment. offline.
  - apply within_budget_getAi. destruct (length _ =? 0)%nat.
    { apply within_budget_offline. offline. }
    apply within_budget_try_catch; [|offline]. apply within_budget_retry.
    apply single_request_bind. offline.
  - apply within_budget_getAi. apply within_budget_try_catch; [|offline].
    apply within_budget_retry.
    apply single_request_bind. intros r. unfold assignIdsToBlocks, with_block_id. offline.
  - apply within_budget_getAi. apply within_budget_try_catch; [|offline].
    apply within_budget_retry. apply single_request_generateContent.
  - apply within_budget_getAi. apply within_budget_try_catch.
    + apply within_budget_retry.
      apply single_request_bind. intros r. unfold source_of_line. offline.
    + intros e. destruct (includes _ _); offline.
  - apply within_budget_getAi. apply within_budget_try_catch; [|offline].
    apply within_budget_bind_offline; [|offline]. apply within_budget_retry.
    apply single_request_generateContent.
  - apply within_budget_getAi. apply within_budget_try_catch; [|offline].
    apply within_budget_retry. apply single_request_bind. offline.
  - apply within_budget_getAi. destruct (length _ =? 0)%nat.
    { apply within_budget_offline. offline. }
    apply within_budget_try_catch; [|offline]. apply within_budget_retry.
    apply single_request_bind. offline.
Qed.

(** ** [parseJsonResponse]: fences, repairs and edge cases *)

(** The function in three steps: fence, payload, decoding. *)
Lemma parseJsonResponse_steps text :
  parseJsonResponse (Some text) =
  match payload (unfence (trim text)) with
  | None => Ret None
  | Some jsonStr =>
      match JSON.parse (remove_trailing_commas jsonStr) with
      | Some v => Ret (Some v)
      | None => Ret None
      end
  end.
Proof.
  destruct text as [|c text]; [done|].
  unfold parseJsonResponse, payload, unfence. cbv zeta.
  repeat match goal with
         | |- context [if ?a =? ?b then _ else _] => destruct (a =? b)
         end; try done;
    unfold JSON_parse, try_catch_pure;
    match goal with
    | |- context [JSON.parse ?x] => by destruct (JSON.parse x)
    end.
Qed.

Lemma indexOf_bound c s : indexOf c s < Z.of_nat (length s) \/ s = [].
Proof.
  induction s as [|d s IH]; [by right|]. left. simpl.
  destruct (N.eqb d c); [lia|].
  destruct (Z.eqb_spec (indexOf c s) (-1)); [lia|].
  destruct IH as [IH| ->]; [lia|]. simpl in *. lia.
Qed.

Lemma indexOf_app_absent_r c s b :
  forallb (fun d => negb (N.eqb d c)) b = true -> indexOf c (s ++ b) = indexOf c s.
Proof.
  intros Hb. induction s as [|x s IH]; simpl.
  - by apply indexOf_absent.
  - by rewrite IH.
Qed.

Lemma lastIndexOf_absent c s :
  forallb (fun d => negb (N.eqb d c)) s = true -> lastIndexOf c s = -1.
Proof.
  induction s as [|d s IH]; simpl; [done|].
  intros [Hd Hs]%andb_true_iff. apply negb_true_iff in Hd. by rewrite (IH Hs), Hd.
Qed.

Lemma lastIndexOf_app_absent_l c a s :
  forallb (fun d => negb (N.eqb d c)) a = true ->
  lastIndexOf c (a ++ s) =
  if lastIndexOf c s =? -1 then -1 else Z.of_nat (length a) + lastIndexOf c s.
Proof.
  intros Ha. induction a as [|x a IH]; simpl.
  - destruct (Z.eqb_spec (lastIndexOf c s) (-1)); lia.
  - simpl in Ha. apply andb_true_iff in Ha as [Hx Ha]. apply negb_true_iff in Hx.
    rewrite (IH Ha), Hx.
    pose proof (lastIndexOf_range c s) as Hr.
    destruct (Z.eqb_spec (lastIndexOf c s) (-1)); [done|].
    destruct (Z.eqb_spec (Z.of_nat (length a) + lastIndexOf c s) (-1)); lia.
Qed.

Lemma bracket_free_char (c : N) s :
  is_bracket c = true ->
  forallb (fun x => negb (is_bracket x)) s = true ->
  forallb (fun d => negb (N.eqb d c)) s = true.
Proof.
  intros Hc Hs. apply forallb_forall. intros x Hx.
  eapply forallb_forall in Hs; [|exact Hx].
  apply negb_true_iff. apply negb_true_iff in Hs.
  destruct (N.eqb_spec x c) as [->|]; [congruence|done].
Qed.

Lemma substring_shift A s B i j :
  0 <= i <= Z.of_nat (length s) ->
  0 <= j <= Z.of_nat (length s) ->
  substring (Z.of_nat (length A) + i) (Z.of_nat (length A) + j) (A ++ s ++ B)
  = substring i j s.
Proof.
  intros Hi Hj. unfold substring, clamp_index. rewrite !length_app.
  replace (Z.to_nat (Z.min (Z.max (Z.of_nat (length A) + i) 0)
                       (Z.of_nat (length A + (length s + length B)))))
    with (length A + Z.to_nat i)%nat by lia.
  replace (Z.to_nat (Z.min (Z.max (Z.of_nat (length A) + j) 0)
                       (Z.of_nat (length A + (length s + length B)))))
    with (length A + Z.to_nat j)%nat by lia.
  replace (Z.to_nat (Z.min (Z.max i 0) (Z.of_nat (length s)))) with (Z.to_nat i) by lia.
  replace (Z.to_nat (Z.min (Z.max j 0) (Z.of_nat (length s)))) with (Z.to_nat j) by lia.
  set (a := Z.to_nat i). set (b := Z.to_nat j).
  replace (Nat.min (length A + a) (length A + b)) with (length A + Nat.min a b)%nat by lia.
  replace (Nat.max (length A + a) (length A + b) - (length A + Nat.min a b))%nat
    with (Nat.max a b - Nat.min a b)%nat by lia.
  rewrite drop_app_ge by lia.
  replace (length A + Nat.min a b - length A)%nat with (Nat.min a b) by lia.
  rewrite drop_app_le by lia.
  rewrite take_app_le; [done|]. rewrite length_drop. lia.
Qed.

(** Text without braces and brackets around a text does not change
    what is extracted from it. *)
Lemma payload_affix A s B :
  forallb (fun x => negb (is_bracket x)) A = true ->
  forallb (fun x => negb (is_bracket x)) B = true ->
  payload (A ++ s ++ B) = payload s.
Proof.
  intros HA HB. unfold payload. cbv zeta.
  rewrite !(indexOf_app_absent _ A) by (by apply bracket_free_char).
  rewrite !(indexOf_app_absent_r _ s B) by (by apply bracket_free_char).
  replace (A ++ s ++ B) with ((A ++ s) ++ B) by (by rewrite <- app_assoc).
  rewrite !(lastIndexOf_app_absent _ (A ++ s) B) by (by apply bracket_free_char).
  rewrite !(lastIndexOf_app_absent_l _ A s) by (by apply bracket_free_char).
  rewrite <- app_assoc.
  pose proof (indexOf_range (ch "[") s) as R1.
  pose proof (indexOf_range (ch "{") s) as R2.
  pose proof (indexOf_bound (ch "[") s) as U1.
  pose proof (indexOf_bound (ch "{") s) as U2.
  pose proof (lastIndexOf_range (ch "]") s) as R3.
  pose proof (lastIndexOf_range (ch "}") s) as R4.
  destruct s as [|y s'] eqn:Hs.
  { simpl. done. }
  rewrite <- Hs in *.
  assert (Hlen : 0 < Z.of_nat (length s)) by (rewrite Hs; simpl; lia).
  destruct U1 as [U1|U1]; [|rewrite U1 in Hs; done].
  destruct U2 as [U2|U2]; [|rewrite U2 in Hs; done].
  generalize dependent (indexOf (ch "[") s). intros i1 R1 U1.
  generalize dependent (indexOf (ch "{") s). intros i2 R2 U2.
  generalize dependent (lastIndexOf (ch "]") s). intros j1 R3.
  generalize dependent (lastIndexOf (ch "}") s). intros j2 R4.
  set (start := if i1 =? -1 then i2 else if i2 =? -1 then i1 else Z.min i1 i2).
  set (end_ := Z.max j1 j2).
  assert (Hstart :
    (if (if i1 =? -1 then -1 else Z.of_nat (length A) + i1) =? -1
     then if i2 =? -1 then -1 else Z.of_nat (length A) + i2
     else if (if i2 =? -1 then -1 else Z.of_nat (length A) + i2) =? -1
          then if i1 =? -1 then -1 else Z.of_nat (length A) + i1
          else Z.min (if i1 =? -1 then -1 else Z.of_nat (length A) + i1)
                     (if i2 =? -1 then -1 else Z.of_nat (length A) + i2))
    = if start =? -1 then -1 else Z.of_nat (length A) + start).
  { subst start.
    destruct (Z.eqb_spec i1 (-1)); destruct (Z.eqb_spec i2 (-1));
    repeat match goal with
           | |- context [?a =? ?b] => destruct (Z.eqb_spec a b)
           end; lia. }
  assert (Hend :
    Z.max (if j1 =? -1 then -1 else Z.of_nat (length A) + j1)
          (if j2 =? -1 then -1 else Z.of_nat (length A) + j2)
    = if end_ =? -1 then -1 else Z.of_nat (length A) + end_).
  { subst end_.
    destruct (Z.eqb_spec j1 (-1)); destruct (Z.eqb_spec j2 (-1));
    repeat match goal with
           | |- context [?a =? ?b] => destruct (Z.eqb_spec a b)
           end; lia. }
  rewrite Hstart, Hend.
  assert (Hs1 : start = -1 \/ 0 <= start < Z.of_nat (length s)).
  { subst start.
    repeat match goal with
           | |- context [?a =? ?b] => destruct (Z.eqb_spec a b)
           end; lia. }
  assert (He1 : -1 <= end_ < Z.of_nat (length s)) by (subst end_; lia).
  clearbody start end_.
  destruct (Z.eqb_spec start (-1)) as [->|Hne]; [done|].
  destruct (Z.eqb_spec (Z.of_nat (length A) + start) (-1)); [lia|].
  destruct (Z.eqb_spec end_ (-1)) as [->|Hne2]; [done|].
  destruct (Z.eqb_spec (Z.of_nat (length A) + end_) (-1)); [lia|].
  f_equal. rewrite <- Z.add_assoc. apply substring_shift; lia.
Qed.

Lemma drop_while_decompose p s :
  exists a, s = a ++ drop_while p s /\ forallb p a = true.
Proof.
  induction s as [|c s (a & Hs & Ha)]; [by exists []|]. simpl.
  destruct (p c) eqn:Hc; [|by exists []].
  exists (c :: a). simpl. rewrite Hc. split; [by f_equal|done].
Qed.

Lemma trim_decompose s :
  exists a b,
    s = a ++ trim s ++ b /\ forallb is_space a = true /\ forallb is_space b = true.
Proof.
  destruct (drop_while_decompose is_space s) as (a & Hs & Ha).
  destruct (drop_while_decompose is_space (rev (trimStart s))) as (b & Hr & Hb).
  exists a, (rev b). split; [|split; [done|by rewrite forallb_rev]].
  unfold trim, trimEnd. rewrite <- rev_app_distr, <- Hr, rev_involutive. exact Hs.
Qed.

Lemma space_not_bracket s :
  forallb is_space s = true -> forallb (fun x => negb (is_bracket x)) s = true.
Proof.
  intros Hs. apply forallb_forall. intros x Hx.
  eapply forallb_forall in Hs; [|exact Hx].
  unfold is_bracket. destruct (is_opener x) eqn:Ho.
  { destruct (opener_facts x Ho) as [E _]. congruence. }
  destruct (is_closer x) eqn:Hc; [|done].
  destruct (closer_facts x Hc) as [E _]. congruence.
Qed.

Lemma fence_not_bracket (P : N -> bool) s :
  (forall x, P x = true -> is_fence_head x = true) ->
  forallb P s = true -> forallb (fun x => negb (is_bracket x)) s = true.
Proof.
  intros HP Hs. apply forallb_forall. intros x Hx.
  eapply forallb_forall in Hs; [|exact Hx]. apply HP in Hs.
  unfold is_bracket. destruct (is_opener x) eqn:Ho.
  { destruct (opener_facts x Ho) as (_ & E & _). congruence. }
  destruct (is_closer x) eqn:Hc; [|done].
  destruct (closer_facts x Hc) as (_ & E & _).
  unfold is_fence_head, is_fence_tail in *.
  apply orb_false_iff in E as [E1 E2]. rewrite E1, E2 in Hs. simpl in Hs.
  unfold is_closer in Hc. apply orb_true_iff in Hc as [Hc|Hc]; apply N.eqb_eq in Hc;
    by subst.
Qed.

Lemma payload_trim s : payload (trim s) = payload s.
Proof.
  destruct (trim_decompose s) as (a & b & Hs & Ha & Hb).
  transitivity (payload (a ++ trim s ++ b)); [|by rewrite <- Hs].
  symmetry. by apply payload_affix; apply space_not_bracket.
Qed.

(** Whatever the fence pattern matches, what is extracted afterwards is
    what would be extracted from the whole text. *)
Lemma payload_unfence s : payload (unfence s) = payload s.
Proof.
  unfold unfence.
  destruct (fenceMatch s) as [m|] eqn:Hm; [|done].
  destruct (Regex.capture 2 m) as [[|y inner]|] eqn:Hcap; [done| |done].
  destruct (fenceMatch_shape _ m (y :: inner) Hm Hcap) as (head & tail & Heq & Hhead & Htail).
  rewrite payload_trim.
  transitivity (payload (head ++ (y :: inner) ++ tail)); [|by rewrite <- Heq].
  symmetry. apply payload_affix.
  - by apply (fence_not_bracket is_fence_head).
  - apply (fence_not_bracket is_fence_tail); [|done].
    intros x. unfold is_fence_tail, is_fence_head.
    intros [H|H]%orb_true_iff; rewrite H; [done|]. by rewrite !orb_true_r.
Qed.

(** The function without the first two steps. *)
Lemma parseJsonResponse_payload text :
  parseJsonResponse (Some text) =
  match payload text with
  | None => Ret None
  | Some jsonStr =>
      match JSON.parse (remove_trailing_commas jsonStr) with
      | Some v => Ret (Some v)
      | None => Ret None
      end
  end.
Proof. by rewrite parseJsonResponse_steps, payload_unfence, payload_trim. Qed.

Lemma parseJsonResponse_around pre text post :
  forallb (fun c => negb (is_bracket c)) pre = true ->
  forallb (fun c => negb (is_bracket c)) post = true ->
  parseJsonResponse (Some (pre ++ text ++ post)) = parseJsonResponse (Some text).
Proof.
  intros Hpre Hpost. rewrite !parseJsonResponse_payload. by rewrite payload_affix.
Qed.

(** X6.  What [parseJsonResponse] returns does not depend on the fence,
    on white space, or on any other text free of braces and brackets
    around the response: it is what it returns for the text in
    between. *)
Theorem parseJsonResponse_affix pre text post :
  forallb (fun c => negb (is_bracket c)) pre = true ->
  forallb (fun c => negb (is_bracket c)) post = true ->
  parseJsonResponse (Some (pre ++ text ++ post)) = parseJsonResponse (Some text).
Proof. apply parseJsonResponse_around. Qed.

Lemma parseJsonResponse_affix_witness :
  forallb (fun c => negb (is_bracket c)) chatty_intro = true /\
  forallb (fun c => negb (is_bracket c)) chatty_outro = true /\
  parseJsonResponse (Some (chatty_intro ++ qstr "{'a':[1,2],}" ++ chatty_outro))
  = parseJsonResponse (Some (qstr "{'a':[1,2],}")).
Proof.
  split; [reflexivity|]. split; [reflexivity|].
  apply (parseJsonResponse_affix chatty_intro (qstr "{'a':[1,2],}") chatty_outro);
    reflexivity.
Defined.

(** X7.  The removal of the fence and the trimming have no effect on
    the result of [parseJsonResponse]: it is, for every text, what
    decoding gives for the part of the text itself that goes from its
    first opening brace or bracket to its last closing one (after the
    repair of trailing commas), and [null] when there is no such
    part. *)
Theorem parseJsonResponse_fence_redundant text :
  parseJsonResponse (Some text) =
  match payload text with
  | None => Ret None
  | Some jsonStr =>
      match JSON.parse (remove_trailing_commas jsonStr) with
      | Some v => Ret (Some v)
      | None => Ret None
      end
  end.
Proof. apply parseJsonResponse_payload. Qed.

(** *** The repair of a trailing comma *)

Lemma star_greedy_complete p k a b r :
  forallb p a = true ->
  k b = Some r ->
  match b with [] => True | x :: _ => p x = false end ->
  Regex.star_greedy p k (a ++ b) = Some r.
Proof.
  intros Ha Hk Hb. induction a as [|y a IH]; simpl.
  - destruct b as [|x b]; [done|]. simpl. by rewrite Hb.
  - simpl in Ha. apply andb_true_iff in Ha as [-> Ha]. by rewrite (IH Ha).
Qed.

Lemma trailing_comma_exec_shape s res :
  Regex.exec trailing_comma_regex s = Some res ->
  exists a x b, s = ch "," :: a ++ x :: b /\ forallb is_space a = true /\ is_closer x = true.
Proof.
  unfold Regex.exec.
  change (Regex.run trailing_comma_regex Regex.accept s [])
    with (Regex.run (Regex.Char (ch ","))
            (Regex.run (Regex.Star is_space)
               (Regex.run (Regex.Group 1 (Regex.Class is_closer)) Regex.accept)) s []).
  intros Hrun. destruct s as [|y s]; [done|].
  cbn [Regex.run] in Hrun.
  destruct (N.eqb_spec (ch ",") y) as [<-|]; [|done].
  apply star_greedy_sound in Hrun as (a & b & -> & Ha & Hrun).
  destruct b as [|x b]; [done|]. destruct (is_closer x) eqn:Hx; [|done].
  by exists a, x, b.
Qed.

Lemma trailing_comma_exec_here ws d :
  forallb is_space ws = true -> is_closer d = true ->
  Regex.exec trailing_comma_regex (ch "," :: ws ++ [d]) = Some ([(1%nat, [d])], []).
Proof.
  intros Hws Hd. unfold Regex.exec.
  change (Regex.run trailing_comma_regex Regex.accept (ch "," :: ws ++ [d]) [])
    with (Regex.run (Regex.Char (ch ","))
            (Regex.run (Regex.Star is_space)
               (Regex.run (Regex.Group 1 (Regex.Class is_closer)) Regex.accept))
            (ch "," :: ws ++ [d]) []).
  cbn [Regex.run]. destruct (N.eqb_spec (ch ",") (ch ",")) as [_|]; [|done].
  apply star_greedy_complete; [done| |].
  - cbn [Regex.run]. rewrite Hd. reflexivity.
  - by destruct (closer_facts d Hd) as [-> _].
Qed.

Lemma drop_while_all p a r : forallb p a = true -> drop_while p (a ++ r) = drop_while p r.
Proof.
  induction a as [|y a IH]; [done|]. simpl. intros [-> Ha]%andb_true_iff. by apply IH.
Qed.

Lemma replace_inserted_comma fuel s ws d :
  (length s < fuel)%nat ->
  has_trailing_comma (s ++ [d]) = false ->
  is_closer d = true -> forallb is_space ws = true ->
  Regex.replace_all_group1 trailing_comma_regex fuel (s ++ ch "," :: ws ++ [d]) = s ++ [d].
Proof.
  intros Hfuel Hclean Hd Hws. revert fuel Hfuel.
  induction s as [|y s IH]; intros fuel Hfuel.
  - destruct fuel as [|fuel]; [simpl in Hfuel; lia|].
    cbn [app Regex.replace_all_group1]. rewrite trailing_comma_exec_here by done.
    cbn. by destruct fuel.
  - destruct fuel as [|fuel]; [simpl in Hfuel; lia|].
    cbn [app Regex.replace_all_group1].
    cbn [app has_trailing_comma] in Hclean.
    apply orb_false_iff in Hclean as [Hhead Hclean].
    destruct (Regex.exec trailing_comma_regex (y :: s ++ ch "," :: ws ++ [d]))
      as [[c rest]|] eqn:Hexec.
    2:{ f_equal. apply IH; [done|]. simpl in Hfuel. lia. }
    exfalso.
    apply trailing_comma_exec_shape in Hexec as (a & x & b & Heq & Ha & Hx).
    injection Heq as -> Heq.
    destruct (N.eqb_spec (ch ",") (ch ",")) as [_|]; [|done]. cbn [andb] in Hhead.
    destruct (closer_facts x Hx) as (Hxs & _).
    apply app_eq_app in Heq as (E & [[-> Heq]|[-> Heq]]).
    + destruct E as [|e E]; cbn [app] in Heq; injection Heq as Hxe _; subst x.
      * vm_compute in Hx. discriminate.
      * rewrite <- app_assoc in Hhead. rewrite drop_while_all in Hhead by done.
        simpl in Hhead. by rewrite Hxs, Hx in Hhead.
    + destruct E as [|e E]; cbn [app] in Heq; injection Heq as Hxe _; subst.
      * vm_compute in Hx. discriminate.
      * rewrite forallb_app in Ha. cbn [forallb] in Ha.
        apply andb_true_iff in Ha as [_ Ha]. apply andb_true_iff in Ha as [Ha _].
        vm_compute in Ha. discriminate.
Qed.

(** X8.  A comma put before the closing brace or bracket of a
    serialized array or object, with or without white space after it, is
    repaired: [parseJsonResponse] returns the value, whatever text free
    of braces and brackets surrounds the response.  The value is one
    whose numbers are integers that a JavaScript number holds exactly,
    and whose serialization has no other comma before a closing brace or
    bracket. *)
Theorem parseJsonResponse_trailing_comma v body d ws pre post :
  safe_numbers v = true ->
  plain v = true ->
  is_container v = true ->
  stringify v = body ++ [d] ->
  has_trailing_comma (stringify v) = false ->
  forallb is_space ws = true ->
  forallb (fun c => negb (is_bracket c)) pre = true ->
  forallb (fun c => negb (is_bracket c)) post = true ->
  parseJsonResponse (Some (pre ++ (body ++ ch "," :: ws ++ [d]) ++ post)) = Ret (Some v).
Proof.
  intros _ Hplain Hcont Hser Hclean Hws Hpre Hpost.
  rewrite parseJsonResponse_around by done.
  rewrite parseJsonResponse_payload.
  destruct (stringify_container v Hcont) as (c & mid & d' & Hser' & Hc & Hd).
  rewrite Hser in Hser'.
  change (c :: mid ++ [d']) with ((c :: mid) ++ [d']) in Hser'.
  apply app_inj_tail in Hser' as [-> ->].
  assert (Hpay : payload ((c :: mid) ++ ch "," :: ws ++ [d'])
                 = Some ((c :: mid) ++ ch "," :: ws ++ [d'])).
  { pose proof (payload_bounds [] c (mid ++ ch "," :: ws) d' [] eq_refl eq_refl Hc Hd)
      as Hb.
    cbv zeta in Hb. cbn [app length] in Hb. rewrite app_nil_r, <- app_assoc in Hb.
    cbn [app] in Hb. destruct Hb as [Hstart Hend].
    unfold payload. cbv zeta. cbn [app]. rewrite Hstart, Hend.
    destruct (Z.eqb_spec (Z.of_nat 0) (-1)); [lia|].
    destruct (Z.eqb_spec (Z.of_nat (0 + length (mid ++ ch "," :: ws) + 1)) (-1)); [lia|].
    f_equal.
    pose proof (substring_payload [] (c :: mid ++ ch "," :: ws ++ [d']) []) as Hsub.
    cbn [app length] in Hsub. rewrite app_nil_r in Hsub.
    rewrite <- Hsub at 2. f_equal. rewrite !length_app. cbn [length].
    rewrite length_app. cbn [length]. lia. }
  rewrite Hpay. unfold remove_trailing_commas.
  rewrite replace_inserted_comma; [| |by rewrite <- Hser|done|done].
  - rewrite <- Hser. by rewrite parse_stringify.
  - rewrite length_app. simpl. lia.
Qed.

Lemma parseJsonResponse_trailing_comma_witness :
  parseJsonResponse
    (Some (chatty_intro ++ (qstr "{'a':[1,2]" ++ ch "," :: [32%N; 10%N] ++ [ch "}"])
           ++ chatty_outro))
  = Ret (Some (JObj [(str "a", JArr [JNum 1; JNum 2])])).
Proof.
  apply (parseJsonResponse_trailing_comma
           (JObj [(str "a", JArr [JNum 1; JNum 2])]) (qstr "{'a':[1,2]") (ch "}")
           [32%N; 10%N] chatty_intro chatty_outro); reflexivity.
Defined.

(** *** What can be returned *)

Lemma replace_all_head fuel c s :
  N.eqb c (ch ",") = false ->
  Regex.replace_all_group1 trailing_comma_regex (S fuel) (c :: s)
  = c :: Regex.replace_all_group1 trailing_comma_regex fuel s.
Proof.
  intros Hc. cbn [Regex.replace_all_group1].
  destruct (Regex.exec trailing_comma_regex (c :: s)) as [[m rest]|] eqn:Hexec; [|done].
  apply trailing_comma_exec_shape in Hexec as (a & x & b & Heq & _).
  injection Heq as -> _. vm_compute in Hc. discriminate.
Qed.

Lemma parse_container c s v :
  is_opener c = true -> JSON.parse (c :: s) = Some v -> is_container v = true.
Proof.
  intros Hc. unfold JSON.parse.
  replace (2 * length (c :: s) + 2)%nat with (S (2 * length (c :: s) + 1)) by lia.
  rewrite parse_value_unfold.
  unfold is_opener in Hc. apply orb_true_iff in Hc as [Hc|Hc]; apply N.eqb_eq in Hc;
    subst c; rewrite skip_space_cons by reflexivity.
  - change (N.eqb (ch "{") 110) with false. change (N.eqb (ch "{") 116) with false.
    change (N.eqb (ch "{") 102) with false. change (N.eqb (ch "{") 34) with false.
    change (N.eqb (ch "{") 91) with false. change (N.eqb (ch "{") 123) with true.
    cbv iota.
    destruct (expect 125 (skip_space s)) as [r|].
    + destruct (skip_space r); [|done]. by intros [= <-].
    + destruct (parse_members _ s) as [[ms r]|]; [|done]. cbn.
      destruct (skip_space r); [|done]. by intros [= <-].
  - change (N.eqb (ch "[") 110) with false. change (N.eqb (ch "[") 116) with false.
    change (N.eqb (ch "[") 102) with false. change (N.eqb (ch "[") 34) with false.
    change (N.eqb (ch "[") 91) with true. cbv iota.
    destruct (expect 93 (skip_space s)) as [r|].
    + destruct (skip_space r); [|done]. by intros [= <-].
    + destruct (parse_elements _ s) as [[vs r]|]; [|done]. cbn.
      destruct (skip_space r); [|done]. by intros [= <-].
Qed.

(** X9.  When no closing brace or bracket comes before the first
    opening one, [parseJsonResponse] returns [null], an array or an
    object, never a number, a string or a boolean. *)
Theorem parseJsonResponse_container pre c s v :
  forallb (fun x => negb (is_bracket x)) pre = true ->
  is_opener c = true ->
  parseJsonResponse (Some (pre ++ c :: s)) = Ret (Some v) ->
  is_container v = true.
Proof.
  intros Hpre Hc.
  replace (pre ++ c :: s) with (pre ++ (c :: s) ++ []) by (by rewrite app_nil_r).
  rewrite parseJsonResponse_around by done.
  rewrite parseJsonResponse_payload. unfold payload. cbv zeta.
  assert (Hstart :
    (if indexOf (ch "[") (c :: s) =? -1 then indexOf (ch "{") (c :: s)
     else if indexOf (ch "{") (c :: s) =? -1 then indexOf (ch "[") (c :: s)
          else Z.min (indexOf (ch "[") (c :: s)) (indexOf (ch "{") (c :: s))) = 0).
  { pose proof (indexOf_range (ch "[") (c :: s)) as R1.
    pose proof (indexOf_range (ch "{") (c :: s)) as R2.
    assert (E : indexOf (ch "{") (c :: s) = 0 \/ indexOf (ch "[") (c :: s) = 0).
    { unfold is_opener in Hc. apply orb_true_iff in Hc as [Hc|Hc]; apply N.eqb_eq in Hc;
        rewrite Hc; [left|right]; apply indexOf_head. }
    generalize dependent (indexOf (ch "{") (c :: s)).
    generalize dependent (indexOf (ch "[") (c :: s)).
    intros i Hi j Hj E.
    destruct (Z.eqb_spec i (-1)); destruct (Z.eqb_spec j (-1)); lia. }
  rewrite Hstart. cbn [Z.eqb].
  pose proof (lastIndexOf_range (ch "]") (c :: s)) as R3.
  pose proof (lastIndexOf_range (ch "}") (c :: s)) as R4.
  set (end_ := Z.max (lastIndexOf (ch "]") (c :: s)) (lastIndexOf (ch "}") (c :: s))) in *.
  assert (He : -1 <= end_) by lia. clearbody end_.
  destruct (Z.eqb_spec end_ (-1)); [done|].
  assert (Hsub : exists r, substring 0 (end_ + 1) (c :: s) = c :: r).
  { unfold substring, clamp_index. cbn [length].
    replace (Z.to_nat (Z.min (Z.max 0 0) (Z.of_nat (S (length s))))) with 0%nat by lia.
    destruct (Z.to_nat (Z.min (Z.max (end_ + 1) 0) (Z.of_nat (S (length s)))))
      as [|k] eqn:Hk; [lia|].
    rewrite Nat.min_l, Nat.max_r by lia. simpl. by eexists. }
  destruct Hsub as [r ->]. unfold remove_trailing_commas. cbn [length].
  rewrite replace_all_head.
  2:{ unfold is_opener in Hc. apply orb_true_iff in Hc as [Hc|Hc]; apply N.eqb_eq in Hc;
        by subst c. }
  destruct (JSON.parse (c :: _)) as [v'|] eqn:Hparse; [|done].
  intros [= <-]. by apply (parse_container c _ v' Hc Hparse).
Qed.

Lemma parseJsonResponse_container_witness :
  is_container (JArr [JNum 1; JNum 2]) = true.
Proof.
  apply (parseJsonResponse_container chatty_intro (ch "[") (str "1, 2,]" ++ chatty_outro)
           (JArr [JNum 1; JNum 2])); reflexivity.
Defined.

Lemma digits_of_uint_digits u : forallb is_digit (digits_of_uint u) = true.
Proof. induction u; simpl; done. Qed.

Lemma string_of_Z_chars z :
  forallb (fun c => is_digit c || N.eqb c (ch "-")) (string_of_Z z) = true.
Proof.
  assert (H : forall n, forallb (fun c => is_digit c || N.eqb c (ch "-")) (digits_of_N n) = true).
  { intros n. unfold digits_of_N. apply forallb_forall. intros x Hx.
    pose proof (digits_of_uint_digits (N.to_uint n)) as Hd.
    eapply forallb_forall in Hd; [|exact Hx]. by rewrite Hd. }
  unfold string_of_Z. destruct (z <? 0); [|apply H].
  cbn [forallb]. by rewrite H.
Qed.

Lemma number_char_facts c :
  (is_digit c || N.eqb c (ch "-"))%bool = true ->
  is_bracket c = false /\ N.eqb c (ch ",") = false /\ is_space c = false.
Proof.
  intros [H|H]%orb_true_iff.
  - unfold is_digit, in_range in H. apply andb_true_iff in H as [H1 H2].
    apply N.leb_le in H1, H2.
    unfold is_bracket, is_opener, is_closer, is_space, in_range.
    repeat split;
      repeat match goal with
             | |- context [N.eqb ?a ?b] => destruct (N.eqb_spec a b); [subst; simpl in *; lia|]
             | |- context [N.leb ?a ?b] => destruct (N.leb_spec a b); [|]
             end; simpl; try done; try lia.
  - apply N.eqb_eq in H. by subst.
Qed.

Lemma no_comma_clean s :
  forallb (fun c => negb (N.eqb c (ch ","))) s = true -> has_trailing_comma s = false.
Proof.
  induction s as [|c s IH]; [done|]. simpl.
  intros [Hc Hs]%andb_true_iff. apply negb_true_iff in Hc. by rewrite Hc, IH.
Qed.

(** X10.  A closing bracket before the opening one turns the
    extraction inside out: [substring] swaps its bounds and what lies
    between the two brackets is decoded.  For an integer there (one that
    a JavaScript number holds exactly), the function returns the
    integer, a value that is neither an object nor an array. *)
Theorem parseJsonResponse_between_brackets z :
  Z.abs z <= 9007199254740991 ->
  parseJsonResponse (Some (ch "]" :: string_of_Z z ++ [ch "["])) = Ret (Some (JNum z)).
Proof.
  intros _. rewrite parseJsonResponse_payload.
  pose proof (string_of_Z_chars z) as Hchars.
  set (ds := string_of_Z z) in *.
  assert (Hfree : forall x, is_bracket x = true ->
                    forallb (fun d => negb (N.eqb d x)) ds = true).
  { intros x Hx. apply forallb_forall. intros y Hy.
    eapply forallb_forall in Hchars; [|exact Hy].
    destruct (number_char_facts y Hchars) as (Hb & _).
    destruct (N.eqb_spec y x) as [->|]; [congruence|done]. }
  assert (Hpay : payload (ch "]" :: ds ++ [ch "["]) = Some ds).
  { unfold payload. cbv zeta.
    assert (H1 : indexOf (ch "[") (ch "]" :: ds ++ [ch "["]) = Z.of_nat (length ds) + 1).
    { change (ch "]" :: ds ++ [ch "["]) with ((ch "]" :: ds) ++ [ch "["]).
      rewrite indexOf_app_absent.
      - rewrite indexOf_head. cbn [length Z.eqb]. lia.
      - cbn [forallb]. rewrite Hfree by done. done. }
    assert (H2 : indexOf (ch "{") (ch "]" :: ds ++ [ch "["]) = -1).
    { apply indexOf_absent. cbn [forallb]. rewrite forallb_app, Hfree by done. done. }
    assert (H3 : lastIndexOf (ch "]") (ch "]" :: ds ++ [ch "["]) = 0).
    { change (ch "]" :: ds ++ [ch "["]) with ([ch "]"] ++ (ds ++ [ch "["])).
      rewrite lastIndexOf_app_absent; [done|].
      rewrite forallb_app, Hfree by done. done. }
    assert (H4 : lastIndexOf (ch "}") (ch "]" :: ds ++ [ch "["]) = -1).
    { apply lastIndexOf_absent. cbn [forallb]. rewrite forallb_app, Hfree by done. done. }
    rewrite H1, H2, H3, H4.
    destruct (Z.eqb_spec (Z.of_nat (length ds) + 1) (-1)) as [|Hne]; [lia|].
    change (-1 =? -1) with true. cbv iota.
    destruct (Z.eqb_spec (Z.of_nat (length ds) + 1) (-1)); [lia|].
    change (Z.max 0 (-1)) with 0. change (0 =? -1) with false. cbv iota.
    f_equal. unfold substring, clamp_index. cbn [length]. rewrite length_app. cbn [length].
    replace (Z.to_nat (Z.min (Z.max (Z.of_nat (length ds) + 1) 0)
                         (Z.of_nat (S (length ds + 1))))) with (S (length ds)) by lia.
    replace (Z.to_nat (Z.min (Z.max (0 + 1) 0) (Z.of_nat (S (length ds + 1)))))
      with 1%nat by lia.
    rewrite Nat.min_r, Nat.max_l by lia.
    cbn [drop]. replace (S (length ds) - 1)%nat with (length ds) by lia.
    rewrite drop_0. by rewrite take_app_length. }
  rewrite Hpay, remove_trailing_commas_clean.
  - subst ds. change (string_of_Z z) with (stringify (JNum z)).
    by rewrite parse_stringify.
  - apply no_comma_clean. apply forallb_forall. intros y Hy.
    eapply forallb_forall in Hchars; [|exact Hy].
    by destruct (number_char_facts y Hchars) as (_ & -> & _).
Qed.

Lemma parseJsonResponse_between_brackets_witness :
  parseJsonResponse (Some (ch "]" :: string_of_Z (-42) ++ [ch "["])) = Ret (Some (JNum (-42))).
Proof. apply (parseJsonResponse_between_brackets (-42)). simpl. lia. Defined.


(** ** [analyzeDocumentStructure]: what is kept *)

Lemma clamp_headings l : map raw_heading (clamp l) = map raw_heading l.
Proof.
  induction l as [|c [|d l] IH]; [done|done|].
  rewrite clamp_cons.
  change (map raw_heading (c :: d :: l)) with (raw_heading c :: map raw_heading (d :: l)).
  rewrite <- IH. rewrite map_cons. f_equal. by case_match.
Qed.

Lemma set_last_endPage_headings totalPages l :
  map raw_heading (set_last_endPage totalPages l) = map raw_heading l.
Proof.
  unfold set_last_endPage.
  destruct (l !! (length l - 1)%nat) as [c|] eqn:Hc; [|done].
  change (map raw_heading) with (fmap (M:=list) raw_heading).
  rewrite list_fmap_insert.
  apply list_insert_id. rewrite list_lookup_fmap, Hc. done.
Qed.

Lemma numbered_headings env n l : map heading (numbered env n l) = map raw_heading l.
Proof. revert n. induction l as [|c l IH]; intros n; simpl; [done|]. by rewrite IH. Qed.

Lemma filter_headings_sublist (f : Chapter -> bool) l :
  map heading (List.filter f l) `sublist_of` map heading l.
Proof.
  induction l as [|c l IH]; simpl; [constructor|].
  destruct (f c); simpl; by constructor.
Qed.

(** X11.  When the response decodes to a non-empty array of chapters,
    in whatever order and with whatever page numbers, what
    [analyzeDocumentStructure] returns is a selection of these chapters:
    their titles and start pages, in the order of the response, none
    added and none changed; and every chapter returned starts inside the
    document and does not end before it starts. *)
Theorem analyzeDocumentStructure_selection env pages w text v l rawChapters :
  initialized env ->
  remote env (requests w) = Ret text ->
  parseJsonResponse text = Ret (Some (JArr (v :: l))) ->
  as_raw_chapters (v :: l) = Some rawChapters ->
  exists chapters w',
    analyzeDocumentStructure env pages w = (Ret (Some chapters), w') /\
    map heading chapters `sublist_of` map raw_heading rawChapters /\
    Forall (in_document (Z.of_nat (length pages))) chapters.
Proof.
  intros Hinit Hremote Hparse Htyped.
  eexists _, _. split.
  { eapply analyzeDocumentStructure_decoded; [done..|].
    by apply chapters_of_response_typed. }
  split.
  - etransitivity; [apply filter_headings_sublist|].
    rewrite numbered_headings. unfold reconcile.
    by rewrite set_last_endPage_headings, clamp_loop_spec, clamp_headings.
  - apply Forall_forall. intros c [_ Hkeep]%List.filter_In.
    unfold keep_chapter in Hkeep. unfold in_document. lia.
Qed.

Lemma analyzeDocumentStructure_selection_witness :
  exists chapters w',
    analyzeDocumentStructure disordered_outline (pages_of 10) initial_world
      = (Ret (Some chapters), w') /\
    map heading chapters `sublist_of`
      map raw_heading
        [ {| Raw.title := str "A"; Raw.startPage := 5; Raw.endPage := 6 |};
          {| Raw.title := str "B"; Raw.startPage := 20; Raw.endPage := 25 |};
          {| Raw.title := str "C"; Raw.startPage := 1; Raw.endPage := 7 |};
          {| Raw.title := str "D"; Raw.startPage := 30; Raw.endPage := 40 |} ] /\
    Forall (in_document (Z.of_nat (length (pages_of 10)))) chapters.
Proof.
  assert (H1 : initialized disordered_outline) by done.
  assert (H2 : remote disordered_outline (requests initial_world)
               = Ret (Some (qstr "[{'title':'A','startPage':5,'endPage':6},{'title':'B','startPage':20,'endPage':25},{'title':'C','startPage':1,'endPage':7},{'title':'D','startPage':30,'endPage':40}]")))
    by reflexivity.
  assert (H3 : parseJsonResponse (Some (qstr "[{'title':'A','startPage':5,'endPage':6},{'title':'B','startPage':20,'endPage':25},{'title':'C','startPage':1,'endPage':7},{'title':'D','startPage':30,'endPage':40}]"))
     = Ret (Some (JArr
         (JObj [(str "title", JStr (str "A")); (str "startPage", JNum 5); (str "endPage", JNum 6)]
          :: [JObj [(str "title", JStr (str "B")); (str "startPage", JNum 20); (str "endPage", JNum 25)];
              JObj [(str "title", JStr (str "C")); (str "startPage", JNum 1); (str "endPage", JNum 7)];
              JObj [(str "title", JStr (str "D")); (str "startPage", JNum 30); (str "endPage", JNum 40)]]))))
    by (vm_compute; reflexivity).
  assert (H4 : as_raw_chapters
         (JObj [(str "title", JStr (str "A")); (str "startPage", JNum 5); (str "endPage", JNum 6)]
          :: [JObj [(str "title", JStr (str "B")); (str "startPage", JNum 20); (str "endPage", JNum 25)];
              JObj [(str "title", JStr (str "C")); (str "startPage", JNum 1); (str "endPage", JNum 7)];
              JObj [(str "title", JStr (str "D")); (str "startPage", JNum 30); (str "endPage", JNum 40)]])
     = Some [ {| Raw.title := str "A"; Raw.startPage := 5; Raw.endPage := 6 |};
              {| Raw.title := str "B"; Raw.startPage := 20; Raw.endPage := 25 |};
              {| Raw.title := str "C"; Raw.startPage := 1; Raw.endPage := 7 |};
              {| Raw.title := str "D"; Raw.startPage := 30; Raw.endPage := 40 |} ])
    by (vm_compute; reflexivity).
  exact (analyzeDocumentStructure_selection disordered_outline (pages_of 10) initial_world
           _ _ _ _ H1 H2 H3 H4).
Defined.

(** ** [assignIdsToBlocks] *)

(** X12.  [assignIdsToBlocks] draws one identifier per block, in order:
    the [i]-th block of the result carries as [id] the [i]-th identifier
    drawn, whether or not the decoded block came with an [id] of its
    own, and every other property of the decoded block unchanged.
    Applied to anything but an array it raises without drawing. *)
Theorem assignIdsToBlocks_ids env w :
  (forall blocks,
     exists result,
       assignIdsToBlocks env (JArr blocks) w = (Ret result, drawn (length blocks) w) /\
       length result = length blocks /\
       forall i block,
         blocks !! i = Some block ->
         exists props,
           result !! i = Some (JObj props) /\
           obj_get (str "id") props = Some (JStr (fresh env (ids w + i))) /\
           forall k, k <> str "id" -> obj_get k props = obj_get k (spread block)) /\
  (forall content,
     (forall blocks, content <> JArr blocks) ->
     assignIdsToBlocks env content w = (Throw TypeError, w)).
Proof.
  split.
  - intros blocks. exists (numbered_blocks env (ids w) blocks).
    split; [apply mapM_with_block_id|]. split; [apply numbered_blocks_length|].
    generalize (ids w) as n. induction blocks as [|b blocks IH]; intros n i block Hi; [done|].
    destruct i as [|i]; simpl in *.
    + injection Hi as ->. eexists. split; [done|]. rewrite Nat.add_0_r.
      split; [apply obj_get_set_eq|]. intros k Hk. by apply obj_get_set_ne.
    + destruct (IH (S n) i block Hi) as (props & Hp & Hid & Hrest).
      exists props. split; [done|]. split; [|done].
      rewrite Hid. do 3 f_equal. lia.
  - intros content Hne. destruct content; try done. by destruct (Hne l).
Qed.

(** ** [analyzeChapterForLessons] *)

(** X13.  What [analyzeChapterForLessons] makes of the first response:
    an empty list, not [null], when nothing can be decoded from it; the
    decoded lessons, each with a fresh [id], when it decodes to an array;
    and [null] when it decodes to an object, without a second request. *)
Theorem analyzeChapterForLessons_outcomes env chapterText chapter w text :
  initialized env ->
  remote env (requests w) = Ret text ->
  (parseJsonResponse text = Ret None ->
   analyzeChapterForLessons env chapterText chapter w = (Ret (Some []), sent (invoked w))) /\
  (forall lessons,
     parseJsonResponse text = Ret (Some (JArr lessons)) ->
     analyzeChapterForLessons env chapterText chapter w
     = (Ret (Some (numbered_blocks env (ids w) lessons)),
        drawn (length lessons) (sent (invoked w)))) /\
  (forall props,
     parseJsonResponse text = Ret (Some (JObj props)) ->
     analyzeChapterForLessons env chapterText chapter w = (Ret None, sent (invoked w))).
Proof.
  intros Hinit Hremote.
  assert (Hcall : forall r,
            parseJsonResponse text = Ret r ->
            lessons_apiCall env (invoked w) =
            (if truthy_result r then
               match r with
               | Some (JArr lessons) => mapM (with_block_id env) lessons
               | _ => throw TypeError
               end
             else ret []) (sent (invoked w))).
  { intros r Hparse. unfold lessons_apiCall.
    unfold bind at 1. unfold generateContent at 1. simpl. rewrite Hremote.
    unfold bind at 1, lift at 1. by rewrite Hparse. }
  unfold analyzeChapterForLessons.
  rewrite (bind_Ret _ _ _ _ _ (getAi_initialized env w Hinit)).
  split; [|split].
  - intros Hparse. erewrite try_catch_Ret; [done|].
    erewrite bind_Ret; [done|].
    apply callApiWithRetry_first_success; [lia|]. by rewrite (Hcall _ Hparse).
  - intros lessons Hparse. erewrite try_catch_Ret; [done|].
    erewrite bind_Ret; [done|].
    apply callApiWithRetry_first_success; [lia|]. rewrite (Hcall _ Hparse). simpl.
    by rewrite mapM_with_block_id.
  - intros props Hparse. erewrite try_catch_Throw; [done|].
    erewrite bind_Throw; [done|].
    unfold callApiWithRetry. change (Z.to_nat 3) with 3%nat.
    rewrite retry_loop_step by lia. rewrite (Hcall _ Hparse). simpl. done.
Qed.

Lemma analyzeChapterForLessons_outcomes_witness :
  analyzeChapterForLessons wrapped_lessons (str "text") sample_chapter initial_world
  = (Ret None, sent (invoked initial_world)).
Proof.
  apply (analyzeChapterForLessons_outcomes wrapped_lessons (str "text") sample_chapter
           initial_world
           (Some (qstr "{'lessons':[{'title':'L1','startPage':1,'endPage':2}]}")))
    with (props := [(str "lessons",
                     JArr [JObj [(str "title", JStr (str "L1")); (str "startPage", JNum 1);
                                 (str "endPage", JNum 2)]])]);
    [done|reflexivity|reflexivity].
Defined.

(** ** [generateInitialQuestions] and [generateMoreQuestions] *)

Lemma parseJsonResponse_Ret text : exists r, parseJsonResponse text = Ret r.
Proof.
  destruct text as [text|]; [|by exists None].
  rewrite parseJsonResponse_steps.
  destruct (payload _) as [jsonStr|]; [|by eexists].
  destruct (JSON.parse _); by eexists.
Qed.

(** One attempt: the blocks of the response, numbered, or nothing. *)
Lemma questions_attempt_blocks env w :
  questions_attempt env w =
  match blocks_of (remote env (requests w)) with
  | Some blocks =>
      (Ret (Some (numbered_blocks env (ids w) blocks)), drawn (length blocks) (sent w))
  | None => (Ret None, sent w)
  end.
Proof.
  unfold questions_attempt, try_catch, blocks_of.
  unfold bind at 1. unfold generateContent at 1.
  destruct (remote env (requests w)) as [text|e]; [|done].
  destruct (parseJsonResponse_Ret text) as [r Hr]. rewrite Hr.
  unfold bind at 1, lift at 1.
  destruct r as [v|]; [|done].
  destruct v; simpl; try done.
  - by destruct b.
  - by destruct (negb (z =? 0)).
  - by destruct (negb (bool_decide (s = []))).
  - unfold bind. by rewrite mapM_with_block_id.
Qed.

(** One iteration of the loop, unfolded. *)
Lemma questions_loop_step env fuel attempt w :
  attempt < 3 ->
  questions_loop env (S fuel) attempt w =
  match blocks_of (remote env (requests w)) with
  | Some blocks =>
      (Ret (Some (numbered_blocks env (ids w) blocks)), drawn (length blocks) (sent w))
  | None =>
      questions_loop env fuel (attempt + 1)
        (if attempt <? 2 then slept (500 * (attempt + 1)) (sent w) else sent w)
  end.
Proof.
  intros Hlt. cbn [questions_loop]. apply Z.ltb_lt in Hlt. rewrite Hlt.
  unfold bind at 1. rewrite questions_attempt_blocks.
  destruct (blocks_of (remote env (requests w))) as [blocks|]; [done|].
  unfold bind at 1. by destruct (attempt <? 2).
Qed.

(** X14.  [generateInitialQuestions] returns the blocks of the first of
    its three responses that decodes to an array, each with a fresh
    [id]: it goes on after a response that cannot be decoded, after a
    value that is not an array, and after an error of any kind, not only
    a transient one.  It pauses 500 ms after the first failure and
    1000 ms after the second. *)
Theorem generateInitialQuestions_first_array env lessonText w (k : nat) blocks :
  initialized env ->
  (k < 3)%nat ->
  no_blocks env w k ->
  blocks_of (remote env (requests w + k)) = Some blocks ->
  exists t w',
    generateInitialQuestions env lessonText w
      = (Ret (Some (numbered_blocks env (ids w) blocks)), w') /\
    trace w' = trace w ++ t /\
    requests_sent t = S k /\
    delays t = take k [500; 1000].
Proof.
  intros Hinit Hk Hnone Hsome. unfold generateInitialQuestions.
  rewrite (bind_Ret _ _ _ _ _ (getAi_initialized env w Hinit)).
  destruct k as [|[|[|k]]]; [| | |lia].
  - rewrite Nat.add_0_r in Hsome.
    rewrite questions_loop_step, Hsome by lia.
    exists [Request]. eexists. split; [done|]. simpl. done.
  - pose proof (Hnone 0%nat ltac:(lia)) as H0. rewrite Nat.add_0_r in H0.
    rewrite questions_loop_step, H0 by lia.
    change (0 <? 2) with true. cbv iota.
    rewrite questions_loop_step by lia. cbn [requests sent slept].
    replace (S (requests w)) with (requests w + 1)%nat by lia. rewrite Hsome.
    exists [Request; Sleep 500; Request]. eexists. split; [done|]. simpl.
    rewrite <- !app_assoc. done.
  - pose proof (Hnone 0%nat ltac:(lia)) as H0. rewrite Nat.add_0_r in H0.
    pose proof (Hnone 1%nat ltac:(lia)) as H1.
    rewrite questions_loop_step, H0 by lia.
    change (0 <? 2) with true. cbv iota.
    rewrite questions_loop_step by lia. cbn [requests sent slept].
    replace (S (requests w)) with (requests w + 1)%nat by lia. rewrite H1.
    change (0 + 1 <? 2) with true. cbv iota.
    rewrite questions_loop_step by lia. cbn [requests sent slept].
    replace (S (S (requests w))) with (requests w + 2)%nat by lia. rewrite Hsome.
    exists [Request; Sleep 500; Request; Sleep 1000; Request]. eexists.
    split; [done|]. simpl. rewrite <- !app_assoc. done.
Qed.

Lemma generateInitialQuestions_first_array_witness :
  exists t w',
    generateInitialQuestions third_time_lucky (str "lesson") initial_world
      = (Ret (Some (numbered_blocks third_time_lucky (ids initial_world)
                      [JObj [(str "type", JStr (str "open_ended_question"));
                             (str "question", JStr (str "Why?"))]])), w') /\
    trace w' = trace initial_world ++ t /\
    requests_sent t = 3%nat /\
    delays t = take 2 [500; 1000].
Proof.
  apply (generateInitialQuestions_first_array third_time_lucky (str "lesson") initial_world 2).
  - done.
  - lia.
  - intros i Hi. destruct i as [|[|i]]; [reflexivity|reflexivity|lia].
  - reflexivity.
Defined.

(** X15.  When none of its three responses provides blocks, whatever
    the reason, [generateInitialQuestions] returns [null] after exactly
    three requests and two pauses, of 500 and 1000 ms, and draws no
    identifier. *)
Theorem generateInitialQuestions_gives_up env lessonText w :
  initialized env ->
  no_blocks env w 3 ->
  generateInitialQuestions env lessonText w
  = (Ret None,
     {| requests := requests w + 3; ids := ids w;
        trace := trace w ++ [Request; Sleep 500; Request; Sleep 1000; Request] |}).
Proof.
  intros Hinit Hnone. unfold generateInitialQuestions.
  rewrite (bind_Ret _ _ _ _ _ (getAi_initialized env w Hinit)).
  pose proof (Hnone 0%nat ltac:(lia)) as H0. rewrite Nat.add_0_r in H0.
  pose proof (Hnone 1%nat ltac:(lia)) as H1.
  pose proof (Hnone 2%nat ltac:(lia)) as H2.
  rewrite questions_loop_step, H0 by lia.
  change (0 <? 2) with true. cbv iota.
  rewrite questions_loop_step by lia. cbn [requests sent slept].
  replace (S (requests w)) with (requests w + 1)%nat by lia. rewrite H1.
  change (0 + 1 <? 2) with true. cbv iota.
  rewrite questions_loop_step by lia. cbn [requests sent slept].
  replace (S (S (requests w))) with (requests w + 2)%nat by lia. rewrite H2.
  change (0 + 1 + 1 <? 2) with false. cbv iota.
  cbn [questions_loop]. unfold ret, sent, slept. cbn [requests ids trace].
  rewrite <- !app_assoc. cbn [app]. do 2 f_equal. lia.
Qed.

Lemma generateInitialQuestions_gives_up_witness :
  generateInitialQuestions hopeless (str "lesson") initial_world
  = (Ret None,
     {| requests := requests initial_world + 3; ids := ids initial_world;
        trace := trace initial_world ++ [Request; Sleep 500; Request; Sleep 1000; Request] |}).
Proof.
  apply (generateInitialQuestions_gives_up hopeless (str "lesson") initial_world).
  - done.
  - intros i Hi. destruct i as [|[|[|i]]]; [reflexivity|reflexivity|reflexivity|lia].
Defined.

(** X16.  [generateMoreQuestions], unlike [generateInitialQuestions],
    does not ask again when the response it receives provides no blocks:
    after one request and no pause it returns the blocks of the
    response, each with a fresh [id], or [null]. *)
Theorem generateMoreQuestions_single_request env lessonText existingQuestions w text :
  initialized env ->
  remote env (requests w) = Ret text ->
  exists w',
    generateMoreQuestions env lessonText existingQuestions w
      = (Ret (numbered_blocks env (ids w) <$> blocks_of (Ret text)), w') /\
    trace w' = trace w ++ [Invoke; Request].
Proof.
  intros Hinit Hremote. unfold generateMoreQuestions.
  rewrite (bind_Ret _ _ _ _ _ (getAi_initialized env w Hinit)).
  unfold callApiWithRetry. change (Z.to_nat 3) with 3%nat.
  unfold try_catch. rewrite retry_loop_step by lia.
  unfold more_questions_apiCall.
  unfold bind at 1. unfold generateContent at 1. simpl. rewrite Hremote.
  destruct (parseJsonResponse_Ret text) as [r Hr]. rewrite Hr.
  unfold bind at 1, lift at 1.
  destruct r as [v|]; [|eexists; split; [done|]; simpl; by rewrite <- app_assoc].
  destruct v; simpl;
    try (eexists; split; [done|]; simpl; by rewrite <- app_assoc).
  - destruct b; simpl; eexists; (split; [done|]); simpl; by rewrite <- app_assoc.
  - destruct (negb (z =? 0)); simpl; eexists; (split; [done|]); simpl; by rewrite <- app_assoc.
  - destruct (negb (bool_decide (s = []))); simpl; eexists; (split; [done|]); simpl;
      by rewrite <- app_assoc.
  - unfold bind. rewrite mapM_with_block_id. simpl.
    eexists; (split; [done|]); simpl; by rewrite <- app_assoc.
Qed.


Lemma generateMoreQuestions_single_request_witness :
  exists w',
    generateMoreQuestions refusals (str "lesson") sample_blocks initial_world
      = (Ret (numbered_blocks refusals (ids initial_world)
                <$> blocks_of (Ret (Some (str "I cannot help with that.")))), w') /\
    trace w' = trace initial_world ++ [Invoke; Request].
Proof.
  apply (generateMoreQuestions_single_request refusals (str "lesson") sample_blocks
           initial_world (Some (str "I cannot help with that."))); [done|reflexivity].
Defined.

(** ** [proofreadSinglePageText] and [summarizeChapterText] *)

Lemma drop_while_head p s c r : drop_while p s = c :: r -> p c = false.
Proof.
  induction s as [|x s IH]; [done|]. simpl.
  destruct (p x) eqn:Hx; [done|]. by intros [= <- _].
Qed.

Lemma trimEnd_cons c s : is_space c = false -> exists r, trimEnd (c :: s) = c :: r.
Proof.
  intros Hc. unfold trimEnd. cbn [rev].
  rewrite drop_while_app_stop by done. rewrite rev_app_distr. simpl. by eexists.
Qed.

Lemma trim_head s c r : trim s = c :: r -> is_space c = false.
Proof.
  unfold trim, trimStart. destruct (drop_while is_space s) as [|x xs] eqn:Hs; [done|].
  pose proof (drop_while_head _ _ _ _ Hs) as Hx.
  destruct (trimEnd_cons x xs Hx) as [r' ->]. by intros [= <- _].
Qed.

Lemma trim_blank s : forallb is_space s = true -> trim s = [].
Proof.
  intros Hs. unfold trim, trimStart.
  replace (drop_while is_space s) with (@nil N); [done|].
  induction s as [|c s IH]; [done|]. simpl in *.
  apply andb_true_iff in Hs as [-> Hs]. by apply IH.
Qed.

Lemma blank_spec text : blank text = forallb is_space text.
Proof.
  unfold blank. destruct (forallb is_space text) eqn:Hs.
  - rewrite (trim_blank _ Hs). rewrite (bool_decide_eq_true_2 ([] = [])) by done.
    apply orb_true_r.
  - apply orb_false_iff. split; apply bool_decide_eq_false; intros E.
    + by subst.
    + destruct (trim_decompose text) as (a & b & Ht & Ha & Hb).
      rewrite E in Ht. simpl in Ht. rewrite Ht, forallb_app, Ha, Hb in Hs. done.
Qed.

Lemma trimmed_or_spec fallback response_text :
  trimmed_or fallback response_text = fallback \/
  exists response c r,
    response_text = Some response /\
    trimmed_or fallback response_text = trim response /\
    trim response = c :: r /\ is_space c = false.
Proof.
  destruct response_text as [t|]; [|by left]. simpl.
  destruct (trim t) as [|c r] eqn:Ht; [by left|]. right.
  exists t, c, r. rewrite Ht. split; [done|]. split; [done|]. split; [done|].
  by apply (trim_head t c r).
Qed.

(** The outcome of three attempts at an operation that fails or
    returns: the result of one of its invocations, or the value of the
    handler. *)
Lemma retried_or_fallback {T} (apiCall : M T) (fallback : T) w :
  exists r w',
    try_catch (callApiWithRetry apiCall 3) (fun _ => ret fallback) w = (Ret r, w') /\
    (r = fallback \/ exists w0, fst (apiCall w0) = Ret r).
Proof.
  unfold try_catch.
  destruct (retry_loop_result apiCall 3 (Z.to_nat 3) 0 w) as [w0 Hw0]; [lia|lia|].
  unfold callApiWithRetry. rewrite Hw0.
  destruct (apiCall (invoked w0)) as [[r|e] w1] eqn:Hcall.
  - exists r, w1. split; [done|]. right. exists (invoked w0). by rewrite Hcall.
  - exists fallback, w1. split; [done|]. by left.
Qed.

(** X17.  With a usable client, [proofreadSinglePageText] returns the
    text it was given or a response of the model without the white space
    around it; what it returns is blank exactly when the text it was
    given is; and a blank text is returned as it is, without any
    request. *)
Theorem proofreadSinglePageText_result env text w :
  initialized env ->
  exists r w',
    proofreadSinglePageText env text w = (Ret r, w') /\
    (r = text \/
     exists k response, remote env k = Ret (Some response) /\ r = trim response) /\
    forallb is_space r = forallb is_space text /\
    (forallb is_space text = true -> w' = w).
Proof.
  intros Hinit. unfold proofreadSinglePageText.
  rewrite (bind_Ret _ _ _ _ _ (getAi_initialized env w Hinit)).
  rewrite blank_spec. destruct (forallb is_space text) eqn:Hblank.
  { exists text, w. split; [done|]. split; [by left|]. done. }
  destruct (retried_or_fallback (proofread_apiCall env text) text w)
    as (r & w' & -> & Hr).
  exists r, w'. split; [done|].
  assert (Hshape : r = text \/
            exists k response c tl,
              remote env k = Ret (Some response) /\
              r = trim response /\ trim response = c :: tl /\ is_space c = false).
  { destruct Hr as [->|[w0 Hw0]]; [by left|].
    unfold proofread_apiCall, bind, generateContent, ret in Hw0.
    destruct (remote env (requests w0)) as [rt|e] eqn:Hremote; [|done]. simpl in Hw0.
    injection Hw0 as <-.
    destruct (trimmed_or_spec text rt) as [->|(response & c & tl & -> & Hr' & Hc & Hsp)];
      [by left|].
    right. by exists (requests w0), response, c, tl. }
  destruct Hshape as [->|(k & response & c & tl & Hk & -> & Hc & Hsp)].
  - split; [by left|]. by rewrite Hblank.
  - split; [right; by exists k, response|]. split; [|done].
    rewrite Hc. simpl. by rewrite Hsp.
Qed.

Lemma proofreadSinglePageText_result_witness :
  exists r w',
    proofreadSinglePageText flaky (str "teh cat") initial_world = (Ret r, w') /\
    (r = str "teh cat" \/
     exists k response, remote flaky k = Ret (Some response) /\ r = trim response) /\
    forallb is_space r = forallb is_space (str "teh cat") /\
    (forallb is_space (str "teh cat") = true -> w' = initial_world).
Proof.
  apply (proofreadSinglePageText_result flaky (str "teh cat") initial_world). done.
Defined.

(** X18.  With a usable client, [summarizeChapterText] always returns a
    non-empty text: a response of the model without the white space
    around it, or one of three fixed sentences; for a blank chapter it
    is the sentence [No text to summarize.], without any request. *)
Theorem summarizeChapterText_result env chapterText style w :
  initialized env ->
  exists r w',
    summarizeChapterText env chapterText style w = (Ret r, w') /\
    r <> [] /\
    (In r [str "No text to summarize."; str "Failed to generate summary.";
           str "Sorry, an error occurred while trying to generate the summary."] \/
     exists k response, remote env k = Ret (Some response) /\ r = trim response) /\
    (forallb is_space chapterText = true ->
     r = str "No text to summarize." /\ w' = w).
Proof.
  intros Hinit. unfold summarizeChapterText.
  rewrite (bind_Ret _ _ _ _ _ (getAi_initialized env w Hinit)).
  rewrite blank_spec. destruct (forallb is_space chapterText) eqn:Hblank.
  { eexists _, w. split; [done|]. split; [done|]. split; [left; by left|done]. }
  destruct (retried_or_fallback (summarize_apiCall env)
              (str "Sorry, an error occurred while trying to generate the summary.") w)
    as (r & w' & -> & Hr).
  exists r, w'. split; [done|].
  destruct Hr as [->|[w0 Hw0]].
  { split; [done|]. split; [|done]. left. right. right. by left. }
  unfold summarize_apiCall, bind, generateContent, ret in Hw0.
  destruct (remote env (requests w0)) as [rt|e] eqn:Hremote; [|done]. simpl in Hw0.
  injection Hw0 as <-.
  destruct (trimmed_or_spec (str "Failed to generate summary.") rt)
    as [->|(response & c & tl & -> & -> & Hc & _)].
  - split; [done|]. split; [|done]. left. right. by left.
  - split; [by rewrite Hc|]. split; [|done]. right. by exists (requests w0), response.
Qed.

Lemma summarizeChapterText_result_witness :
  exists r w',
    summarizeChapterText flaky (str "  ") (Some (str "bullet points")) initial_world
      = (Ret r, w') /\
    r <> [] /\
    (In r [str "No text to summarize."; str "Failed to generate summary.";
           str "Sorry, an error occurred while trying to generate the summary."] \/
     exists k response, remote flaky k = Ret (Some response) /\ r = trim response) /\
    (forallb is_space (str "  ") = true ->
     r = str "No text to summarize." /\ w' = initial_world).
Proof.
  apply (summarizeChapterText_result flaky (str "  ") (Some (str "bullet points"))
           initial_world). done.
Defined.

(** ** [getFeedbackOnAnswers]: what is graded and what comes back *)

(** X19.  An answer to a multiple-choice question is sent for grading
    unless it is a number that is not the index of an option: then it is
    left out without notice.  An answer that is not a number is sent as
    [N/A]; an index in range is sent as the text of the option. *)
Theorem multiple_choice_answer_graded allQuestions ua i q options correct :
  List.find (fun b => jsstring_eqb (block_id b) (questionId ua)) allQuestions
    = Some (MultipleChoiceQuestionBlock i q options correct) ->
  q <> [] ->
  match answer ua with
  | AnswerNumber n =>
      if (0 <=? n) && (n <? Z.of_nat (length options)) then
        exists p, qa_pair allQuestions ua = Some p /\
                  options !! Z.to_nat n = Some (pair_userAnswer p)
      else qa_pair allQuestions ua = None
  | _ =>
      exists p, qa_pair allQuestions ua = Some p /\ pair_userAnswer p = str "N/A"
  end.
Proof.
  intros Hfind Hq. unfold qa_pair. rewrite Hfind.
  change (endsWith (str "_question")
            (block_type (MultipleChoiceQuestionBlock i q options correct))) with true.
  cbn [negb]. cbv iota.
  destruct q as [|c q]; [done|].
  destruct (answer ua) as [n| | |]; try (by eexists).
  unfold index.
  destruct (Z.ltb_spec n 0) as [Hneg|Hpos].
  - assert ((0 <=? n) = false) as -> by lia. done.
  - assert ((0 <=? n) = true) as -> by lia. cbn [andb].
    destruct (Z.ltb_spec n (Z.of_nat (length options))) as [Hlt|Hge].
    + destruct (lookup_lt_is_Some_2 options (Z.to_nat n)) as [o Ho]; [lia|].
      rewrite Ho. by eexists.
    + rewrite lookup_ge_None_2 by lia. done.
Qed.

Lemma multiple_choice_answer_graded_witness :
  qa_pair sample_blocks {| questionId := str "b2"; answer := AnswerNumber 3 |} = None.
Proof.
  apply (multiple_choice_answer_graded sample_blocks
           {| questionId := str "b2"; answer := AnswerNumber 3 |}
           (str "b2") (str "How do cells multiply?")
           [str "fusion"; str "magic"; str "division"] 2); [reflexivity|done].
Defined.

Lemma augment_run pairs fb w :
  fb <> JNull ->
  exists item,
    augment pairs fb w = (Ret item, w) /\
    feedback item = spread fb /\
    ((forall p, In p pairs -> entry_id fb <> Some (pair_questionId p)) ->
     question item = None /\ userAnswer item = None) /\
    (forall p0, In p0 pairs -> entry_id fb = Some (pair_questionId p0) ->
     exists p, In p pairs /\ entry_id fb = Some (pair_questionId p) /\
               question item = Some (pair_question p) /\
               userAnswer item = Some (pair_userAnswer p)).
Proof.
  intros Hfb. unfold augment.
  assert (Hget : exists o, get_named (str "questionId") fb = Ret o /\
                   entry_id fb = match o with Some (JStr i) => Some i | _ => None end).
  { destruct fb; try done; by eexists. }
  destruct Hget as (o & Hget & Hid). rewrite Hget.
  unfold bind, lift, ret. eexists. split; [done|]. cbn [feedback question userAnswer].
  split; [done|]. rewrite Hid.
  set (f := fun p : QaPair =>
              match o with
              | Some (JStr i) => jsstring_eqb (pair_questionId p) i
              | _ => false
              end).
  split.
  - intros Hnone. replace (List.find f pairs) with (@None QaPair); [done|].
    symmetry. apply find_none_iff. intros p Hp. specialize (Hnone p Hp).
    subst f. cbv beta. destruct o as [[]|]; try done.
    apply jsstring_eqb_neq. congruence.
  - intros p0 Hp0 Hmatch.
    destruct (List.find f pairs) as [p|] eqn:Hfind.
    + apply List.find_some in Hfind as [Hin Hf]. exists p. split; [done|].
      subst f. cbv beta in Hf. destruct o as [[]|]; try done.
      apply jsstring_eqb_eq in Hf. by subst.
    + exfalso. eapply find_none_iff in Hfind; [|exact Hp0].
      subst f. cbv beta in Hfind. destruct o as [[]|]; try done.
      apply jsstring_eqb_neq in Hfind. congruence.
Qed.

Lemma augment_null pairs w : augment pairs JNull w = (Throw TypeError, w).
Proof. done. Qed.

Lemma mapM_augment_null pairs entries w :
  In JNull entries -> mapM (augment pairs) entries w = (Throw TypeError, w).
Proof.
  induction entries as [|fb entries IH]; [done|]. intros [->|Hin].
  - done.
  - cbn [mapM]. unfold bind at 1.
    assert (Hdec : fb = JNull \/ fb <> JNull) by (destruct fb; (by left) || (by right)).
    destruct Hdec as [->|Hfb]; [done|].
    destruct (augment_run pairs fb w Hfb) as (item & -> & _).
    unfold bind at 1. by rewrite (IH Hin).
Qed.

Lemma mapM_augment pairs entries w :
  Forall (fun fb => fb <> JNull) entries ->
  exists items,
    mapM (augment pairs) entries w = (Ret items, w) /\
    Forall2 (fun fb item =>
               feedback item = spread fb /\
               ((forall p, In p pairs -> entry_id fb <> Some (pair_questionId p)) ->
                question item = None /\ userAnswer item = None) /\
               (forall p0, In p0 pairs -> entry_id fb = Some (pair_questionId p0) ->
                exists p, In p pairs /\ entry_id fb = Some (pair_questionId p) /\
                          question item = Some (pair_question p) /\
                          userAnswer item = Some (pair_userAnswer p)))
            entries items.
Proof.
  induction 1 as [|fb entries Hfb _ (items & Hrun & Hall)].
  - exists []. split; [done|constructor].
  - destruct (augment_run pairs fb w Hfb) as (item & Hitem & Hprops).
    exists (item :: items). split.
    + cbn [mapM]. unfold bind at 1. rewrite Hitem. unfold bind at 1. by rewrite Hrun.
    + by constructor.
Qed.

(** X20.  The feedback decoded from the response is not checked against
    the answers sent: [getFeedbackOnAnswers] returns one item per decoded
    entry, in order, with the properties of the entry.  An entry whose
    [questionId] is the one of a pair sent for grading gets the question
    and the answer of such a pair; an entry for any other [questionId]
    is returned all the same, with neither.  A [null] among the entries
    makes the whole result [null], without a second request. *)
Theorem getFeedbackOnAnswers_items env userAnswers allQuestions w text entries :
  initialized env ->
  qaPairsForAI userAnswers allQuestions <> [] ->
  remote env (requests w) = Ret text ->
  parseJsonResponse text = Ret (Some (JArr entries)) ->
  (Forall (fun fb => fb <> JNull) entries ->
   exists items,
     getFeedbackOnAnswers env userAnswers allQuestions w
       = (Ret (Some items), sent (invoked w)) /\
     Forall2 (fun fb item =>
                feedback item = spread fb /\
                ((forall p, In p (qaPairsForAI userAnswers allQuestions) ->
                            entry_id fb <> Some (pair_questionId p)) ->
                 question item = None /\ userAnswer item = None) /\
                (forall p0, In p0 (qaPairsForAI userAnswers allQuestions) ->
                            entry_id fb = Some (pair_questionId p0) ->
                 exists p, In p (qaPairsForAI userAnswers allQuestions) /\
                           entry_id fb = Some (pair_questionId p) /\
                           question item = Some (pair_question p) /\
                           userAnswer item = Some (pair_userAnswer p)))
             entries items) /\
  (In JNull entries ->
   getFeedbackOnAnswers env userAnswers allQuestions w = (Ret None, sent (invoked w))).
Proof.
  intros Hinit Hpairs Hremote Hparse.
  set (pairs := qaPairsForAI userAnswers allQuestions) in *.
  assert (Hcall : feedback_apiCall env pairs (invoked w) =
                  bind (mapM (augment pairs) entries) (fun items => ret (Some items))
                    (sent (invoked w))).
  { unfold feedback_apiCall.
    unfold bind at 1. unfold generateContent at 1. simpl. rewrite Hremote.
    unfold bind at 1, lift at 1. by rewrite Hparse. }
  assert (Hrun : getFeedbackOnAnswers env userAnswers allQuestions w =
                 try_catch (callApiWithRetry (feedback_apiCall env pairs) 3)
                   (fun _ => ret None) w).
  { unfold getFeedbackOnAnswers.
    rewrite (bind_Ret _ _ _ _ _ (getAi_initialized env w Hinit)).
    fold pairs. destruct pairs; [done|]. done. }
  rewrite Hrun. split.
  - intros Hall. destruct (mapM_augment pairs entries (sent (invoked w)) Hall)
      as (items & Hitems & Hprops).
    exists items. split; [|done].
    erewrite try_catch_Ret; [done|].
    apply callApiWithRetry_first_success; [lia|].
    rewrite Hcall. unfold bind. by rewrite Hitems.
  - intros Hnull. erewrite try_catch_Throw; [done|].
    unfold callApiWithRetry. change (Z.to_nat 3) with 3%nat.
    rewrite retry_loop_step by lia. rewrite Hcall.
    unfold bind. rewrite (mapM_augment_null pairs entries _ Hnull). done.
Qed.

Lemma getFeedbackOnAnswers_items_witness :
  exists items,
    getFeedbackOnAnswers zealous_grader sample_answers sample_blocks initial_world
      = (Ret (Some items), sent (invoked initial_world)) /\
    length items = 2%nat.
Proof.
  destruct (getFeedbackOnAnswers_items zealous_grader sample_answers sample_blocks
              initial_world
              (Some (qstr "[{'questionId':'b2','isCorrect':false,'explanation':'No.'},{'questionId':'b9','isCorrect':true,'explanation':'Yes.'}]"))
              [ JObj [(str "questionId", JStr (str "b2")); (str "isCorrect", JBool false);
                      (str "explanation", JStr (str "No."))];
                JObj [(str "questionId", JStr (str "b9")); (str "isCorrect", JBool true);
                      (str "explanation", JStr (str "Yes."))] ])
    as [Hitems _]; [done|done|reflexivity|reflexivity|].
  destruct Hitems as (items & Hrun & Hall); [by repeat constructor|].
  exists items. split; [exact Hrun|].
  apply Forall2_length in Hall. by rewrite <- Hall.
Defined.

(** ** [searchForMaterials] *)

Lemma find_string_includes sep s :
  includes sep s = true -> exists i, find_string sep s = Some i.
Proof.
  induction s as [|c s IH]; simpl.
  - destruct (starts_with sep []); [by eexists|done].
  - destruct (starts_with sep (c :: s)); [by eexists|]. simpl.
    intros H. destruct (IH H) as [i ->]. by eexists.
Qed.

(** The index found is that of the first occurrence. *)
Lemma find_string_Some sep s i :
  find_string sep s = Some i ->
  s = take i s ++ sep ++ drop (i + length sep) s /\
  forall j, (j < i)%nat -> starts_with sep (drop j s) = false.
Proof.
  revert i. induction s as [|c s IH]; intros i; simpl.
  - destruct (starts_with sep []) eqn:Hs; [|done]. intros [= <-].
    apply starts_with_prefix in Hs as [r Hr]. split; [|lia].
    simpl. destruct sep; [done|done].
  - destruct (starts_with sep (c :: s)) eqn:Hs.
    + intros [= <-]. split; [|lia]. simpl.
      apply starts_with_prefix in Hs as [r Hr]. rewrite Hr at 1.
      f_equal. rewrite Hr. by rewrite drop_app_length.
    + destruct (find_string sep s) as [k|] eqn:Hk; [|done]. simpl. intros [= <-].
      destruct (IH k eq_refl) as [Heq Hmin]. split.
      * simpl. by f_equal.
      * intros [|j] Hj; [done|]. simpl. apply Hmin. lia.
Qed.

Lemma split_fuel_nonempty fuel sep s : split_fuel fuel sep s <> [].
Proof. destruct fuel; simpl; [done|]. by destruct (find_string sep s). Qed.

(** Joining the pieces with the separator gives the text back. *)
Lemma join_split_fuel sep fuel s : join sep (split_fuel fuel sep s) = s.
Proof.
  revert s. induction fuel as [|fuel IH]; intros s; [done|]. simpl.
  destruct (find_string sep s) as [i|] eqn:Hi; [|done].
  destruct (find_string_Some sep s i Hi) as [Heq _].
  specialize (IH (drop (i + length sep) s)).
  destruct (split_fuel fuel sep (drop (i + length sep) s)) as [|q l] eqn:Hsplit.
  { by destruct (split_fuel_nonempty fuel sep (drop (i + length sep) s)). }
  rewrite join_cons2, IH. by rewrite <- Heq.
Qed.

(** The fuel [split] supplies is enough: more fuel gives the same
    pieces. *)
Lemma split_fuel_enough sep fuel s :
  sep <> [] -> (length s <= fuel)%nat -> split_fuel fuel sep s = split sep s.
Proof.
  intros Hsep. unfold split. remember (length s) as n eqn:Hn.
  revert s fuel Hn. induction n as [n IH] using lt_wf_ind. intros s fuel -> Hfuel.
  destruct fuel as [|fuel].
  { destruct s; [done|simpl in Hfuel; lia]. }
  destruct s as [|c s].
  { destruct sep; [done|]. reflexivity. }
  cbn [length split_fuel].
  destruct (find_string sep (c :: s)) as [i|] eqn:Hi; [|done]. f_equal.
  destruct (find_string_Some sep (c :: s) i Hi) as [Heq _].
  assert (Hlen : (length (drop (i + length sep) (c :: s)) < length (c :: s))%nat).
  { rewrite length_drop. destruct sep; [done|]. simpl. lia. }
  rewrite (IH _ Hlen _ fuel eq_refl) by (simpl in *; lia).
  rewrite (IH _ Hlen _ (length s) eq_refl) by (simpl in *; lia). done.
Qed.

Lemma trimEnd_app_stop p z y :
  is_space z = false -> exists r, trimEnd ((p ++ [z]) ++ y) = (p ++ [z]) ++ r.
Proof.
  intros Hz. unfold trimEnd. rewrite !rev_app_distr. cbn [rev app].
  rewrite drop_while_app_stop by done.
  rewrite rev_app_distr. cbn [rev]. rewrite rev_involutive. by eexists.
Qed.

Lemma trim_keeps_prefix c p z y :
  is_space c = false -> is_space z = false ->
  exists r, trim ((c :: p ++ [z]) ++ y) = (c :: p ++ [z]) ++ r.
Proof.
  intros Hc Hz. unfold trim, trimStart. cbn [app drop_while]. rewrite Hc.
  change (c :: (p ++ [z]) ++ y) with (((c :: p) ++ [z]) ++ y).
  by apply trimEnd_app_stop.
Qed.

Lemma trim_last s r z : trim s = r ++ [z] -> is_space z = false.
Proof.
  unfold trim, trimEnd. intros H. apply (f_equal (@rev N)) in H.
  rewrite rev_involutive, rev_app_distr in H. cbn [rev app] in H.
  by apply drop_while_head in H.
Qed.

Lemma trim_nil_blank s : trim s = [] -> forallb is_space s = true.
Proof.
  intros H. destruct (trim_decompose s) as (a & b & Hs & Ha & Hb).
  rewrite H in Hs. simpl in Hs. by rewrite Hs, forallb_app, Ha, Hb.
Qed.

(** The separator is found after a prefix that has no blank. *)
Lemma find_after_prefix p line i :
  starts_with p line = true ->
  forallb (fun c => negb (N.eqb c 32)) p = true ->
  find_string (str " - ") line = Some i ->
  exists y, take i line = p ++ y.
Proof.
  intros Hp Hnb Hi.
  apply starts_with_prefix in Hp as [r ->].
  destruct (find_string_Some _ _ _ Hi) as [Heq _].
  destruct (Nat.le_gt_cases (length p) i) as [Hle|Hlt].
  - exists (take (i - length p) r). by rewrite take_app_ge.
  - exfalso.
    assert (Hat : (p ++ r) !! i = Some 32%N).
    { rewrite Heq. rewrite lookup_app_r by (rewrite length_take; lia).
      rewrite length_take. rewrite length_app.
      replace (i - i `min` (length p + length r))%nat with 0%nat by lia. done. }
    rewrite lookup_app_l in Hat by done.
    apply list_elem_of_lookup_2, list_elem_of_In in Hat.
    eapply forallb_forall in Hnb; [|exact Hat]. done.
Qed.

(** What the callback makes of a line that passed the first filter. *)
Lemma source_of_line_run l0 w :
  is_source_line (trim l0) = true ->
  exists source,
    source_of_line (trim l0) w = (Ret source, w) /\
    well_formed_source source /\ has_uri_and_title source = true.
Proof.
  intros Hline. unfold is_source_line in Hline.
  apply andb_true_iff in Hline as [Hinc Hhttp].
  destruct (find_string_includes _ _ Hinc) as [i Hi].
  destruct (find_string_Some _ _ _ Hi) as [Heq _].
  set (line := trim l0) in *.
  assert (Hne : line <> []).
  { intros E. rewrite E in Hhttp. done. }
  unfold source_of_line, split.
  destruct line as [|c tl] eqn:Hl; [done|]. rewrite <- Hl in *.
  assert (Hfuel : length line = S (length tl)) by (by rewrite Hl).
  rewrite Hfuel. cbn [split_fuel]. rewrite Hi.
  eexists. split; [done|].
  rewrite join_split_fuel.
  assert (Huri : exists p y,
            take i line = p ++ y /\
            (p = str "http://" \/ p = str "https://")).
  { apply orb_true_iff in Hhttp as [H|H].
    - destruct (find_after_prefix (str "http://") line i H eq_refl Hi) as [y Hy].
      exists (str "http://"), y. split; [done|by left].
    - destruct (find_after_prefix (str "https://") line i H eq_refl Hi) as [y Hy].
      exists (str "https://"), y. split; [done|by right]. }
  destruct Huri as (p & y & Htake & Hp).
  assert (Hprefix : exists r, trim (take i line) = p ++ r).
  { rewrite Htake. destruct Hp as [->| ->].
    - apply (trim_keeps_prefix (ch "h") (str "ttp:/") (ch "/") y); reflexivity.
    - apply (trim_keeps_prefix (ch "h") (str "ttps:/") (ch "/") y); reflexivity. }
  destruct Hprefix as [r Hr].
  assert (Htitle : trim (drop (i + length (str " - ")) line) <> []).
  { intros E. apply trim_nil_blank in E.
    destruct (exists_last Hne) as (init & z & Hlast).
    pose proof (trim_last l0 init z Hlast) as Hz. fold line in Hlast.
    destruct (drop (i + length (str " - ")) line) as [|d0 ds] eqn:Hdrop.
    - rewrite Hlast in Heq at 1.
      change (str " - " ++ []) with ([32%N; 45%N] ++ [32%N]) in Heq.
      rewrite app_assoc in Heq. apply app_inj_tail in Heq as [_ ->]. done.
    - destruct (exists_last (l := d0 :: ds)) as (pre & x & Hpre); [done|].
      rewrite Hpre in E, Heq. rewrite Hlast in Heq at 1.
      rewrite !app_assoc in Heq. apply app_inj_tail in Heq as [_ ->].
      rewrite forallb_app in E. simpl in E. rewrite Hz in E.
      by rewrite andb_false_r in E. }
  split.
  - split; [|done]. cbn [Source.uri]. rewrite Hr.
    destruct Hp as [->| ->]; rewrite starts_with_app; [done|apply orb_true_r].
  - unfold has_uri_and_title. cbn [Source.uri Source.title]. rewrite Hr.
    apply andb_true_iff. split; apply negb_true_iff, bool_decide_eq_false; [|done].
    destruct Hp as [->| ->]; done.
Qed.

Lemma filter_all_true {A} (f : A -> bool) l :
  Forall (fun x => f x = true) l -> List.filter f l = l.
Proof.
  induction 1 as [|x l Hx _ IH]; [done|]. simpl. by rewrite Hx, IH.
Qed.

Lemma mapM_source_of_line lines w :
  Forall (fun line => exists l0, line = trim l0 /\ is_source_line line = true) lines ->
  exists sources,
    mapM source_of_line lines w = (Ret sources, w) /\
    length sources = length lines /\
    Forall well_formed_source sources /\
    Forall (fun source => has_uri_and_title source = true) sources.
Proof.
  induction 1 as [|line lines (l0 & -> & Hline) _ (sources & Hrun & Hlen & Hwf & Hkeep)].
  - exists []. by repeat split.
  - destruct (source_of_line_run l0 w Hline) as (source & Hsource & Hw & Hk).
    exists (source :: sources). cbn [mapM]. unfold bind at 1. rewrite Hsource.
    unfold bind at 1. rewrite Hrun. split; [done|]. split; [simpl; by rewrite Hlen|].
    split; by constructor.
Qed.

(** The closure, once the response has arrived. *)
Lemma search_apiCall_run env w response_text :
  remote env (requests w) = Ret response_text ->
  exists sources,
    search_apiCall env w = (Ret sources, sent w) /\
    length sources
      = length (List.filter is_source_line (map trim (split [10%N] (default [] response_text)))) /\
    Forall well_formed_source sources.
Proof.
  intros Hremote. unfold search_apiCall.
  unfold bind at 1. unfold generateContent at 1. rewrite Hremote. fold (sent w).
  destruct response_text as [[|c text]|]; [by exists []| |by exists []].
  cbn [default].
  set (lines := List.filter is_source_line (map trim (split [10%N] (c :: text)))).
  destruct (mapM_source_of_line lines (sent w)) as (sources & Hrun & Hlen & Hwf & Hkeep).
  { apply Forall_forall. intros line [Hin Hline]%List.filter_In.
    apply in_map_iff in Hin as (l0 & <- & _). by exists l0. }
  exists sources. unfold bind. rewrite Hrun. unfold ret.
  rewrite filter_all_true by done. done.
Qed.

(** X21.  From a response, [searchForMaterials] makes one source per
    line that, without the white space around it, starts with [http://]
    or [https://] and contains the separator [ - ]: the last filter of
    the pipeline never removes anything.  Every source has an address
    that starts with [http://] or [https://] and a description that is
    not empty. *)
Theorem searchForMaterials_sources env query filter w response_text :
  initialized env ->
  remote env (requests w) = Ret response_text ->
  exists sources,
    searchForMaterials env query filter w = (Ret sources, sent (invoked w)) /\
    length sources
      = length (List.filter is_source_line (map trim (split [10%N] (default [] response_text)))) /\
    Forall well_formed_source sources.
Proof.
  intros Hinit Hremote. unfold searchForMaterials.
  rewrite (bind_Ret _ _ _ _ _ (getAi_initialized env w Hinit)).
  destruct (search_apiCall_run env (invoked w) response_text Hremote)
    as (sources & Hrun & Hlen & Hwf).
  exists sources. split; [|done].
  erewrite try_catch_Ret; [done|].
  by apply callApiWithRetry_first_success.
Qed.

Lemma searchForMaterials_sources_witness :
  exists sources,
    searchForMaterials search_results (str "physics") (str "all") initial_world
      = (Ret sources, sent (invoked initial_world)) /\
    length sources
      = length (List.filter is_source_line
                  (map trim (split [10%N]
                     (default []
                        (Some (str "Here are some links:" ++ [10%N]
                               ++ str "  https://example.edu/physics - Physics - the basics  "
                               ++ [10%N]
                               ++ str "ftp://example.org/file - An archive" ++ [10%N]
                               ++ str "http://example.org/video -no description")))))) /\
    Forall well_formed_source sources.
Proof.
  apply (searchForMaterials_sources search_results (str "physics") (str "all") initial_world);
    [done|reflexivity].
Defined.

(** The run of the witness, evaluated: of the four lines one makes a
    source; the description keeps the separators after the first. *)
Example search_results_run :
  fst (searchForMaterials search_results (str "physics") (str "all") initial_world)
  = Ret [ {| Source.uri := str "https://example.edu/physics";
             Source.title := str "Physics - the basics" |} ].
Proof. vm_compute. reflexivity. Qed.

(** X22.  [searchForMaterials] is the one function that raises after a
    failed call.  What it raises is never the error of the call: it is
    one of two fixed errors, the one about safety filters exactly when
    the message of the error of the call has the text [SAFETY]; and it
    raises only when a request has failed, never because of what a
    response contains. *)
Theorem searchForMaterials_failure env query filter w e w' :
  initialized env ->
  searchForMaterials env query filter w = (Throw e, w') ->
  (e = safety_error \/ e = search_error) /\
  exists k cause,
    remote env k = Throw cause /\
    (e = safety_error <-> mentions (str "SAFETY") cause).
Proof.
  intros Hinit. unfold searchForMaterials.
  rewrite (bind_Ret _ _ _ _ _ (getAi_initialized env w Hinit)).
  unfold try_catch, callApiWithRetry.
  destruct (retry_loop_result (search_apiCall env) 3 (Z.to_nat 3) 0 w) as [w0 Hw0];
    [lia|lia|].
  rewrite Hw0.
  destruct (search_apiCall env (invoked w0)) as [[sources|cause] w1] eqn:Hcall; [done|].
  assert (Hcause : remote env (requests (invoked w0)) = Throw cause).
  { destruct (remote env (requests (invoked w0))) as [rt|cause'] eqn:Hremote.
    - destruct (search_apiCall_run env (invoked w0) rt Hremote) as (sources & Hrun & _).
      rewrite Hrun in Hcall. done.
    - unfold search_apiCall, bind, generateContent in Hcall. rewrite Hremote in Hcall.
      by injection Hcall as -> _. }
  destruct (includes (str "SAFETY") (message cause)) eqn:Hsafety.
  - intros [= <- <-]. split; [by left|]. exists (requests (invoked w0)), cause.
    split; [done|]. split; [intros _; by apply includes_spec|done].
  - intros [= <- <-]. split; [by right|]. exists (requests (invoked w0)), cause.
    split; [done|]. split; [done|].
    intros Hm. apply includes_spec in Hm. congruence.
Qed.

Lemma searchForMaterials_failure_witness :
  (safety_error = safety_error \/ safety_error = search_error) /\
  exists k cause,
    remote blocked_search k = Throw cause /\
    (safety_error = safety_error <-> mentions (str "SAFETY") cause).
Proof.
  apply (searchForMaterials_failure blocked_search (str "weapons") (str "all") initial_world
           safety_error (sent (invoked initial_world))); [done|].
  vm_compute. reflexivity.
Defined.

(** ** [getAiCorrections], [searchWithinDocument] and [categorizeBooks] *)

Lemma decode_apiCall_run env w text :
  remote env (requests w) = Ret text ->
  decode_apiCall env w = (parseJsonResponse text, sent w).
Proof.
  intros Hremote. unfold decode_apiCall, bind, generateContent, lift.
  by rewrite Hremote.
Qed.

Lemma decoded_first_response env w text :
  remote env (requests w) = Ret text ->
  try_catch (callApiWithRetry (decode_apiCall env) 3) (fun _ => ret None) w
  = (parseJsonResponse text, sent (invoked w)).
Proof.
  intros Hremote. destruct (parseJsonResponse_Ret text) as [r Hr]. rewrite Hr.
  erewrite try_catch_Ret; [done|].
  apply callApiWithRetry_first_success; [lia|].
  by rewrite (decode_apiCall_run env (invoked w) text Hremote), Hr.
Qed.

(** X23.  [getAiCorrections], [searchWithinDocument] and
    [categorizeBooks] return what [parseJsonResponse] makes of the
    response, as it is: [null] when nothing can be decoded, and any
    decoded value otherwise, array or not.  With nothing to correct or
    to categorize the first and the last return the empty array without
    any request. *)
Theorem decoded_as_is env w text :
  initialized env ->
  remote env (requests w) = Ret text ->
  (forall incorrectAnswers,
     getAiCorrections env incorrectAnswers w =
     match incorrectAnswers with
     | [] => (Ret (Some (JArr [])), w)
     | _ :: _ => (parseJsonResponse text, sent (invoked w))
     end) /\
  (forall context query,
     searchWithinDocument env context query w = (parseJsonResponse text, sent (invoked w))) /\
  (forall bookTitles,
     categorizeBooks env bookTitles w =
     match bookTitles with
     | [] => (Ret (Some (JArr [])), w)
     | _ :: _ => (parseJsonResponse text, sent (invoked w))
     end).
Proof.
  intros Hinit Hremote. split; [|split].
  - intros incorrectAnswers. unfold getAiCorrections.
    rewrite (bind_Ret _ _ _ _ _ (getAi_initialized env w Hinit)).
    destruct incorrectAnswers; [done|]. cbn [length Nat.eqb].
    by apply decoded_first_response.
  - intros context query. unfold searchWithinDocument.
    rewrite (bind_Ret _ _ _ _ _ (getAi_initialized env w Hinit)).
    by apply decoded_first_response.
  - intros bookTitles. unfold categorizeBooks.
    rewrite (bind_Ret _ _ _ _ _ (getAi_initialized env w Hinit)).
    destruct bookTitles; [done|]. cbn [length Nat.eqb].
    by apply decoded_first_response.
Qed.

Lemma decoded_as_is_witness :
  getAiCorrections wrapped_lessons sample_incorrect initial_world
  = (parseJsonResponse (Some (qstr "{'lessons':[{'title':'L1','startPage':1,'endPage':2}]}")),
     sent (invoked initial_world)).
Proof.
  assert (H1 : initialized wrapped_lessons) by done.
  assert (H2 : remote wrapped_lessons (requests initial_world)
               = Ret (Some (qstr "{'lessons':[{'title':'L1','startPage':1,'endPage':2}]}")))
    by reflexivity.
  exact (proj1 (decoded_as_is wrapped_lessons initial_world _ H1 H2) sample_incorrect).
Defined.

Lemma failures_absorbed_witness :
  (forall text, returns (proofreadSinglePageText hopeless text) initial_world) /\
  (forall chapterText style,
     returns (summarizeChapterText hopeless chapterText style) initial_world) /\
  (forall pages, returns (analyzeDocumentStructure hopeless pages) initial_world).
Proof.
  destruct (failures_absorbed hopeless initial_world) as (H1 & H2 & H3 & _); [done|].
  by repeat split.
Defined.
